(** * API monetization platform: gateway rate limiter, proxy forwarder,
      usage buffer, billing period calculator and invoice engine.

    A shallow embedding of the TypeScript services
      - [RateLimitService]      (gateway, proxy/services/rate-limit.service.ts)
      - [ProxyService]          (gateway, proxy/services/proxy.service.ts)
      - [UsageTrackingService]  (gateway, proxy/services/usage-tracking.service.ts)
      - [PricingService]        (billing, pricing/pricing.service.ts)
      - [BillingService]        (billing, billing/billing.service.ts)
      - [InvoiceService]        (billing, invoice/invoice.service.ts)
    followed by the properties established about them.

    Conventions of the embedding.
      - A JavaScript [Date] is its time value: milliseconds since the epoch,
        a [Z].  Local time is a fixed offset [tz] (milliseconds east of UTC)
        from UTC; zones with daylight saving are outside the model.
      - Every service call reads the clock once: the instant [now] is an
        argument of the call.
      - A [Decimal(10,2)] amount is its number of cents, a [Z].
      - An [async] method that may throw returns [Exn + A]; one that also
        writes to a store threads the store explicitly. *)

From Stdlib Require Import ZArith Lia Ascii String.
From stdpp Require Import base gmap strings list pretty.

Local Open Scope Z_scope.

(* ===================================================================== *)
(** * JavaScript [Date] arithmetic *)
(* ===================================================================== *)

Module JsDate.

Definition msPerDay : Z := 86400000.

(** [Day(t)] and [TimeWithinDay(t)] of ECMA-262. *)
Definition Day (t : Z) : Z := t `div` msPerDay.
Definition TimeWithinDay (t : Z) : Z := t `mod` msPerDay.

(** Day number (days since 1970-01-01) of the proleptic Gregorian date
    [y]-[m]-[d], with [m] in 1..12. *)
Definition days_from_civil (y m d : Z) : Z :=
  let y' := if m <=? 2 then y - 1 else y in
  let era := y' `div` 400 in
  let yoe := y' - era * 400 in
  let mp := if 2 <? m then m - 3 else m + 9 in
  let doy := (153 * mp + 2) `div` 5 + d - 1 in
  let doe := yoe * 365 + yoe `div` 4 - yoe `div` 100 + doy in
  era * 146097 + doe - 719468.

(** Inverse direction: (year, month 1..12, day of month) of a day number. *)
Definition civil_from_days (z : Z) : Z * Z * Z :=
  let z' := z + 719468 in
  let era := z' `div` 146097 in
  let doe := z' - era * 146097 in
  let yoe := (doe - doe `div` 1460 + doe `div` 36524 - doe `div` 146096) `div` 365 in
  let doy := doe - (365 * yoe + yoe `div` 4 - yoe `div` 100) in
  let mp := (5 * doy + 2) `div` 153 in
  let d := doy - (153 * mp + 2) `div` 5 + 1 in
  let m := if mp <? 10 then mp + 3 else mp - 9 in
  let y := yoe + era * 400 in
  (if m <=? 2 then y + 1 else y, m, d).

(** [YearFromTime], [MonthFromTime] (0..11) and [DateFromTime] (1..31). *)
Definition YearFromTime (t : Z) : Z := (civil_from_days (Day t)).1.1.
Definition MonthFromTime (t : Z) : Z := (civil_from_days (Day t)).1.2 - 1.
Definition DateFromTime (t : Z) : Z := (civil_from_days (Day t)).2.

(** [MakeDay(year, month, date)]: the month may lie outside 0..11 and the
    date outside the month; both carry over. *)
Definition MakeDay (year month date : Z) : Z :=
  let ym := year + month `div` 12 in
  let mn := month `mod` 12 in
  days_from_civil ym (mn + 1) 1 + date - 1.

Definition MakeDate (day time : Z) : Z := day * msPerDay + time.

Section Local.
(** Offset of local time from UTC, in milliseconds. *)
Variable tz : Z.

Definition LocalTime (t : Z) : Z := t + tz.
Definition UTC (t : Z) : Z := t - tz.

Definition getFullYear (t : Z) : Z := YearFromTime (LocalTime t).
Definition getMonth (t : Z) : Z := MonthFromTime (LocalTime t).
Definition getDate (t : Z) : Z := DateFromTime (LocalTime t).

(** [d.setMonth(month)]: the day of month is kept as a number, so a day
    the target month does not have carries into the following month. *)
Definition setMonth (t month : Z) : Z :=
  let l := LocalTime t in
  UTC (MakeDate (MakeDay (YearFromTime l) month (DateFromTime l))
                (TimeWithinDay l)).

(** [d.setDate(date)]. *)
Definition setDate (t date : Z) : Z :=
  let l := LocalTime t in
  UTC (MakeDate (MakeDay (YearFromTime l) (MonthFromTime l) date)
                (TimeWithinDay l)).

(** [d.setHours(24, 0, 0, 0)]: hour 24 of the local day of [t]. *)
Definition setHours24 (t : Z) : Z :=
  let l := LocalTime t in
  UTC (MakeDate (Day l) (24 * 3600000)).
End Local.

(** Instant of a UTC wall-clock reading; used to write dates down. *)
Definition utc (y mo d h mi : Z) : Z :=
  MakeDate (days_from_civil y mo d) (h * 3600000 + mi * 60000).

End JsDate.

(* ===================================================================== *)
(** * Exceptions *)
(* ===================================================================== *)

Inductive Exn : Type :=
  | NotFoundException (msg : string)
  | BadRequestException (msg : string)
  | PrismaUniqueConstraint (field : string)
  | PrismaForeignKey (field : string)
  | RedisError
  | Error (msg : string).

(* ===================================================================== *)
(** * Awaited calls that may throw *)
(* ===================================================================== *)

(** An [async] method over a store [S]: it changes the store and returns
    or throws. *)
Definition M (S A : Type) : Type := S → S * (Exn + A).

Definition ret {S A} (a : A) : M S A := λ s, (s, inr a).

Definition throw {S A} (e : Exn) : M S A := λ s, (s, inl e).

Definition bind {S A B} (m : M S A) (k : A → M S B) : M S B :=
  λ s, match m s with
       | (s', inr a) => k a s'
       | (s', inl e) => (s', inl e)
       end.

(** [try { body } catch (error) { handler(error) }]. *)
Definition try_catch {S A} (body : M S A) (handler : Exn → M S A) : M S A :=
  λ s, match body s with
       | (s', inr a) => (s', inr a)
       | (s', inl e) => handler e s'
       end.

Notation "'let!' x ':=' m 'in' k" := (bind m (λ x, k))
  (at level 10, x name, m at level 100, k at level 200).
Notation "m ';;' k" := (bind m (λ _, k))
  (at level 100, k at level 200, right associativity).

(* ===================================================================== *)
(** * Gateway: daily rate limiter *)
(* ===================================================================== *)

Module RateLimit.

(** The Redis hash [rate:limit:{customerId}] as [checkAndIncrement] reads
    it.  The fields are kept as the values the code parses out of them:
    [count] is [parseInt(userUsage.count)] and [resetAt] the time value of
    [new Date(userUsage.resetAt)]; [None] stands for [NaN] / Invalid Date
    (a field that is missing or does not parse).  A key that is not in
    the store is the empty object [hgetAll] returns for it.  The Redis
    commands of the limiter are taken to succeed. *)
Record UsageMap : Type := mkUsageMap {
  count : option Z;
  resetAt : option Z
}.

(** The [resetAt] member of the result: [resetAt.toDateString()] of a new
    instant on the reset paths, the stored field otherwise. *)
Inductive ResetAtOut : Type :=
  | DateString (t : Z)
  | StoredResetAt (field : option Z).

Record Decision : Type := mkDecision {
  allowed : bool;
  remaining : option Z;       (* [None] is [NaN] *)
  resetAtOut : ResetAtOut
}.

Definition rateKey (customerId : string) : string :=
  "rate:limit:" +:+ customerId.

(** [redisService.hset(key, field, value)]: writes one field and creates
    the hash when the key is absent. *)
Definition hset_count (key : string) (v : option Z)
    (r : gmap string UsageMap) : gmap string UsageMap :=
  match r !! key with
  | Some h => <[key := mkUsageMap v (resetAt h)]> r
  | None => <[key := mkUsageMap v None]> r
  end.

Definition hset_resetAt (key : string) (v : option Z)
    (r : gmap string UsageMap) : gmap string UsageMap :=
  match r !! key with
  | Some h => <[key := mkUsageMap (count h) v]> r
  | None => <[key := mkUsageMap None v]> r
  end.

(** The two reset paths of the source share this body. *)
Definition resetWindow (tz now : Z) (key : string) (limit : Z)
    (r : gmap string UsageMap) : gmap string UsageMap * Decision :=
  let resetAt := JsDate.setHours24 tz now in
  let r1 := hset_count key (Some 1) r in
  let r2 := hset_resetAt key (Some resetAt) r1 in
  (r2, mkDecision true (Some (limit - 1)) (DateString resetAt)).

(** [a < b] on a [Date] that may be invalid: [NaN] compares false. *)
Definition date_lt (a : option Z) (b : Z) : bool :=
  match a with Some x => x <? b | None => false end.

(** [a >= b] on a number that may be [NaN]. *)
Definition num_ge (a : option Z) (b : Z) : bool :=
  match a with Some x => b <=? x | None => false end.

Definition checkAndIncrement (tz now : Z) (customerId : string) (limit : Z)
    (r : gmap string UsageMap) : gmap string UsageMap * Decision :=
  let key := rateKey customerId in
  match r !! key with
  | None => resetWindow tz now key limit r
  | Some userUsage =>
      if date_lt (resetAt userUsage) now then
        resetWindow tz now key limit r
      else
        let usageCount := count userUsage in
        if num_ge usageCount limit then
          (r, mkDecision false (Some 0) (StoredResetAt (resetAt userUsage)))
        else
          (hset_count key ((λ c, c + 1) <$> usageCount) r,
           mkDecision true ((λ c, limit - c) <$> usageCount)
                      (StoredResetAt (resetAt userUsage)))
  end.

End RateLimit.

(* ===================================================================== *)
(** * Gateway: proxy forwarder *)
(* ===================================================================== *)

Module Proxy.

Record Developer : Type := mkDeveloper {
  dev_id : Z;
  dev_name : string;
  apiUrl : string
}.

Record Customer : Type := mkCustomer {
  cust_id : Z;
  email : string;
  tierName : string
}.

(** The parts of the Express request [forwardRequests] reads.  [url] is the
    request target with its query string; [developer] and [customer] are
    what the API-key middleware attached. *)
Record Request : Type := mkRequest {
  url : string;
  method : string;
  headers : list (string * string);
  body : option string;
  developer : Developer;
  customer : Customer
}.

(** What the HTTP client does with a call: a 2xx response, an error that
    carries the upstream response, or an error without one (timeout,
    refused connection). *)
Inductive HttpOutcome : Type :=
  | Response (data : string)
  | ErrorResponse (data : string) (status : Z)
  | TransportError.

Record HttpCall : Type := mkHttpCall {
  call_method : string;
  call_url : string;
  call_body : option string;
  call_headers : list (string * string)
}.

Inductive ProxyResult : Type :=
  | Returned (data : string)
  | ThrewHttp (data : string) (status : Z).

Definition toLowerAscii (c : Ascii.ascii) : Ascii.ascii :=
  let n := Ascii.nat_of_ascii c in
  if ((65 <=? n) && (n <=? 90))%nat then Ascii.ascii_of_nat (n + 32) else c.

Fixpoint toLowerCase (s : string) : string :=
  match s with
  | EmptyString => EmptyString
  | String c s' => String (toLowerAscii c) (toLowerCase s')
  end.

Definition headersToRemove : list string :=
  ["host"; "x-api-key"; "x-forwarded-for"; "x-real-ip"; "connection";
   "content-length"; "content-type"].

Definition cleanHeaders (hs : list (string * string)) : list (string * string) :=
  filter (λ kv, toLowerCase kv.1 ∉ headersToRemove) hs.

(** [req.url.replace(/^\/api/, '') || '/']. *)
Definition urlPath (u : string) : string :=
  let stripped :=
    if String.prefix "/api" u then String.substring 4 (String.length u - 4) u
    else u in
  if decide (stripped = EmptyString) then "/" else stripped.

(** A template literal prints an [undefined] value as the text
    [undefined]. *)
Definition template (v : option string) : string := default "undefined" v.

(** [`${configService.get('api.targetUrl')}${urlPath}` ||
     `https://httpbin.org${urlPath}`]: the right operand is taken when the
    left one is the empty string. *)
Definition targetUrl (configTargetUrl : option string) (req : Request) : string :=
  let p := urlPath (url req) in
  let t := template configTargetUrl +:+ p in
  if decide (t = EmptyString) then "https://httpbin.org" +:+ p else t.

Section Forward.
(** [configService.get('api.targetUrl')] and the HTTP client. *)
Variable configTargetUrl : option string.
Variable httpService : HttpCall → HttpOutcome.

(** The call [forwardRequests] issues, if the method is one of the four
    the [switch] knows. *)
Definition upstreamCall (req : Request) : option HttpCall :=
  let t := targetUrl configTargetUrl req in
  let hs := cleanHeaders (headers req) in
  if decide (method req = "GET") then Some (mkHttpCall "GET" t None hs)
  else if decide (method req = "POST") then Some (mkHttpCall "POST" t (body req) hs)
  else if decide (method req = "PUT") then Some (mkHttpCall "PUT" t (body req) hs)
  else if decide (method req = "DELETE") then Some (mkHttpCall "DELETE" t None hs)
  else None.

(** Result of [forwardRequests] together with the calls made upstream. *)
Definition forwardRequests (req : Request) : list HttpCall * ProxyResult :=
  match upstreamCall req with
  | Some c =>
      match httpService c with
      | Response data => ([c], Returned data)
      | ErrorResponse data status => ([c], ThrewHttp data status)
      | TransportError => ([c], ThrewHttp "Gateway error" 502)
      end
  | None => ([], ThrewHttp "Gateway error" 502)
  end.
End Forward.

End Proxy.

(* ===================================================================== *)
(** * Gateway: usage buffer *)
(* ===================================================================== *)

Module UsageTracking.

Record UsageLog : Type := mkUsageLog {
  customerId : string;
  apiKey : string;
  apiKeyId : Z;
  endpoint : string;
  method : string;
  statusCode : string;
  responseTime : Z;
  timestamp : Z
}.

Inductive ConsoleLine : Type :=
  | ConsoleLog (label : string) (usage : UsageLog)
  | ConsoleError (label : string) (error : Exn).

(** The world [addUsageLog] acts on: the Redis lists, the process console,
    and the fate of the Redis commands still to come ([true]: the command
    is rejected; past the end of the list every command succeeds). *)
Record World : Type := mkWorld {
  lists : gmap string (list string);
  console : list ConsoleLine;
  faults : list bool
}.

(** One Redis round trip: consumes the next fate and runs [op] on the lists
    when the command is accepted. *)
Definition command {A} (op : gmap string (list string) → gmap string (list string) * A)
    : M World A :=
  λ w, match faults w with
       | true :: fs => (mkWorld (lists w) (console w) fs, inl RedisError)
       | false :: fs =>
           let '(l', a) := op (lists w) in (mkWorld l' (console w) fs, inr a)
       | [] =>
           let '(l', a) := op (lists w) in (mkWorld l' (console w) [], inr a)
       end.

(** [LPUSH key value]: new head, returns the new length. *)
Definition lpush (key value : string) : M World Z :=
  command (λ l, let xs := value :: default [] (l !! key) in
                (<[key := xs]> l, Z.of_nat (length xs))).

(** [LTRIM key 0 stop] with [0 <= stop]: keeps the first [stop + 1]
    elements; an absent key stays absent. *)
Definition ltrim (key : string) (start stop : Z) : M World string :=
  command (λ l, match l !! key with
                | Some xs =>
                    (<[key := take (Z.to_nat (stop - start + 1))
                                   (drop (Z.to_nat start) xs)]> l, "OK")
                | None => (l, "OK")
                end).

Definition console_log (label : string) (usage : UsageLog) : M World unit :=
  λ w, (mkWorld (lists w) (console w ++ [ConsoleLog label usage]) (faults w), inr tt).

Definition console_error (label : string) (error : Exn) : M World unit :=
  λ w, (mkWorld (lists w) (console w ++ [ConsoleError label error]) (faults w), inr tt).

Definition MAX_LOGS_PER_CUSTOMER : Z := 1000.
Definition MAX_LOGS_TOTAL : Z := 5000.

Section Service.
(** [JSON.stringify] on a usage record. *)
Variable JSON_stringify : UsageLog → string.

Definition addUsageLog (usage : UsageLog) : M World unit :=
  try_catch
    (let customerKey := "usage:logs:" +:+ customerId usage in
     lpush customerKey (JSON_stringify usage) ;;
     ltrim customerKey 0 (MAX_LOGS_PER_CUSTOMER - 1) ;;
     lpush "usage:logs:all" (JSON_stringify usage) ;;
     ltrim "usage:logs:all" 0 (MAX_LOGS_TOTAL - 1) ;;
     console_log "Usage tracked:" usage)
    (λ error, console_error "Failed to track usage:" error).
End Service.

End UsageTracking.

(* ===================================================================== *)
(** * Billing: the relational store *)
(* ===================================================================== *)

Module Billing.

Inductive InvoiceStatus : Type := PENDING | PAID | OVERDUE | CANCELLED.

#[global] Instance InvoiceStatus_eq_dec : EqDecision InvoiceStatus.
Proof. solve_decision. Defined.

Record Tier : Type := mkTier {
  tier_id : Z;
  tier_name : string;
  price : Z;                       (* Decimal(10,2), in cents *)
  rateLimit : Z
}.

Record Customer : Type := mkCustomer {
  cust_id : Z;
  cust_name : string;
  cust_email : string;
  tierId : Z;
  isActive : bool;
  cust_createdAt : Z
}.

Record UsageHistory : Type := mkUsageHistory {
  uh_id : Z;
  uh_customerId : Z;
  uh_endpoint : string;
  uh_method : string;
  uh_statusCode : Z;
  uh_responseTime : Z;
  timestamp : Z
}.

Record Invoice : Type := mkInvoice {
  id : Z;
  invoiceNumber : string;
  customerId : Z;
  periodStart : Z;
  periodEnd : Z;
  totalUsage : Z;
  amount : Z;                      (* Decimal(10,2), in cents *)
  status : InvoiceStatus;
  dueDate : Z;
  paidAt : option Z;
  stripeInvoiceId : option string;
  createdAt : Z
}.

Record InvoiceLineItem : Type := mkInvoiceLineItem {
  li_id : Z;
  invoiceId : Z;
  description : string;
  quantity : Z;
  unitPrice : Z;
  li_amount : Z;
  li_createdAt : Z
}.

(** The tables in insertion order and the two [SERIAL] sequences the
    invoice engine draws from. *)
Record DB : Type := mkDB {
  tiers : list Tier;
  customers : list Customer;
  usageHistory : list UsageHistory;
  invoices : list Invoice;
  lineItems : list InvoiceLineItem;
  invoice_id_seq : Z;
  lineItem_id_seq : Z
}.

Definition with_invoices (db : DB) (invs : list Invoice) (seq : Z) : DB :=
  mkDB (tiers db) (customers db) (usageHistory db) invs (lineItems db)
       seq (lineItem_id_seq db).

Definition with_lineItems (db : DB) (ls : list InvoiceLineItem) (seq : Z) : DB :=
  mkDB (tiers db) (customers db) (usageHistory db) (invoices db) ls
       (invoice_id_seq db) seq.

(** A read that cannot throw, and one that can. *)
Definition query {A} (f : DB → A) : M DB A := λ db, (db, inr (f db)).
Definition attempt {A} (f : DB → Exn + A) : M DB A := λ db, (db, f db).

(** ** Prisma reads *)

Definition findCustomer (db : DB) (cid : Z) : option Customer :=
  List.find (λ c, bool_decide (cust_id c = cid)) (customers db).

Definition findTier (db : DB) (tid : Z) : option Tier :=
  List.find (λ t, bool_decide (tier_id t = tid)) (tiers db).

Definition findInvoice (db : DB) (iid : Z) : option Invoice :=
  List.find (λ i, bool_decide (id i = iid)) (invoices db).

(** [customer.findUnique({ where: { id }, include: { tier: true } })].  The
    tier relation is required; a customer row without its tier row cannot
    be read. *)
Definition customer_with_tier (cid : Z) (db : DB) : Exn + option (Customer * Tier) :=
  match findCustomer db cid with
  | None => inr None
  | Some c =>
      match findTier db (tierId c) with
      | Some t => inr (Some (c, t))
      | None => inl (Error "Inconsistent query result: tier is required")
      end
  end.

(** ** Pricing service *)

Record UsageForPeriod : Type := mkUsageForPeriod {
  ufp_customerId : Z;
  usage : Z;
  period_start : Z;
  period_end : Z
}.

(** [usageHistory.count({ where: { customerId,
      timestamp: { gte: startDate, lt: endDate } } })]. *)
Definition usageHistory_count (cid startDate endDate : Z) (db : DB) : Z :=
  Z.of_nat (length (List.filter
    (λ u, bool_decide (uh_customerId u = cid)
          && (startDate <=? timestamp u) && (timestamp u <? endDate))
    (usageHistory db))).

Definition calculateUsageForPeriod (cid startDate endDate : Z) : M DB UsageForPeriod :=
  let! usageCount := query (usageHistory_count cid startDate endDate) in
  ret (mkUsageForPeriod cid usageCount startDate endDate).

(** ** Text helpers of the invoice engine *)

(** [s.padStart(n, '0')]. *)
Definition padStart0 (n : nat) (s : string) : string :=
  String.concat EmptyString (replicate (n - String.length s) "0") +:+ s.

(** [s.split('-')]. *)
Fixpoint split_dash (s : string) : list string :=
  match s with
  | EmptyString => [EmptyString]
  | String c s' =>
      if Ascii.eqb c "-"%char then EmptyString :: split_dash s'
      else match split_dash s' with
           | p :: ps => String c p :: ps
           | [] => [String c EmptyString]
           end
  end.

Definition digit_of (c : Ascii.ascii) : option Z :=
  let n := Ascii.nat_of_ascii c in
  if ((48 <=? n) && (n <=? 57))%nat then Some (Z.of_nat n - 48) else None.

Fixpoint leading_digits (s : string) (acc : option Z) : option Z :=
  match s with
  | EmptyString => acc
  | String c s' =>
      match digit_of c with
      | Some d => leading_digits s' (Some (10 * default 0 acc + d))
      | None => acc
      end
  end.

Fixpoint skip_spaces (s : string) : string :=
  match s with
  | String c s' => if Ascii.eqb c " "%char then skip_spaces s' else s
  | EmptyString => s
  end.

(** [parseInt(s)]: optional blanks and sign, then the longest run of
    decimal digits; [None] is [NaN] (also for an [undefined] argument). *)
Definition parseInt (s : option string) : option Z :=
  match skip_spaces <$> s with
  | None => None
  | Some (String "-"%char s') => Z.opp <$> leading_digits s' None
  | Some (String "+"%char s') => leading_digits s' None
  | Some s' => leading_digits s' None
  end.

(** [String(n)] of a number that may be [NaN]. *)
Definition String_of_number (n : option Z) : string :=
  match n with Some z => pretty z | None => "NaN" end.

(** en-US month names, as [toLocaleString(_, { month: 'long' })] prints
    them; the repository's tests read this locale. *)
Definition monthNames : list string :=
  ["January"; "February"; "March"; "April"; "May"; "June"; "July";
   "August"; "September"; "October"; "November"; "December"].

Definition monthYear (tz t : Z) : string :=
  default EmptyString (monthNames !! Z.to_nat (JsDate.getMonth tz t)) +:+ " "
  +:+ pretty (JsDate.getFullYear tz t).

(** Digits in groups of three from the right, as [n.toLocaleString()]
    prints a count in the en-US locale. *)
Fixpoint group3 (fuel : nat) (n : Z) : string :=
  match fuel with
  | O => pretty n
  | S fuel' =>
      if n <? 1000 then pretty n
      else group3 fuel' (n `div` 1000) +:+ "," +:+ padStart0 3 (pretty (n `mod` 1000))
  end.

Definition toLocaleString (n : Z) : string :=
  if n <? 0 then "-" +:+ group3 8 (- n) else group3 8 n.

(** ** Billing service: the period covering [now] *)

Record BillingPeriod : Type := mkBillingPeriod {
  bp_periodStart : Z;
  bp_periodEnd : Z;
  startDate : Z;
  endDate : Z;
  daysRemaining : Z;
  cycleDay : Z
}.

Definition MAX_ITERATIONS : nat := 120.

(** [invoice.findFirst({ where: { customerId }, orderBy: { periodEnd: 'desc' } })]:
    the first row, in table order, among those with the greatest
    [periodEnd]. *)
Definition lastInvoiceOf (db : DB) (cid : Z) : option Invoice :=
  foldl (λ best i,
           if bool_decide (customerId i = cid) then
             match best with
             | Some b => if periodEnd b <? periodEnd i then Some i else best
             | None => Some i
             end
           else best)
        None (invoices db).

Section Period.
Variables tz now : Z.

(** [periodEnd = new Date(periodStart); periodEnd.setMonth(periodEnd.getMonth() + 1)]. *)
Definition nextMonth (periodStart : Z) : Z :=
  JsDate.setMonth tz periodStart (JsDate.getMonth tz periodStart + 1).

(** The [while (iterations < MAX_ITERATIONS)] loop shared by the three
    branches, with [fuel = MAX_ITERATIONS - iterations]; [guard] is the
    branch's own check between the window test and the advance.  Leaving
    the loop by its condition is the error raised right after the
    branches. *)
Fixpoint advance (guard : Z → option Exn) (fuel : nat) (periodStart : Z)
    : Exn + (Z * Z) :=
  match fuel with
  | O => inl (Error "Failed to calculate billing period after 120 iterations")
  | S fuel' =>
      let periodEnd := nextMonth periodStart in
      if (periodStart <=? now) && (now <? periodEnd) then
        inr (periodStart, periodEnd)
      else
        match guard periodStart with
        | Some e => inl e
        | None => advance guard fuel' periodEnd
        end
  end.

Definition guardFuture (periodStart : Z) : option Exn :=
  if now <? periodStart then
    Some (Error "Billing period calculation error: start date is in the future")
  else None.

Definition guardNone (periodStart : Z) : option Exn := None.

Definition guardTooFar (periodStart : Z) : option Exn :=
  if JsDate.getFullYear tz now + 10 <? JsDate.getFullYear tz periodStart then
    Some (Error "Billing calculation went too far into future")
  else None.

(** [Math.ceil((periodEnd.getTime() - now.getTime()) / (1000 * 60 * 60 * 24))]. *)
Definition ceilDays (periodEnd : Z) : Z :=
  - ((now - periodEnd) `div` JsDate.msPerDay).

Definition getCurrentBillingPeriod (cid : Z) (db : DB) : Exn + BillingPeriod :=
  match findCustomer db cid with
  | None => inl (NotFoundException "Customer not found")
  | Some customer =>
      let lastInvoice := lastInvoiceOf db cid in
      let window :=
        match lastInvoice with
        | None =>
            let periodStart := cust_createdAt customer in
            if JsDate.getFullYear tz now + 100 <? JsDate.getFullYear tz periodStart
            then inl (Error "Invalid customer creation date")
            else advance guardFuture MAX_ITERATIONS periodStart
        | Some last =>
            if JsDate.getFullYear tz now + 100 <? JsDate.getFullYear tz (periodEnd last)
            then inl (Error "Invalid invoice period end date")
            else if now <? periodEnd last then
              advance guardNone MAX_ITERATIONS (cust_createdAt customer)
            else
              advance guardTooFar MAX_ITERATIONS
                (JsDate.setDate tz (periodEnd last)
                   (JsDate.getDate tz (periodEnd last) + 1))
        end in
      match window with
      | inl e => inl e
      | inr (periodStart, periodEnd) =>
          let cycleDay :=
            match lastInvoice with
            | None => JsDate.getDate tz (cust_createdAt customer)
            | Some last => JsDate.getDate tz (Billing.periodEnd last)
            end in
          inr (mkBillingPeriod periodStart periodEnd periodStart periodEnd
                 (ceilDays periodEnd) cycleDay)
      end
  end.
End Period.

(** ** Invoice service *)

Record CreateInvoiceDto : Type := mkCreateInvoiceDto {
  dto_customerId : Z;
  dto_periodStart : Z;
  dto_periodEnd : Z
}.

(** An optional member of an update: left out ([undefined], the column is
    not written), [null], or a value. *)
Inductive Patch (A : Type) : Type :=
  | Undefined
  | Null
  | Value (a : A).
Arguments Undefined {A}.
Arguments Null {A}.
Arguments Value {A} a.

Definition apply_patch {A} (p : Patch A) (old : option A) : option A :=
  match p with
  | Undefined => old
  | Null => None
  | Value a => Some a
  end.

Record UpdateInvoiceStatusDto : Type := mkUpdateInvoiceStatusDto {
  upd_status : InvoiceStatus;
  upd_paidAt : Patch Z;
  upd_stripeInvoiceId : Patch string
}.

Record CreateLineItemDto : Type := mkCreateLineItemDto {
  cl_description : string;
  cl_quantity : Z;
  cl_unitPrice : Z;
  cl_amount : Z
}.

Record InvoiceLineItemResponseDto : Type := mkInvoiceLineItemResponseDto {
  rl_id : Z;
  rl_description : string;
  rl_quantity : Z;
  rl_unitPrice : Z;
  rl_amount : Z;
  rl_createdAt : Z
}.

Record InvoiceResponseDto : Type := mkInvoiceResponseDto {
  r_id : Z;
  r_invoiceNumber : string;
  r_customerId : Z;
  r_customerName : string;
  r_customerEmail : string;
  r_periodStart : Z;
  r_periodEnd : Z;
  r_totalUsage : Z;
  r_amount : Z;
  r_status : InvoiceStatus;
  r_dueDate : Z;
  r_paidAt : option Z;
  r_stripeInvoiceId : option string;
  r_createdAt : Z;
  r_lineItems : list InvoiceLineItemResponseDto
}.

(** [invoice.findFirst({ where: { customerId, periodStart: { equals },
      periodEnd: { equals } } })], as a boolean. *)
Definition checkForDuplicateInvoice (cid pStart pEnd : Z) : M DB bool :=
  query (λ db,
    bool_decide (is_Some (List.find
      (λ i, bool_decide (customerId i = cid)
            && bool_decide (periodStart i = pStart)
            && bool_decide (periodEnd i = pEnd))
      (invoices db)))).

(** [invoice.findFirst({ where: { invoiceNumber: { startsWith } },
      orderBy: { invoiceNumber: 'desc' } })]: strings compare byte-wise;
    the first row wins among equal numbers. *)
Definition latestInvoiceWithPrefix (pre : string) (db : DB) : option Invoice :=
  foldl (λ best i,
           if String.prefix pre (invoiceNumber i) then
             match best with
             | Some b =>
                 if String.ltb (invoiceNumber b) (invoiceNumber i) then Some i else best
             | None => Some i
             end
           else best)
        None (invoices db).

Definition generateInvoiceNumber (tz now : Z) : M DB string :=
  let year := pretty (JsDate.getFullYear tz now) in
  let month := padStart0 2 (pretty (JsDate.getMonth tz now + 1)) in
  let pre := "INV-" +:+ year +:+ "-" +:+ month +:+ "-" in
  let! latestInvoice := query (latestInvoiceWithPrefix pre) in
  let sequence :=
    match latestInvoice with
    | Some inv =>
        let parts := split_dash (invoiceNumber inv) in
        (λ n, n + 1) <$> parseInt (parts !! 3%nat)
    | None => Some 1
    end in
  ret (pre +:+ padStart0 3 (String_of_number sequence)).

(** [invoice.create]: draws the next id (a draw is not given back when the
    insert is rejected), checks the primary key, the unique invoice number
    and the customer reference, and appends the row.  [stripeInvoiceId]
    and [paidAt] start out [NULL]; [createdAt] is the insertion instant. *)
Definition invoice_create (now : Z) (number : string) (cid pStart pEnd usage amt : Z)
    (st : InvoiceStatus) (due : Z) : M DB Invoice :=
  λ db,
    let newId := invoice_id_seq db in
    let db1 := with_invoices db (invoices db) (newId + 1) in
    if bool_decide (is_Some (findInvoice db newId)) then
      (db1, inl (PrismaUniqueConstraint "id"))
    else if bool_decide (is_Some (List.find
              (λ i, bool_decide (invoiceNumber i = number)) (invoices db))) then
      (db1, inl (PrismaUniqueConstraint "invoiceNumber"))
    else if bool_decide (findCustomer db cid = None) then
      (db1, inl (PrismaForeignKey "customerId"))
    else
      let row := mkInvoice newId number cid pStart pEnd usage amt st due
                           None None now in
      (with_invoices db (invoices db ++ [row]) (newId + 1), inr row).

(** Rows of one [createMany], numbered from [seq]. *)
Fixpoint number_lineItems (now iid seq : Z) (items : list CreateLineItemDto)
    : list InvoiceLineItem :=
  match items with
  | [] => []
  | it :: rest =>
      mkInvoiceLineItem seq iid (cl_description it) (cl_quantity it)
                        (cl_unitPrice it) (cl_amount it) now
      :: number_lineItems now iid (seq + 1) rest
  end.

(** [invoiceLineItem.createMany]: all rows or none. *)
Definition invoiceLineItem_createMany (now iid : Z) (items : list CreateLineItemDto)
    : M DB unit :=
  λ db,
    let seq := lineItem_id_seq db in
    let seq' := seq + Z.of_nat (length items) in
    let rows := number_lineItems now iid seq items in
    if bool_decide (findInvoice db iid = None) then
      (with_lineItems db (lineItems db) seq', inl (PrismaForeignKey "invoiceId"))
    else if bool_decide (Exists (λ r, Exists (λ l, li_id l = li_id r) (lineItems db)) rows) then
      (with_lineItems db (lineItems db) seq', inl (PrismaUniqueConstraint "id"))
    else
      (with_lineItems db (lineItems db ++ rows) seq', inr tt).

Definition createInvoiceLineItems (tz now : Z) (iid cid pStart pEnd : Z) : M DB unit :=
  let! customer := attempt (customer_with_tier cid) in
  match customer with
  | None => throw (NotFoundException "Customer not found")
  | Some (c, tier) =>
      let! usage := calculateUsageForPeriod cid pStart pEnd in
      let lineItems :=
        [ mkCreateLineItemDto
            (tier_name tier +:+ " Plan - " +:+ monthYear tz pStart)
            1 (price tier) (price tier);
          mkCreateLineItemDto
            ("API Calls: " +:+ toLocaleString (Billing.usage usage) +:+ " requests")
            (Billing.usage usage) 0 0 ] in
      invoiceLineItem_createMany now iid lineItems
  end.

Definition lineItem_response (item : InvoiceLineItem) : InvoiceLineItemResponseDto :=
  mkInvoiceLineItemResponseDto (li_id item) (description item) (quantity item)
    (unitPrice item) (li_amount item) (li_createdAt item).

(** [invoice.findUnique({ where: { id }, include: { lineItems: true,
      customer: true } })] and the mapping to the response. *)
Definition getInvoiceById (iid : Z) : M DB InvoiceResponseDto :=
  attempt (λ db,
    match findInvoice db iid with
    | None => inl (NotFoundException "Invoice not found")
    | Some invoice =>
        match findCustomer db (customerId invoice) with
        | None => inl (Error "Inconsistent query result: customer is required")
        | Some customer =>
            inr (mkInvoiceResponseDto
                   (id invoice) (invoiceNumber invoice) (customerId invoice)
                   (cust_name customer) (cust_email customer)
                   (periodStart invoice) (periodEnd invoice)
                   (totalUsage invoice) (amount invoice) (status invoice)
                   (dueDate invoice) (paidAt invoice) (stripeInvoiceId invoice)
                   (createdAt invoice)
                   (lineItem_response <$>
                      List.filter (λ l, bool_decide (invoiceId l = iid))
                                  (lineItems db)))
        end
    end).

Definition generateInvoice (tz now : Z) (createInvoiceDto : CreateInvoiceDto)
    : M DB InvoiceResponseDto :=
  let cid := dto_customerId createInvoiceDto in
  let pStart := dto_periodStart createInvoiceDto in
  let pEnd := dto_periodEnd createInvoiceDto in
  let! existingInvoice := checkForDuplicateInvoice cid pStart pEnd in
  if (existingInvoice : bool) then
    throw (BadRequestException "Invoice already exists for customer for period")
  else
    let! customer := attempt (customer_with_tier cid) in
    match customer with
    | None => throw (NotFoundException "Customer not found")
    | Some (c, tier) =>
        let! usage := calculateUsageForPeriod cid pStart pEnd in
        let! number := generateInvoiceNumber tz now in
        let due := JsDate.setDate tz now (JsDate.getDate tz now + 7) in
        let! invoice :=
          invoice_create now number cid pStart pEnd (Billing.usage usage)
                         (price tier) PENDING due in
        createInvoiceLineItems tz now (id invoice) cid pStart pEnd ;;
        getInvoiceById (id invoice)
    end.

(** The row after [data: { status, paidAt, stripeInvoiceId }] is written
    to it. *)
Definition patch_invoice (dto : UpdateInvoiceStatusDto) (i : Invoice) : Invoice :=
  mkInvoice (id i) (invoiceNumber i) (customerId i)
    (periodStart i) (periodEnd i) (totalUsage i) (amount i)
    (upd_status dto) (dueDate i)
    (apply_patch (upd_paidAt dto) (paidAt i))
    (apply_patch (upd_stripeInvoiceId dto) (stripeInvoiceId i))
    (createdAt i).

(** The update reaches the rows whose id is [iid]. *)
Definition patched (iid : Z) (dto : UpdateInvoiceStatusDto) (i : Invoice) : Invoice :=
  if bool_decide (id i = iid) then patch_invoice dto i else i.

(** [invoice.update({ where: { id }, data: { status, paidAt,
      stripeInvoiceId } })]; [stripeInvoiceId] is unique among the rows
    that have one. *)
Definition invoice_update (iid : Z) (dto : UpdateInvoiceStatusDto) : M DB unit :=
  λ db,
    let clash :=
      match upd_stripeInvoiceId dto with
      | Value s =>
          bool_decide (is_Some (List.find
            (λ i, negb (bool_decide (id i = iid))
                  && bool_decide (stripeInvoiceId i = Some s))
            (invoices db)))
      | _ => false
      end in
    if clash then (db, inl (PrismaUniqueConstraint "stripeInvoiceId"))
    else
      (with_invoices db (patched iid dto <$> invoices db) (invoice_id_seq db),
       inr tt).

Definition updateInvoiceStatus (iid : Z) (updateDto : UpdateInvoiceStatusDto)
    : M DB InvoiceResponseDto :=
  let! invoice := query (λ db, findInvoice db iid) in
  match invoice with
  | None => throw (NotFoundException "Invoice not found")
  | Some _ =>
      invoice_update iid updateDto ;;
      getInvoiceById iid
  end.

(** [paidAt || new Date()]: a [Date] object is always truthy. *)
Definition markInvoiceAsPaid (now : Z) (iid : Z) (paidAtArg : option Z)
    : M DB InvoiceResponseDto :=
  updateInvoiceStatus iid
    (mkUpdateInvoiceStatusDto PAID (Value (default now paidAtArg)) Undefined).

Definition is_overdue (now : Z) (i : Invoice) : bool :=
  bool_decide (status i = PENDING) && (dueDate i <? now).

Definition set_overdue (i : Invoice) : Invoice :=
  mkInvoice (id i) (invoiceNumber i) (customerId i)
    (periodStart i) (periodEnd i) (totalUsage i) (amount i)
    OVERDUE (dueDate i) (paidAt i) (stripeInvoiceId i) (createdAt i).

Definition swept (now : Z) (i : Invoice) : Invoice :=
  if is_overdue now i then set_overdue i else i.

(** [invoice.updateMany({ where: { status: PENDING, dueDate: { lt: now } },
      data: { status: OVERDUE } })], returning the number of rows. *)
Definition markOverdueInvoices (now : Z) : M DB Z :=
  λ db,
    (with_invoices db (swept now <$> invoices db) (invoice_id_seq db),
     inr (Z.of_nat (length (List.filter (is_overdue now) (invoices db))))).

(** ** The invoice engine as a sequence of operations *)

Inductive Op : Type :=
  | OpGenerateInvoice (tz now : Z) (dto : CreateInvoiceDto)
  | OpUpdateInvoiceStatus (iid : Z) (dto : UpdateInvoiceStatusDto)
  | OpMarkInvoiceAsPaid (now iid : Z) (paidAtArg : option Z)
  | OpMarkOverdueInvoices (now : Z).

(** The store an operation leaves behind, whether it returns or throws. *)
Definition run_op (op : Op) (db : DB) : DB :=
  match op with
  | OpGenerateInvoice tz now dto => (generateInvoice tz now dto db).1
  | OpUpdateInvoiceStatus iid dto => (updateInvoiceStatus iid dto db).1
  | OpMarkInvoiceAsPaid now iid arg => (markInvoiceAsPaid now iid arg db).1
  | OpMarkOverdueInvoices now => (markOverdueInvoices now db).1
  end.

Definition run_ops (ops : list Op) (db : DB) : DB :=
  foldl (λ d op, run_op op d) db ops.

(** [status = PAID] implies [paidAt] is not [NULL], on every invoice. *)
Definition paid_has_paidAt (db : DB) : Prop :=
  ∀ i, i ∈ invoices db → status i = PAID → paidAt i ≠ None.

(** An [updateInvoiceStatus] that sets [PAID] carries a [paidAt] value. *)
Definition supplies_paidAt (op : Op) : Prop :=
  match op with
  | OpUpdateInvoiceStatus _ dto =>
      upd_status dto = PAID → ∃ t, upd_paidAt dto = Value t
  | _ => True
  end.

(** Every line item belongs to an invoice of the store (the foreign key
    [InvoiceLineItem_invoiceId_fkey]). *)
Definition lineItems_fk (db : DB) : Prop :=
  ∀ l, l ∈ lineItems db → is_Some (findInvoice db (invoiceId l)).

End Billing.

(* ===================================================================== *)
(** * The month arithmetic of the specification, for comparison *)
(* ===================================================================== *)

Module BillingSpec.

(** One calendar month later, the day of month clamped to the last day of
    a shorter target month: the rule as the specification words it. *)
Definition spec_addMonthClamped (tz t : Z) : Z :=
  let l := JsDate.LocalTime tz t in
  let '(y, m, d) := JsDate.civil_from_days (JsDate.Day l) in
  let y1 := if m =? 12 then y + 1 else y in
  let m1 := if m =? 12 then 1 else m + 1 in
  let y2 := if m1 =? 12 then y1 + 1 else y1 in
  let m2 := if m1 =? 12 then 1 else m1 + 1 in
  let len := JsDate.days_from_civil y2 m2 1 - JsDate.days_from_civil y1 m1 1 in
  JsDate.UTC tz (JsDate.MakeDate (JsDate.days_from_civil y1 m1 (Z.min d len))
                                 (JsDate.TimeWithinDay l)).

(** The window of the specification: start at [periodStart], add clamped
    months until [periodStart <= now < periodEnd]. *)
Fixpoint spec_window (tz now : Z) (fuel : nat) (periodStart : Z) : option (Z * Z) :=
  match fuel with
  | O => None
  | S fuel' =>
      let periodEnd := spec_addMonthClamped tz periodStart in
      if (periodStart <=? now) && (now <? periodEnd) then Some (periodStart, periodEnd)
      else spec_window tz now fuel' periodEnd
  end.

End BillingSpec.

(* ===================================================================== *)
(** * Concrete stores and requests used below *)
(* ===================================================================== *)

Module Scenarios.
Import Billing.

Definition req_jsonplaceholder : Proxy.Request :=
  Proxy.mkRequest "/api/get" "GET" [("x-api-key", "k1"); ("accept", "*/*")] None
    (Proxy.mkDeveloper 2 "Demo Developer 2" "https://jsonplaceholder.typicode.com")
    (Proxy.mkCustomer 5 "c@example.com" "Pro").


(** One Pro customer created on 2024-01-15 with three usage records, two
    of them inside [2024-01-15, 2024-02-15). *)
Definition db_fresh : DB :=
  mkDB [mkTier 1 "Pro" 9999 10000]
       [mkCustomer 1 "Test Customer" "test@example.com" 1 true (JsDate.utc 2024 1 15 0 0)]
       [mkUsageHistory 1 1 "/get" "GET" 200 12 (JsDate.utc 2024 1 20 0 0);
        mkUsageHistory 2 1 "/get" "GET" 200 12 (JsDate.utc 2024 2 15 0 0);
        mkUsageHistory 3 1 "/get" "GET" 200 12 (JsDate.utc 2024 1 15 0 0)]
       [] [] 1 1.

Definition dto_jan15 : CreateInvoiceDto :=
  mkCreateInvoiceDto 1 (JsDate.utc 2024 1 15 0 0) (JsDate.utc 2024 2 15 0 0).

Definition now_feb10 : Z := JsDate.utc 2024 2 10 10 0.

(** [db_fresh] after [generateInvoice] for the first period. *)
Definition db_invoiced : DB := (generateInvoice 0 now_feb10 dto_jan15 db_fresh).1.

(** A customer created on the 31st, as in the month-end test of the
    billing service. *)
Definition db_31st : DB :=
  mkDB [mkTier 1 "Pro" 9999 10000]
       [mkCustomer 1 "Test Customer" "test@example.com" 1 true (JsDate.utc 2024 1 31 0 0)]
       [] [] [] 1 1.

End Scenarios.

(* ===================================================================== *)
(** * Gateway: requests served one after the other *)
(* ===================================================================== *)

Module RateLimitRun.
Import RateLimit.

(** [checkAndIncrement] called for one customer at each instant of
    [times], in order; the decisions and the store left behind. *)
Fixpoint serve (tz : Z) (customerId : string) (limit : Z) (times : list Z)
    (r : gmap string UsageMap) : list Decision * gmap string UsageMap :=
  match times with
  | [] => ([], r)
  | now :: rest =>
      let '(r1, d) := checkAndIncrement tz now customerId limit r in
      let '(ds, r2) := serve tz customerId limit rest r1 in
      (d :: ds, r2)
  end.

(** The decision on the [i]-th request of a window (counting from 0) that
    opened with a reset: admitted while [i < quota]; the reported
    [remaining] is the quota minus the count found, not the count left. *)
Definition nth_decision (quota midnight : Z) (i : nat) : Decision :=
  if bool_decide (Z.of_nat i < quota) then
    mkDecision true (Some (quota - Z.of_nat i)) (StoredResetAt (Some midnight))
  else mkDecision false (Some 0) (StoredResetAt (Some midnight)).

End RateLimitRun.

(* ===================================================================== *)
(** * Gateway: reading the usage buffer, and the interceptor that fills it *)
(* ===================================================================== *)

Module UsageBuffer.
Import UsageTracking.

(** [LRANGE key start stop] with [0 <= start <= stop]; an absent key is the
    empty list. *)
Definition lrange (key : string) (start stop : Z) : M World (list string) :=
  command (λ l, (l, take (Z.to_nat (stop - start + 1))
                         (drop (Z.to_nat start) (default [] (l !! key))))).

(** [LTRIM key start -1] with [0 <= start]: drops the first [start]
    elements; a list left empty is a key removed. *)
Definition ltrim_from (key : string) (start : Z) : M World string :=
  command (λ l, match l !! key with
                | Some xs =>
                    let ys := drop (Z.to_nat start) xs in
                    (if decide (ys = []) then delete key l else <[key := ys]> l, "OK")
                | None => (l, "OK")
                end).

(** [logs.map(log => JSON.parse(log))]: the first entry that does not
    parse throws. *)
Fixpoint parse_all {A} (parse : string → option A) (logs : list string)
    : Exn + list A :=
  match logs with
  | [] => inr []
  | s :: rest =>
      match parse s with
      | None => inl (Error "SyntaxError")
      | Some a =>
          match parse_all parse rest with
          | inl e => inl e
          | inr l => inr (a :: l)
          end
      end
  end.

Section History.
(** [JSON.parse] on a buffered entry; [None] when it throws. *)
Variable JSON_parse : string → option UsageLog.

Definition getCustomerApiHistory (customerId : string) : M World (list UsageLog) :=
  try_catch
    (let key := "usage:logs:" +:+ customerId in
     let! logs := lrange key 0 99 in
     λ w, (w, parse_all JSON_parse logs))
    (λ error, console_error "Failed to get customer usage logs:" error ;; ret []).
End History.

(** What [UsageTrackingInterceptor.intercept] reads besides the request:
    the id of the resolved key, the status code of the response and the
    two readings of [Date.now()].  The [new Date()] of the record's
    [timestamp] is taken at the second reading. *)
Record Observed : Type := mkObserved {
  obs_apiKeyId : Z;
  obs_statusCode : Z;
  obs_startTime : Z;
  obs_endTime : Z
}.

(** [request.headers['x-api-key']]. *)
Definition header (name : string) (hs : list (string * string)) : option string :=
  snd <$> List.find (λ kv, bool_decide (kv.1 = name)) hs.

Definition usage_of (req : Proxy.Request) (o : Observed) : UsageLog :=
  mkUsageLog (pretty (Proxy.cust_id (Proxy.customer req)))
             (default EmptyString (header "x-api-key" (Proxy.headers req)))
             (obs_apiKeyId o) (Proxy.url req) (Proxy.method req)
             (pretty (obs_statusCode o))
             (obs_endTime o - obs_startTime o) (obs_endTime o).

Section Intercept.
Variable JSON_stringify : UsageLog → string.

(** [next.handle().pipe(tap(() => ...))]: the callback of [tap] runs when
    the handler delivers a value and not when it throws. *)
Definition intercept (req : Proxy.Request) (o : Observed)
    (handled : Proxy.ProxyResult) (w : World) : World * Proxy.ProxyResult :=
  match handled with
  | Proxy.Returned data =>
      ((addUsageLog JSON_stringify (usage_of req o) w).1, handled)
  | Proxy.ThrewHttp _ _ => (w, handled)
  end.
End Intercept.

End UsageBuffer.

(* ===================================================================== *)
(** * Gateway: draining the usage buffer into the relational store *)
(* ===================================================================== *)

Module Drain.
Import UsageTracking UsageBuffer.

(** A row of [UsageHistory] with all its columns. *)
Record UsageRow : Type := mkUsageRow {
  row_id : Z;
  row_customerId : Z;
  row_apiKeyId : option Z;
  row_endpoint : string;
  row_method : string;
  row_statusCode : Z;
  row_responseTime : Z;
  row_timestamp : Z
}.

(** The row as the billing side reads it. *)
Definition billing_view (r : UsageRow) : Billing.UsageHistory :=
  Billing.mkUsageHistory (row_id r) (row_customerId r) (row_endpoint r)
    (row_method r) (row_statusCode r) (row_responseTime r) (row_timestamp r).

(** An entry of the buffer after [JSON.parse] and the conversions of the
    [map] callback: [parseInt] may give [NaN] and [new Date] an invalid
    date, both [None]. *)
Record UsageData : Type := mkUsageData {
  ud_customerId : Z;
  ud_endpoint : string;
  ud_apiKeyId : option Z;
  ud_method : string;
  ud_statusCode : option Z;
  ud_responseTime : option Z;
  ud_timestamp : option Z
}.

(** The buffer, the [UsageHistory] table with its [SERIAL] sequence, the
    ids of the customers a row may reference, whether the relational store
    is out of reach, and the success lines of the job. *)
Record World : Type := mkWorld {
  buffer : UsageTracking.World;
  rows : list UsageRow;
  usage_id_seq : Z;
  customerIds : list Z;
  dbDown : bool;
  flushed : list Z
}.

Definition with_buffer (w : World) (b : UsageTracking.World) : World :=
  mkWorld b (rows w) (usage_id_seq w) (customerIds w) (dbDown w) (flushed w).

(** A buffer operation run inside the job. *)
Definition on_buffer {A} (m : M UsageTracking.World A) : M World A :=
  λ w, let '(b, a) := m (buffer w) in (with_buffer w b, a).

(** The range of an [INTEGER] column, which is that of Prisma's [Int]. *)
Definition int4 (n : Z) : bool := (-2147483648 <=? n) && (n <=? 2147483647).

(** A [TEXT] column takes every string that holds no character of code 0. *)
Fixpoint text_ok (s : string) : bool :=
  match s with
  | EmptyString => true
  | String a rest => negb (Ascii.eqb a Ascii.zero) && text_ok rest
  end.

(** [console.log(`Successfully flushed ${result.count} ...`)]. *)
Definition log_flushed (count : Z) : M World unit :=
  λ w, (mkWorld (buffer w) (rows w) (usage_id_seq w) (customerIds w) (dbDown w)
                (flushed w ++ [count]), inr tt).

(** The rows of one insert, numbered from [seq]. *)
Fixpoint number_rows (seq : Z) (data : list UsageData) : list UsageRow :=
  match data with
  | [] => []
  | d :: rest =>
      mkUsageRow seq (ud_customerId d) (ud_apiKeyId d) (ud_endpoint d)
                 (ud_method d) (default 0 (ud_statusCode d))
                 (default 0 (ud_responseTime d)) (default 0 (ud_timestamp d))
      :: number_rows (seq + 1) rest
  end.

Section Store.
(** The instants that the query engine and the [TIMESTAMP(3)] column take
    among the time values of a [Date]; which these are is left open. *)
Variable takes_instant : Z → bool.

(** The values of a row as the insert takes them: numbers that are not
    [NaN] and fit their [INTEGER] column, a date that is valid and taken,
    text without the character of code 0.  A row that fails here is
    refused before the statement runs. *)
Definition storable (d : UsageData) : bool :=
  int4 (ud_customerId d)
  && match ud_apiKeyId d with Some k => int4 k | None => true end
  && match ud_statusCode d with Some n => int4 n | None => false end
  && match ud_responseTime d with Some n => int4 n | None => false end
  && match ud_timestamp d with Some t => takes_instant t | None => false end
  && text_ok (ud_endpoint d)
  && text_ok (ud_method d).

(** A row the insert accepts: storable values and a customer that exists
    ([UsageHistory_customerId_fkey]). *)
Definition valid_data (customers : list Z) (d : UsageData) : bool :=
  storable d && bool_decide (ud_customerId d ∈ customers).

(** [usageHistory.createMany({ data, skipDuplicates: true })]: one
    statement, all rows or none; the only unique column is the id the
    store assigns, so nothing is ever skipped.  Returns the number of rows
    written.  A store that cannot be reached and a row that is not
    storable leave everything as it is.  A row whose customer does not
    exist is found when the statement ends, after every row has drawn its
    id: nothing is written and the ids are not given back. *)
Definition usageHistory_createMany (data : list UsageData) : M World Z :=
  λ w,
    if dbDown w then (w, inl (Error "PrismaClientKnownRequestError"))
    else if forallb (valid_data (customerIds w)) data then
      (mkWorld (buffer w) (rows w ++ number_rows (usage_id_seq w) data)
               (usage_id_seq w + Z.of_nat (length data)) (customerIds w)
               (dbDown w) (flushed w),
       inr (Z.of_nat (length data)))
    else if forallb storable data then
      (mkWorld (buffer w) (rows w) (usage_id_seq w + Z.of_nat (length data))
               (customerIds w) (dbDown w) (flushed w),
       inl (PrismaForeignKey "customerId"))
    else (w, inl (Error "PrismaClientValidationError")).

Section Job.
(** [JSON.parse] on an entry followed by the field conversions of the
    [map] callback; [None] when [JSON.parse] throws. *)
Variable parse_usage : string → option UsageData.

Definition flushToDb : M World unit :=
  try_catch
    (let! lastUsages := on_buffer (lrange "usage:logs:all" 0 99) in
     if decide (lastUsages = []) then ret tt
     else
       let! usageData := (λ w, (w, parse_all parse_usage lastUsages)) in
       let! count := usageHistory_createMany usageData in
       on_buffer (ltrim_from "usage:logs:all" (Z.of_nat (length lastUsages))) ;;
       log_flushed count)
    (λ error,
       on_buffer (console_error "An error occured while writing data into database"
                                error)).
End Job.
End Store.

End Drain.

(* ===================================================================== *)
(** * Gateway: resolving an API key *)
(* ===================================================================== *)

Module KeyResolver.

Record ApiKeyRow : Type := mkApiKeyRow {
  ak_id : Z;
  ak_key : string;
  ak_customerId : Z;
  ak_isActive : bool;
  ak_expiresAt : option Z
}.

Record CustomerRow : Type := mkCustomerRow {
  cr_id : Z;
  cr_email : string;
  cr_isActive : bool;
  cr_tierId : Z;
  cr_developerId : Z
}.

(** The catalog tables [findByApiKey] joins; the resolver only reads
    them. *)
Record Catalog : Type := mkCatalog {
  apiKeys : list ApiKeyRow;
  customerRows : list CustomerRow;
  tierRows : list Billing.Tier;
  developerRows : list Proxy.Developer
}.

(** The value [findByApiKey] returns and caches ([ApiKeyData]). *)
Record ApiKeyData : Type := mkApiKeyData {
  kd_customerId : Z;
  kd_email : string;
  kd_tier : Billing.Tier;
  kd_rateLimit : Z;
  kd_developer : Proxy.Developer;
  kd_keyId : Z;
  kd_keyActive : bool;
  kd_expiresAt : option Z
}.

(** The string keys of Redis with the instant each one expires at, and the
    fate of the commands to come ([true]: rejected). *)
Record Cache : Type := mkCache {
  entries : gmap string (string * Z);
  cfaults : list bool
}.

Definition redis_command {A} (op : gmap string (string * Z) → gmap string (string * Z) * A)
    : M Cache A :=
  λ c, match cfaults c with
       | true :: fs => (mkCache (entries c) fs, inl RedisError)
       | false :: fs => let '(e, a) := op (entries c) in (mkCache e fs, inr a)
       | [] => let '(e, a) := op (entries c) in (mkCache e [], inr a)
       end.

(** [GET key] at [now]: an entry is gone once its time to live is over. *)
Definition redis_get (now : Z) (key : string) : M Cache (option string) :=
  redis_command (λ e, (e, match e !! key with
                          | Some (v, expiry) => if now <? expiry then Some v else None
                          | None => None
                          end)).

(** [SETEX key seconds value] at [now]. *)
Definition redis_setex (now : Z) (key : string) (seconds : Z) (value : string)
    : M Cache unit :=
  redis_command (λ e, (<[key := (value, now + seconds * 1000)]> e, tt)).

(** [apiKey.findFirst({ where: { key }, include: { customer: { include:
      { developer: true, tier: true } } } })]; the three relations are
    required. *)
Definition apiKey_findFirst (cat : Catalog) (apiKey : string)
    : Exn + option (ApiKeyRow * CustomerRow * Billing.Tier * Proxy.Developer) :=
  match List.find (λ k, bool_decide (ak_key k = apiKey)) (apiKeys cat) with
  | None => inr None
  | Some k =>
      match List.find (λ c, bool_decide (cr_id c = ak_customerId k)) (customerRows cat) with
      | None => inl (Error "Inconsistent query result: customer is required")
      | Some c =>
          match List.find (λ t, bool_decide (Billing.tier_id t = cr_tierId c)) (tierRows cat),
                List.find (λ d, bool_decide (Proxy.dev_id d = cr_developerId c))
                          (developerRows cat) with
          | Some t, Some d => inr (Some (k, c, t, d))
          | _, _ => inl (Error "Inconsistent query result: relation is required")
          end
      end
  end.

Section Resolver.
Variable JSON_stringify : ApiKeyData → string.
(** [JSON.parse] on a cached value; [None] when it throws.  The cache is
    written by [findByApiKey] alone, so a value that parses is taken to
    parse to an object of the shape it writes. *)
Variable JSON_parse : string → option ApiKeyData.
Variable cat : Catalog.
Variable now : Z.

(** The [try] block of [findByApiKey]: a hit returns from the function,
    anything else (a miss, an empty value, a Redis error, a value that does
    not parse) goes on to the catalog. *)
Definition cache_lookup (redisCacheKey : string) : M Cache (option ApiKeyData) :=
  try_catch
    (let! cachedData := redis_get now redisCacheKey in
     match cachedData with
     | Some s =>
         if decide (s = EmptyString) then ret None
         else match JSON_parse s with
              | Some d => ret (Some d)
              | None => throw (Error "SyntaxError")
              end
     | None => ret None
     end)
    (λ _, ret None).

Definition findByApiKey (apiKey : string) : M Cache (option ApiKeyData) :=
  let redisCacheKey := "customer:apiKey:" +:+ apiKey in
  let! hit := cache_lookup redisCacheKey in
  match hit with
  | Some d => ret (Some d)
  | None =>
      let! apiKeyData := (λ c, (c, apiKey_findFirst cat apiKey)) in
      match apiKeyData with
      | None => ret None
      | Some (k, c, t, d) =>
          if negb (ak_isActive k) then ret None
          else if match ak_expiresAt k with Some e => e <? now | None => false end
          then ret None
          else if negb (cr_isActive c) then ret None
          else
            let data := mkApiKeyData (cr_id c) (cr_email c) t (Billing.rateLimit t)
                                     d (ak_id k) (ak_isActive k) (ak_expiresAt k) in
            redis_setex now redisCacheKey 300 (JSON_stringify data) ;;
            ret (Some data)
      end
  end.
End Resolver.

End KeyResolver.

(* ===================================================================== *)
(** * Gateway: the limiter over a Redis that can reject commands *)
(* ===================================================================== *)

Module RateLimitIO.

(** The hashes of the limiter with the fate of the commands to come
    ([true]: rejected). *)
Record RateStore : Type := mkRateStore {
  hashes : gmap string RateLimit.UsageMap;
  rfaults : list bool
}.

Definition rate_command {A}
    (op : gmap string RateLimit.UsageMap → gmap string RateLimit.UsageMap * A)
    : M RateStore A :=
  λ s, match rfaults s with
       | true :: fs => (mkRateStore (hashes s) fs, inl RedisError)
       | false :: fs => let '(r, a) := op (hashes s) in (mkRateStore r fs, inr a)
       | [] => let '(r, a) := op (hashes s) in (mkRateStore r [], inr a)
       end.

(** [redisService.hgetAll(key)]; [None] is the empty object of a key that
    is not there. *)
Definition hgetAll (key : string) : M RateStore (option RateLimit.UsageMap) :=
  rate_command (λ r, (r, r !! key)).

(** [redisService.hset(key, 'count', v)] and [hset(key, 'resetAt', v)]. *)
Definition hset_count (key : string) (v : option Z) : M RateStore unit :=
  rate_command (λ r, (RateLimit.hset_count key v r, tt)).

Definition hset_resetAt (key : string) (v : option Z) : M RateStore unit :=
  rate_command (λ r, (RateLimit.hset_resetAt key v r, tt)).

(** The two reset paths of [checkAndIncrement], command by command. *)
Definition resetWindow (tz now : Z) (key : string) (limit : Z)
    : M RateStore RateLimit.Decision :=
  let resetAt := JsDate.setHours24 tz now in
  hset_count key (Some 1) ;;
  hset_resetAt key (Some resetAt) ;;
  ret (RateLimit.mkDecision true (Some (limit - 1)) (RateLimit.DateString resetAt)).

(** [RateLimitService.checkAndIncrement] with Redis commands that can be
    rejected: the method has no [try], so a rejected command is thrown to
    the caller, after the commands before it have taken effect.  With every
    command accepted it is [RateLimit.checkAndIncrement]. *)
Definition checkAndIncrement (tz now : Z) (customerId : string) (limit : Z)
    : M RateStore RateLimit.Decision :=
  let key := RateLimit.rateKey customerId in
  let! userUsage := hgetAll key in
  match userUsage with
  | None => resetWindow tz now key limit
  | Some userUsage =>
      if RateLimit.date_lt (RateLimit.resetAt userUsage) now then
        resetWindow tz now key limit
      else
        let usageCount := RateLimit.count userUsage in
        if RateLimit.num_ge usageCount limit then
          ret (RateLimit.mkDecision false (Some 0)
                 (RateLimit.StoredResetAt (RateLimit.resetAt userUsage)))
        else
          hset_count key ((λ c, c + 1) <$> usageCount) ;;
          ret (RateLimit.mkDecision true ((λ c, limit - c) <$> usageCount)
                 (RateLimit.StoredResetAt (RateLimit.resetAt userUsage)))
  end.

End RateLimitIO.

(* ===================================================================== *)
(** * Gateway: a request from the middleware to the usage buffer *)
(* ===================================================================== *)

Module Gateway.
Import KeyResolver.

(** The three [X-RateLimit-*] response headers.  [hdr_reset] is the
    [resetAt] of the limiter's decision as it stands. *)
Record RateHeaders : Type := mkRateHeaders {
  hdr_limit : Z;
  hdr_remaining : option Z;
  hdr_reset : RateLimit.ResetAtOut
}.

(** How [ApiKeyMiddleware.use] ends. *)
Inductive Passed : Type :=
  | Unauthorized (msg : string)
  | TooManyRequests (h : RateHeaders)
  | Next (data : ApiKeyData) (h : RateHeaders)
  | Failed (e : Exn).

(** The stores a request can touch; [rate_faults] is the fate of the
    limiter's commands to come. *)
Record World : Type := mkWorld {
  cache : Cache;
  rates : gmap string RateLimit.UsageMap;
  rate_faults : list bool;
  usage : UsageTracking.World
}.

(** What arrives from the client. *)
Record Incoming : Type := mkIncoming {
  in_url : string;
  in_method : string;
  in_headers : list (string * string);
  in_body : option string
}.

Section Pipeline.
Variable ctx_stringify : ApiKeyData → string.
Variable ctx_parse : string → option ApiKeyData.
Variable usage_stringify : UsageTracking.UsageLog → string.
Variable cat : Catalog.
Variable configTargetUrl : option string.
Variable httpService : Proxy.HttpCall → Proxy.HttpOutcome.
Variable tz : Z.

Definition use (now : Z) (req : Incoming) (w : World) : World * Passed :=
  match UsageBuffer.header "x-api-key" (in_headers req) with
  | None => (w, Unauthorized "Missing API key")
  | Some apiKey =>
      if decide (apiKey = EmptyString) then (w, Unauthorized "Missing API key")
      else
        match findByApiKey ctx_stringify ctx_parse cat now apiKey (cache w) with
        | (c, inl e) => (mkWorld c (rates w) (rate_faults w) (usage w), Failed e)
        | (c, inr None) =>
            (mkWorld c (rates w) (rate_faults w) (usage w),
             Unauthorized "Invalid API key")
        | (c, inr (Some data)) =>
            let limit := Billing.rateLimit (kd_tier data) in
            match RateLimitIO.checkAndIncrement tz now (pretty (kd_customerId data))
                    limit (RateLimitIO.mkRateStore (rates w) (rate_faults w)) with
            | (s, inl e) =>
                (mkWorld c (RateLimitIO.hashes s) (RateLimitIO.rfaults s) (usage w),
                 Failed e)
            | (s, inr d) =>
                let h := mkRateHeaders limit (RateLimit.remaining d)
                                       (RateLimit.resetAtOut d) in
                (mkWorld c (RateLimitIO.hashes s) (RateLimitIO.rfaults s) (usage w),
                 if RateLimit.allowed d then Next data h else TooManyRequests h)
            end
        end
  end.

(** What the client gets back, with the upstream calls made on the way. *)
Inductive Outcome : Type :=
  | Rejected (status : Z) (msg : string) (h : option RateHeaders)
  | Answered (h : RateHeaders) (result : Proxy.ProxyResult)
  | Crashed (e : Exn).

(** One request through the middleware, the proxy controller and the usage
    interceptor around it; [statusCode] is the status of the response when
    the handler returns, [startTime] and [endTime] the two clock readings
    of the interceptor. *)
Definition serve (now statusCode startTime endTime : Z) (req : Incoming) (w : World)
    : World * list Proxy.HttpCall * Outcome :=
  match use now req w with
  | (w1, Unauthorized msg) => (w1, [], Rejected 401 msg None)
  | (w1, TooManyRequests h) => (w1, [], Rejected 429 "Rate limit exceeded" (Some h))
  | (w1, Failed e) => (w1, [], Crashed e)
  | (w1, Next data h) =>
      let request :=
        Proxy.mkRequest (in_url req) (in_method req) (in_headers req) (in_body req)
          (kd_developer data)
          (Proxy.mkCustomer (kd_customerId data) (kd_email data)
                            (Billing.tier_name (kd_tier data))) in
      let '(calls, result) := Proxy.forwardRequests configTargetUrl httpService request in
      let '(u, result') :=
        UsageBuffer.intercept usage_stringify request
          (UsageBuffer.mkObserved (kd_keyId data) statusCode startTime endTime)
          result (usage w1) in
      (mkWorld (cache w1) (rates w1) (rate_faults w1) u, calls, Answered h result')
  end.
End Pipeline.

End Gateway.

(* ===================================================================== *)
(** * Billing: summaries and the scheduled jobs *)
(* ===================================================================== *)

Module InvoiceJobs.
Import Billing.

Record InvoiceSummaryDto : Type := mkInvoiceSummaryDto {
  totalInvoices : Z;
  totalAmount : Z;
  paidAmount : Z;
  pendingAmount : Z;
  overdueAmount : Z
}.

Definition sum_amount (l : list Invoice) : Z := foldr (λ i acc, amount i + acc) 0 l.

(** [customerId ? { customerId } : {}]: no id, or the id 0, selects every
    invoice. *)
Definition summary_scope (customerId : option Z) (i : Invoice) : bool :=
  match customerId with
  | Some c => if bool_decide (c = 0) then true else bool_decide (Billing.customerId i = c)
  | None => true
  end.

(** The four aggregates; a sum over no rows is [null] and reads as 0. *)
Definition getInvoiceSummary (now : Z) (customerId : option Z) (db : DB)
    : InvoiceSummaryDto :=
  let scope := List.filter (summary_scope customerId) (invoices db) in
  mkInvoiceSummaryDto
    (Z.of_nat (length scope))
    (sum_amount scope)
    (sum_amount (List.filter (λ i, bool_decide (status i = PAID)) scope))
    (sum_amount (List.filter (λ i, bool_decide (status i = PENDING)) scope))
    (sum_amount (List.filter (λ i, bool_decide (status i = PENDING) && (dueDate i <? now))
                             scope)).

Record BulkInvoiceResultDto : Type := mkBulkInvoiceResultDto {
  successful : Z;
  failed : Z;
  errors : list (Z * Exn);
  bulk_invoices : list InvoiceResponseDto
}.

(** [customer.findMany({ where: { isActive: true,
      ...(customerIds && { id: { in: customerIds } }) } })]. *)
Definition customers_to_bill (customerIds : option (list Z)) (db : DB) : list Customer :=
  List.filter (λ c, isActive c
                    && match customerIds with
                       | Some ids => bool_decide (cust_id c ∈ ids)
                       | None => true
                       end)
              (customers db).

Section Jobs.
(** One run of a job is taken at one instant [now]. *)
Variables tz now : Z.

(** The body of the [for] loop of [generateMonthlyInvoices], [try] and
    [catch] included. *)
Definition monthly_one (customer : Customer) (st : DB * BulkInvoiceResultDto)
    : DB * BulkInvoiceResultDto :=
  let '(db, results) := st in
  match getCurrentBillingPeriod tz now (cust_id customer) db with
  | inl e =>
      (db, mkBulkInvoiceResultDto (successful results) (failed results + 1)
             (errors results ++ [(cust_id customer, e)]) (bulk_invoices results))
  | inr billingPeriod =>
      if 7 <? daysRemaining billingPeriod then (db, results)
      else
        match generateInvoice tz now
                (mkCreateInvoiceDto (cust_id customer) (startDate billingPeriod)
                                    (endDate billingPeriod)) db with
        | (db', inr invoice) =>
            (db', mkBulkInvoiceResultDto (successful results + 1) (failed results)
                    (errors results) (bulk_invoices results ++ [invoice]))
        | (db', inl e) =>
            (db', mkBulkInvoiceResultDto (successful results) (failed results + 1)
                    (errors results ++ [(cust_id customer, e)]) (bulk_invoices results))
        end
  end.

Definition generateMonthlyInvoices (customerIds : option (list Z)) (db : DB)
    : DB * BulkInvoiceResultDto :=
  foldl (λ st c, monthly_one c st)
        (db, mkBulkInvoiceResultDto 0 0 [] [])
        (customers_to_bill customerIds db).

(** The counters of [InvoiceProcessor.generateDailyInvoices]. *)
Record DailyCounts : Type := mkDailyCounts {
  successCount : Z;
  skipCount : Z;
  errorCount : Z
}.

(** The body of its [for] loop. *)
Definition daily_one (customer : Customer) (st : DB * DailyCounts) : DB * DailyCounts :=
  let '(db, n) := st in
  match getCurrentBillingPeriod tz now (cust_id customer) db with
  | inl _ => (db, mkDailyCounts (successCount n) (skipCount n) (errorCount n + 1))
  | inr billingPeriod =>
      if daysRemaining billingPeriod <? 1 then
        (db, mkDailyCounts (successCount n) (skipCount n + 1) (errorCount n))
      else
        match checkForDuplicateInvoice (cust_id customer) (startDate billingPeriod)
                                       (endDate billingPeriod) db with
        | (_, inr true) =>
            (db, mkDailyCounts (successCount n) (skipCount n + 1) (errorCount n))
        | (_, inl _) =>
            (db, mkDailyCounts (successCount n) (skipCount n) (errorCount n + 1))
        | (_, inr false) =>
            match generateInvoice tz now
                    (mkCreateInvoiceDto (cust_id customer) (startDate billingPeriod)
                                        (endDate billingPeriod)) db with
            | (db', inr _) =>
                (db', mkDailyCounts (successCount n + 1) (skipCount n) (errorCount n))
            | (db', inl _) =>
                (db', mkDailyCounts (successCount n) (skipCount n) (errorCount n + 1))
            end
        end
  end.

Definition generateDailyInvoices (db : DB) : DB * DailyCounts :=
  foldl (λ st c, daily_one c st) (db, mkDailyCounts 0 0 0)
        (List.filter isActive (customers db)).
End Jobs.

End InvoiceJobs.

(* ===================================================================== *)
(** * Further concrete inputs used below *)
(* ===================================================================== *)

Module Scenarios2.

Definition usage_123 : UsageTracking.UsageLog :=
  UsageTracking.mkUsageLog "123" "test-api-key" 1 "/api/users" "GET" "200" 150
    (JsDate.utc 2024 1 1 12 0).






Definition tier_free : Billing.Tier := Billing.mkTier 1 "Free" 0 100.

Definition developer_one : Proxy.Developer :=
  Proxy.mkDeveloper 1 "Test Developer" "https://api.example.com".

(** One customer on tier Free holding one active key that never expires. *)
Definition catalog_one : KeyResolver.Catalog :=
  KeyResolver.mkCatalog
    [KeyResolver.mkApiKeyRow 1 "test-api-key" 123 true None]
    [KeyResolver.mkCustomerRow 123 "test@example.com" true 1 1]
    [tier_free] [developer_one].

(** The same catalog after the key was deactivated. *)
Definition catalog_revoked : KeyResolver.Catalog :=
  KeyResolver.mkCatalog
    [KeyResolver.mkApiKeyRow 1 "test-api-key" 123 false None]
    [KeyResolver.mkCustomerRow 123 "test@example.com" true 1 1]
    [tier_free] [developer_one].

Definition data_of_key : KeyResolver.ApiKeyData :=
  KeyResolver.mkApiKeyData 123 "test@example.com" tier_free 100 developer_one
    1 true None.

(** A request that carries no key, and a gateway with nothing stored. *)
Definition incoming_no_key : Gateway.Incoming :=
  Gateway.mkIncoming "/api/users" "GET" [("accept", "*/*")] None.

Definition incoming_with_key : Gateway.Incoming :=
  Gateway.mkIncoming "/api/users?page=2" "GET"
    [("x-api-key", "test-api-key"); ("accept", "*/*")] None.

Definition gateway_fresh : Gateway.World :=
  Gateway.mkWorld (KeyResolver.mkCache ∅ []) ∅ [] (UsageTracking.mkWorld ∅ [] []).

(** The customer of [catalog_one] has used up the 100 requests of the day. *)
Definition gateway_exhausted : Gateway.World :=
  Gateway.mkWorld (KeyResolver.mkCache ∅ [])
    {[ RateLimit.rateKey "123" :=
         RateLimit.mkUsageMap (Some 100) (Some (JsDate.utc 2024 1 2 0 0)) ]}
    [] (UsageTracking.mkWorld ∅ [] []).

(** Redis takes the limiter's read and its first write and rejects the
    second. *)
Definition gateway_half_reset : Gateway.World :=
  Gateway.mkWorld (KeyResolver.mkCache ∅ []) ∅ [false; false; true]
    (UsageTracking.mkWorld ∅ [] []).

(** The customer of [Scenarios.db_fresh], the invoice [Scenarios.db_invoiced]
    holds for them, and the periods before and after it. *)
Definition customer_one : Billing.Customer :=
  Billing.mkCustomer 1 "Test Customer" "test@example.com" 1 true
    (JsDate.utc 2024 1 15 0 0).

Definition invoice_jan15 : Billing.Invoice :=
  Billing.mkInvoice 1 "INV-2024-02-001" 1 (JsDate.utc 2024 1 15 0 0)
    (JsDate.utc 2024 2 15 0 0) 2 9999 Billing.PENDING (JsDate.utc 2024 2 17 10 0)
    None None Scenarios.now_feb10.

Definition period_jan15 : Billing.BillingPeriod :=
  Billing.mkBillingPeriod (JsDate.utc 2024 1 15 0 0) (JsDate.utc 2024 2 15 0 0)
    (JsDate.utc 2024 1 15 0 0) (JsDate.utc 2024 2 15 0 0) 5 15.

Definition period_feb16 : Billing.BillingPeriod :=
  Billing.mkBillingPeriod (JsDate.utc 2024 2 16 0 0) (JsDate.utc 2024 3 16 0 0)
    (JsDate.utc 2024 2 16 0 0) (JsDate.utc 2024 3 16 0 0) 25 15.

End Scenarios2.

(* ===================================================================== *)
(** * Properties of the calendar arithmetic *)
(* ===================================================================== *)

Module JsDateFacts.
Import JsDate.

(** [lia] reasons about division by a numeral through its quotient and
    remainder. *)
Ltac Zify.zify_post_hook ::= Z.to_euclidean_division_equations.

(** The two calendar conversions are inverse to each other, and a day
    number yields a month in 1..12 and a day in 1..31. *)
Lemma civil_from_days_inverse (z : Z) :
  let '(y, m, d) := civil_from_days z in
  days_from_civil y m d = z ∧ 1 ≤ m ≤ 12 ∧ 1 ≤ d ≤ 31.
Proof.
  unfold civil_from_days, days_from_civil. cbn zeta.
  set (era := (z + 719468) `div` 146097).
  set (doe := z + 719468 - era * 146097).
  assert (0 ≤ doe < 146097) as Hdoe by (subst doe era; lia).
  assert (z = doe + era * 146097 - 719468) as Hz by (subst doe; lia).
  clearbody doe era.
  set (yoe := (doe - doe `div` 1460 + doe `div` 36524 - doe `div` 146096) `div` 365).
  set (doy := doe - (365 * yoe + yoe `div` 4 - yoe `div` 100)).
  assert (0 ≤ yoe ≤ 399 ∧ 0 ≤ doy ≤ 365) as [Hyoe Hdoy] by (subst doy yoe; lia).
  assert (doe = 365 * yoe + yoe `div` 4 - yoe `div` 100 + doy) as Hd by (subst doy; lia).
  clearbody doy yoe.
  set (mp := (5 * doy + 2) `div` 153).
  assert (0 ≤ mp ≤ 11) as Hmp by (subst mp; lia).
  assert ((153 * mp + 2) `div` 5 ≤ doy < (153 * mp + 2) `div` 5 + 31) as Hday
    by (subst mp; lia).
  clearbody mp.
  destruct (Z.ltb_spec mp 10) as [Hlt|Hge].
  - destruct (Z.leb_spec (mp + 3) 2) as [?|_]; [lia|].
    destruct (Z.ltb_spec 2 (mp + 3)) as [_|?]; [|lia].
    replace (mp + 3 - 3) with mp by lia.
    replace ((yoe + era * 400) `div` 400) with era by lia.
    split; [lia|lia].
  - destruct (Z.leb_spec (mp - 9) 2) as [_|?]; [|lia].
    destruct (Z.ltb_spec 2 (mp - 9)) as [?|_]; [lia|].
    replace (mp - 9 + 9) with mp by lia.
    replace (yoe + era * 400 + 1 - 1) with (yoe + era * 400) by lia.
    replace ((yoe + era * 400) `div` 400) with era by lia.
    split; [lia|lia].
Qed.

Lemma days_from_civil_day (y m d : Z) :
  days_from_civil y m d = days_from_civil y m 1 + d - 1.
Proof. unfold days_from_civil. lia. Qed.

Ltac month_cases m H :=
  assert (m = 1 ∨ m = 2 ∨ m = 3 ∨ m = 4 ∨ m = 5 ∨ m = 6 ∨ m = 7 ∨ m = 8
          ∨ m = 9 ∨ m = 10 ∨ m = 11 ∨ m = 12) as H by lia;
  repeat destruct H as [H|H]; subst m.

Ltac eval_div_mod_12 :=
  repeat match goal with
         | |- context [?a `mod` 12 + 1] =>
             let v := eval vm_compute in (a `mod` 12 + 1) in
             change (a `mod` 12 + 1) with v
         | |- context [?a `div` 12] =>
             let v := eval vm_compute in (a `div` 12) in change (a `div` 12) with v
         end.

(** The first day of the month after [m] comes after the first of [m]. *)
Lemma month_start_lt (y m : Z) :
  1 ≤ m ≤ 12 →
  days_from_civil y m 1 < days_from_civil (y + m `div` 12) (m `mod` 12 + 1) 1.
Proof.
  intros Hm. month_cases m H; eval_div_mod_12; unfold days_from_civil; cbn; lia.
Qed.

Lemma year_start_le (y m d : Z) :
  1 ≤ m ≤ 12 → 1 ≤ d → days_from_civil y 1 1 ≤ days_from_civil y m d.
Proof.
  intros Hm Hd. month_cases m H; unfold days_from_civil; cbn; lia.
Qed.

Lemma year_end_lt (y m d : Z) :
  1 ≤ m ≤ 12 → d ≤ 31 → days_from_civil y m d < days_from_civil (y + 1) 1 1.
Proof.
  intros Hm Hd. month_cases m H; unfold days_from_civil; cbn; lia.
Qed.

Lemma year_start_mono (y y' : Z) :
  y ≤ y' → days_from_civil y 1 1 ≤ days_from_civil y' 1 1.
Proof. intros H. unfold days_from_civil. cbn. lia. Qed.

Lemma YearFromDay_mono (z1 z2 : Z) :
  z1 ≤ z2 → (civil_from_days z1).1.1 ≤ (civil_from_days z2).1.1.
Proof.
  intros Hz.
  pose proof (civil_from_days_inverse z1) as H1.
  pose proof (civil_from_days_inverse z2) as H2.
  destruct (civil_from_days z1) as [[y1 m1] d1].
  destruct (civil_from_days z2) as [[y2 m2] d2]. cbn [fst].
  destruct H1 as (E1 & Hm1 & Hd1). destruct H2 as (E2 & Hm2 & Hd2).
  destruct (Z.le_gt_cases y1 y2) as [|Hgt]; [done|]. exfalso.
  pose proof (year_start_le y1 m1 d1 Hm1 ltac:(lia)).
  pose proof (year_end_lt y2 m2 d2 Hm2 ltac:(lia)).
  pose proof (year_start_mono (y2 + 1) y1 ltac:(lia)).
  lia.
Qed.

Lemma getFullYear_mono (tz a b : Z) : a ≤ b → getFullYear tz a ≤ getFullYear tz b.
Proof.
  intros H. unfold getFullYear, YearFromTime, LocalTime.
  apply YearFromDay_mono. unfold Day, msPerDay. lia.
Qed.

(** [setMonth(getMonth() + 1)] moves a date forward. *)
Lemma setMonth_next_gt (tz t : Z) : t < setMonth tz t (getMonth tz t + 1).
Proof.
  unfold setMonth, getMonth, MonthFromTime, YearFromTime, DateFromTime, UTC,
    MakeDate, MakeDay, LocalTime.
  set (l := t + tz).
  pose proof (civil_from_days_inverse (Day l)) as H.
  destruct (civil_from_days (Day l)) as [[y m] d]. cbn [fst snd].
  destruct H as (E & Hm & Hd).
  replace (m - 1 + 1) with m by lia.
  pose proof (month_start_lt y m Hm) as Hlt.
  rewrite days_from_civil_day in E.
  unfold TimeWithinDay, Day, msPerDay in *. lia.
Qed.

(** [setDate(getDate() + n)] is [n] days later: the due date of an invoice,
    [setDate(getDate() + 7)], is seven days after its creation. *)
Lemma setDate_plus (tz t n : Z) :
  setDate tz t (getDate tz t + n) = t + n * msPerDay.
Proof.
  unfold setDate, getDate, MonthFromTime, YearFromTime, DateFromTime, UTC,
    MakeDate, MakeDay, LocalTime.
  set (l := t + tz).
  pose proof (civil_from_days_inverse (Day l)) as H.
  destruct (civil_from_days (Day l)) as [[y m] d]. cbn [fst snd].
  destruct H as (E & Hm & Hd).
  replace ((m - 1) `mod` 12 + 1) with m by lia.
  replace (y + (m - 1) `div` 12) with y by lia.
  rewrite days_from_civil_day in E.
  unfold TimeWithinDay, Day, msPerDay in *. lia.
Qed.

End JsDateFacts.

(* ===================================================================== *)
(** * Properties of the rate limiter *)
(* ===================================================================== *)

Module RateLimitFacts.
Import RateLimit.

Lemma setHours24_next_midnight (tz now : Z) :
  let m := JsDate.setHours24 tz now in
  JsDate.TimeWithinDay (JsDate.LocalTime tz m) = 0
  ∧ now < m ∧ m ≤ now + JsDate.msPerDay.
Proof.
  cbn zeta. unfold JsDate.setHours24, JsDate.TimeWithinDay, JsDate.LocalTime,
    JsDate.UTC, JsDate.MakeDate, JsDate.Day, JsDate.msPerDay.
  set (l := now + tz).
  replace (l `div` 86400000 * 86400000 + 24 * 3600000 - tz + tz)
    with ((l `div` 86400000 + 1) * 86400000) by lia.
  rewrite Z.mod_mul by lia.
  pose proof (Z.div_mod l 86400000 ltac:(lia)) as Hdm.
  pose proof (Z.mod_pos_bound l 86400000 ltac:(lia)) as Hb.
  subst l. lia.
Qed.

Lemma hset_resetAt_hset_count key c t (r : gmap string UsageMap) :
  hset_resetAt key (Some t) (hset_count key (Some c) r)
  = <[key := mkUsageMap (Some c) (Some t)]> r.
Proof.
  unfold hset_resetAt, hset_count.
  destruct (r !! key) as [h|] eqn:Hk; rewrite lookup_insert_eq; cbn;
    by rewrite insert_insert_eq.
Qed.

Lemma resetWindow_spec tz now key limit (r : gmap string UsageMap) :
  resetWindow tz now key limit r
  = (<[key := mkUsageMap (Some 1) (Some (JsDate.setHours24 tz now))]> r,
     mkDecision true (Some (limit - 1)) (DateString (JsDate.setHours24 tz now))).
Proof. unfold resetWindow. by rewrite hset_resetAt_hset_count. Qed.

Example scenario_S1 :
  let tomorrow := JsDate.utc 2024 1 2 0 0 in
  let r : gmap string UsageMap :=
    {[ rateKey "7" := mkUsageMap (Some 50) (Some tomorrow) ]} in
  checkAndIncrement 0 (JsDate.utc 2024 1 1 12 0) "7" 100 r
  = (<[rateKey "7" := mkUsageMap (Some 51) (Some tomorrow)]> r,
     mkDecision true (Some 50) (StoredResetAt (Some tomorrow))).
Proof. vm_compute. reflexivity. Qed.

(** C3, as stated, fails on the boundary [resetAt = now]: the source
    compares [resetAt < now], so a counter whose window ends at this very
    instant is still live.  Here the stored [resetAt] is [<= now], yet the
    call is denied and nothing is written. *)
Lemma window_ending_now_is_not_reset :
  let now := JsDate.utc 2024 1 2 0 0 in
  let r : gmap string UsageMap :=
    {[ rateKey "7" := mkUsageMap (Some 100) (Some now) ]} in
  (∃ h t, r !! rateKey "7" = Some h ∧ resetAt h = Some t ∧ t ≤ now)
  ∧ allowed (checkAndIncrement 0 now "7" 100 r).2 = false
  ∧ remaining (checkAndIncrement 0 now "7" 100 r).2 ≠ Some (100 - 1)
  ∧ (checkAndIncrement 0 now "7" 100 r).1 !! rateKey "7"
    ≠ Some (mkUsageMap (Some 1) (Some (JsDate.setHours24 0 now))).
Proof.
  cbn zeta. split; [|vm_compute; split; [done|split; discriminate]].
  eexists _, _. split; [apply lookup_singleton_eq|]. split; [done|]. lia.
Qed.

(** C3 (amended): when the hash is absent or its stored [resetAt] lies
    strictly before [now], [checkAndIncrement] stores [count = 1] and
    [resetAt =] the next local midnight (the first instant after [now], at
    most a day later, whose local time of day is 00:00), leaves every other
    key alone, and returns allowed with [remaining = quota - 1]. *)
Theorem checkAndIncrement_reset tz now cid quota (r : gmap string UsageMap) :
  (r !! rateKey cid = None
   ∨ ∃ h t, r !! rateKey cid = Some h ∧ resetAt h = Some t ∧ t < now) →
  let out := checkAndIncrement tz now cid quota r in
  let midnight := JsDate.setHours24 tz now in
  out.1 !! rateKey cid = Some (mkUsageMap (Some 1) (Some midnight))
  ∧ (∀ k, k ≠ rateKey cid → out.1 !! k = r !! k)
  ∧ JsDate.TimeWithinDay (JsDate.LocalTime tz midnight) = 0
  ∧ now < midnight ∧ midnight ≤ now + JsDate.msPerDay
  ∧ allowed out.2 = true
  ∧ remaining out.2 = Some (quota - 1).
Proof.
  intros Hreset. cbn zeta.
  assert (checkAndIncrement tz now cid quota r
          = resetWindow tz now (rateKey cid) quota r) as ->.
  { unfold checkAndIncrement.
    destruct Hreset as [-> | (h & t & -> & Ht & Hlt)]; [done|].
    rewrite Ht. cbn. by rewrite (proj2 (Z.ltb_lt t now) Hlt). }
  rewrite resetWindow_spec. cbn.
  destruct (setHours24_next_midnight tz now) as (H0 & H1 & H2).
  rewrite lookup_insert_eq. repeat split; try done.
  intros k Hk. by rewrite lookup_insert_ne.
Qed.

Lemma checkAndIncrement_reset_witness :
  let now := JsDate.utc 2024 1 2 0 1 in
  let r : gmap string UsageMap :=
    {[ rateKey "7" := mkUsageMap (Some 100) (Some (JsDate.utc 2024 1 1 0 0)) ]} in
  (checkAndIncrement 0 now "7" 100 r).1 !! rateKey "7"
    = Some (mkUsageMap (Some 1) (Some (JsDate.utc 2024 1 3 0 0)))
  ∧ remaining (checkAndIncrement 0 now "7" 100 r).2 = Some 99.
Proof.
  cbn zeta.
  pose proof (checkAndIncrement_reset 0 (JsDate.utc 2024 1 2 0 1) "7" 100
    {[ rateKey "7" := mkUsageMap (Some 100) (Some (JsDate.utc 2024 1 1 0 0)) ]})
    as H.
  destruct H as (H1 & _ & _ & _ & _ & _ & H2).
  - right. eexists _, _. split; [apply lookup_singleton_eq|]. split; [reflexivity|].
    vm_compute. reflexivity.
  - split; [exact H1 | exact H2].
Defined.


(** C4: the limiter at the failing input.  A quota of 0 stands for
    unlimited: the billing service reports a rate limit of 0 as
    ['unlimited'] and its test says "0 means unlimited".  The limiter has
    no branch for it: with a live window and a stored count of 5 the call
    with quota 0 is denied. *)
Lemma quota_zero_live_window_denied :
  let now := JsDate.utc 2024 1 1 12 0 in
  let r : gmap string UsageMap :=
    {[ rateKey "7" := mkUsageMap (Some 5) (Some (JsDate.utc 2024 1 2 0 0)) ]} in
  allowed (checkAndIncrement 0 now "7" 0 r).2 = false.
Proof. vm_compute. reflexivity. Qed.

(** The extent of that defect: with quota 0 the call is allowed only when
    it takes a reset path (hash absent, or stored [resetAt] strictly
    before [now]) or the stored count is not a number or negative; with a
    live window and a stored count [c >= 0] it is denied. *)
Lemma checkAndIncrement_quota_zero tz now cid (r : gmap string UsageMap) :
  allowed (checkAndIncrement tz now cid 0 r).2 = true
  ↔ (r !! rateKey cid = None
     ∨ ∃ h, r !! rateKey cid = Some h
            ∧ ((∃ t, resetAt h = Some t ∧ t < now)
               ∨ count h = None
               ∨ ∃ c, count h = Some c ∧ c < 0)).
Proof.
  unfold checkAndIncrement.
  destruct (r !! rateKey cid) as [[c t]|] eqn:Hk; cbn; [|by split; [left|]].
  destruct t as [t|]; cbn.
  - destruct (Z.ltb_spec t now) as [Hlt|Hge]; cbn.
    + split; [|done]. intros _. right. eexists. split; [done|]. left. eauto.
    + destruct c as [c|]; cbn.
      * destruct (Z.leb_spec 0 c) as [Hc|Hc]; cbn.
        -- split; [done|]. intros [?|(h & [= <-] & [(t' & [= <-] & ?)|[?|(c' & [= <-] & ?)]])];
             [done|lia|done|lia].
        -- split; [|done]. intros _. right. eexists. split; [done|]. right. right. eauto.
      * split; [|done]. intros _. right. eexists. split; [done|]. right. by left.
  - destruct c as [c|]; cbn.
    + destruct (Z.leb_spec 0 c) as [Hc|Hc]; cbn.
      * split; [done|]. intros [?|(h & [= <-] & [(t' & ? & ?)|[?|(c' & [= <-] & ?)]])];
          [done|done|done|lia].
      * split; [|done]. intros _. right. eexists. split; [done|]. right. right. eauto.
    + split; [|done]. intros _. right. eexists. split; [done|]. right. by left.
Qed.

(** C5: with a live window ([resetAt > now]) and a stored count at or above
    the quota, the call is denied with [remaining = 0] and the stored
    [resetAt], and the store is exactly what it was. *)
Theorem checkAndIncrement_exhausted tz now cid quota (r : gmap string UsageMap) h t c :
  r !! rateKey cid = Some h →
  resetAt h = Some t → now < t →
  count h = Some c → quota ≤ c →
  checkAndIncrement tz now cid quota r
  = (r, mkDecision false (Some 0) (StoredResetAt (Some t))).
Proof.
  intros Hk Ht Hlt Hc Hge. unfold checkAndIncrement. rewrite Hk, Ht, Hc. cbn.
  destruct (Z.ltb_spec t now); [lia|].
  destruct (Z.leb_spec quota c); [done|lia].
Qed.

Lemma checkAndIncrement_exhausted_witness :
  let r : gmap string UsageMap :=
    {[ rateKey "7" := mkUsageMap (Some 100) (Some (JsDate.utc 2024 1 2 0 0)) ]} in
  checkAndIncrement 0 (JsDate.utc 2024 1 1 12 0) "7" 100 r
  = (r, mkDecision false (Some 0) (StoredResetAt (Some (JsDate.utc 2024 1 2 0 0)))).
Proof.
  cbn zeta.
  apply (checkAndIncrement_exhausted 0 (JsDate.utc 2024 1 1 12 0) "7" 100 _
           (mkUsageMap (Some 100) (Some (JsDate.utc 2024 1 2 0 0)))
           (JsDate.utc 2024 1 2 0 0) 100).
  - apply lookup_singleton_eq.
  - reflexivity.
  - vm_compute. reflexivity.
  - reflexivity.
  - lia.
Defined.

End RateLimitFacts.

(* ===================================================================== *)
(** * Properties of the proxy forwarder *)
(* ===================================================================== *)

Module ProxyFacts.
Import Proxy.

Lemma append_eq_empty (a b : string) : a +:+ b = EmptyString → b = EmptyString.
Proof. destruct a; cbn; [done | discriminate]. Qed.

Lemma urlPath_nonempty (u : string) : urlPath u ≠ EmptyString.
Proof. unfold urlPath. case_decide; [discriminate | done]. Qed.

(** The [|| `https://httpbin.org...`] operand of the source is never
    taken: the template literal is not the empty string. *)
Lemma targetUrl_spec (cfg : option string) (req : Request) :
  targetUrl cfg req = template cfg +:+ urlPath (url req).
Proof.
  unfold targetUrl. case_decide as H; [|done].
  apply append_eq_empty in H. by apply urlPath_nonempty in H.
Qed.

Example scenario_S1_url :
  urlPath "/api/get" = "/get" ∧ urlPath "/api" = "/"
  ∧ urlPath "/api/users/123?page=2" = "/users/123?page=2".
Proof. by vm_compute. Qed.

(** C1, as stated, fails: the developer record of the request carries a
    URL, the global configuration another one, and the upstream call goes
    to the configured one. *)
Lemma forwardRequests_ignores_developer_url :
  let calls :=
    (forwardRequests (Some "https://httpbin.org") (λ _, Response "ok")
                     Scenarios.req_jsonplaceholder).1 in
  apiUrl (developer Scenarios.req_jsonplaceholder) ≠ EmptyString
  ∧ call_url <$> calls = ["https://httpbin.org/get"]
  ∧ call_url <$> calls
    ≠ [apiUrl (developer Scenarios.req_jsonplaceholder) +:+ urlPath (url Scenarios.req_jsonplaceholder)].
Proof. vm_compute. split; [discriminate|]. split; [reflexivity|discriminate]. Qed.

(** C1 (amended): every upstream call [forwardRequests] makes goes to the
    globally configured [api.targetUrl] followed by the request target
    without its leading [/api] ([/] when nothing is left); the developer
    record attached to the request plays no part. *)
Theorem forwardRequests_target_is_configured
    (base : string) (httpService : HttpCall → HttpOutcome) (req : Request) (c : HttpCall) :
  c ∈ (forwardRequests (Some base) httpService req).1 →
  call_url c = base +:+ urlPath (url req)
  ∧ ∀ dev, (forwardRequests (Some base) httpService
              (mkRequest (url req) (method req) (headers req) (body req) dev
                         (customer req))).1
           = (forwardRequests (Some base) httpService req).1.
Proof.
  intros Hc. split; [|done].
  unfold forwardRequests in Hc.
  destruct (upstreamCall (Some base) req) as [c'|] eqn:Hup.
  - assert (c = c') as ->.
    { destruct (httpService c'); cbn in Hc; by apply list_elem_of_singleton in Hc. }
    unfold upstreamCall in Hup. rewrite targetUrl_spec in Hup. cbn in Hup.
    repeat case_decide; by simplify_eq.
  - cbn in Hc. by apply not_elem_of_nil in Hc.
Qed.

Lemma forwardRequests_target_is_configured_witness :
  call_url (mkHttpCall "GET" "https://httpbin.org/get" None [("accept", "*/*")])
  = "https://httpbin.org" +:+ urlPath (url Scenarios.req_jsonplaceholder).
Proof.
  apply (forwardRequests_target_is_configured "https://httpbin.org"
           (λ _, Response "ok") Scenarios.req_jsonplaceholder).
  vm_compute. apply list_elem_of_here.
Defined.

End ProxyFacts.

(* ===================================================================== *)
(** * Properties of the usage buffer *)
(* ===================================================================== *)

Module UsageTrackingFacts.
Import UsageTracking.

Section Facts.
Variable JSON_stringify : UsageLog → string.

(** C10: [addUsageLog] returns normally whatever the fate of its four
    Redis commands (the push and the trim of the customer list, the push
    and the trim of the global list).  When one of them is rejected the
    failure is written to the console as an error and the remaining
    commands are not issued; otherwise the record is logged as tracked. *)
Theorem addUsageLog_never_throws (usage : UsageLog) (w : World) :
  let out := addUsageLog JSON_stringify usage w in
  out.2 = inr tt
  ∧ console out.1
    = console w ++
      [if bool_decide (true ∈ take 4 (faults w))
       then ConsoleError "Failed to track usage:" RedisError
       else ConsoleLog "Usage tracked:" usage].
Proof.
  destruct w as [l c fs]. cbn zeta.
  unfold addUsageLog, try_catch, bind, lpush, ltrim, command, console_log,
    console_error; cbn.
  destruct fs as [|[] [|[] [|[] [|[] fs]]]]; cbn;
    repeat (match goal with
            | |- context [match ?m !! ?k with _ => _ end] => destruct (m !! k)
            end; cbn);
    done.
Qed.

End Facts.

Example addUsageLog_push_rejected :
  let u := mkUsageLog "customer-123" "test-api-key" 1 "/api/users" "GET" "200" 150
                      (JsDate.utc 2024 1 1 12 0) in
  addUsageLog (λ _, "{}") u (mkWorld ∅ [] [true])
  = (mkWorld ∅ [ConsoleError "Failed to track usage:" RedisError] [], inr tt).
Proof. vm_compute. reflexivity. Qed.

Example addUsageLog_trim_rejected :
  let u := mkUsageLog "customer-123" "test-api-key" 1 "/api/users" "GET" "200" 150
                      (JsDate.utc 2024 1 1 12 0) in
  let out := addUsageLog (λ _, "{}") u (mkWorld ∅ [] [false; true]) in
  out.2 = inr tt
  ∧ lists out.1 !! "usage:logs:customer-123" = Some ["{}"]
  ∧ lists out.1 !! "usage:logs:all" = None.
Proof. vm_compute. repeat split; reflexivity. Qed.

End UsageTrackingFacts.

(* ===================================================================== *)
(** * Properties of the billing period calculator *)
(* ===================================================================== *)

Module BillingPeriodFacts.
Import Billing.

Lemma ceilDays_is_ceiling (now periodEnd : Z) :
  let d := ceilDays now periodEnd in
  (d - 1) * JsDate.msPerDay < periodEnd - now ∧ periodEnd - now ≤ d * JsDate.msPerDay.
Proof.
  cbn zeta. unfold ceilDays, JsDate.msPerDay.
  pose proof (Z.div_mod (now - periodEnd) 86400000 ltac:(lia)).
  pose proof (Z.mod_pos_bound (now - periodEnd) 86400000 ltac:(lia)).
  lia.
Qed.

Lemma guardFuture_past (now periodStart : Z) :
  periodStart ≤ now → guardFuture now periodStart = None.
Proof. intros H. unfold guardFuture. by rewrite (proj2 (Z.ltb_ge _ _) H). Qed.

Lemma iter_0 {A} (f : A → A) (x : A) : Nat.iter 0 f x = x.
Proof. reflexivity. Qed.

Lemma iter_S {A} (f : A → A) (n : nat) (x : A) :
  Nat.iter (S n) f x = f (Nat.iter n f x).
Proof. reflexivity. Qed.

Lemma advance_step tz now guard (fuel : nat) (periodStart : Z) :
  advance tz now guard (S fuel) periodStart
  = if (periodStart <=? now) && (now <? nextMonth tz periodStart) then
      inr (periodStart, nextMonth tz periodStart)
    else match guard periodStart with
         | Some e => inl e
         | None => advance tz now guard fuel (nextMonth tz periodStart)
         end.
Proof. reflexivity. Qed.

(** The loop of the no-invoice branch stops at the first window that holds
    [now], provided it gets there within its fuel. *)
Lemma advance_reaches tz now (k : nat) : ∀ (fuel : nat) (start : Z),
  (k < fuel)%nat →
  (∀ j, (j ≤ k)%nat → Nat.iter j (nextMonth tz) start ≤ now) →
  now < Nat.iter (S k) (nextMonth tz) start →
  advance tz now (guardFuture now) fuel start
  = inr (Nat.iter k (nextMonth tz) start,
         nextMonth tz (Nat.iter k (nextMonth tz) start)).
Proof.
  induction k as [|k IH]; intros fuel start Hk Hle Hlt.
  - destruct fuel as [|fuel]; [lia|]. rewrite advance_step.
    pose proof (Hle 0%nat ltac:(lia)) as H0.
    rewrite iter_S in Hlt. rewrite iter_0 in *.
    rewrite (proj2 (Z.leb_le _ _) H0), (proj2 (Z.ltb_lt _ _) Hlt). reflexivity.
  - destruct fuel as [|fuel]; [lia|]. rewrite advance_step.
    pose proof (Hle 0%nat ltac:(lia)) as H0.
    pose proof (Hle 1%nat ltac:(lia)) as H1.
    rewrite iter_0 in H0. rewrite iter_S, iter_0 in H1.
    rewrite (proj2 (Z.ltb_ge _ _) H1), andb_false_r.
    rewrite (guardFuture_past _ _ H0).
    rewrite (IH fuel (nextMonth tz start)).
    + rewrite (Nat.iter_succ_r k). reflexivity.
    + lia.
    + intros j Hj. rewrite <- (Nat.iter_succ_r j). apply Hle. lia.
    + rewrite (Nat.iter_succ_r (S k)) in Hlt. exact Hlt.
Qed.

Example scenario_S5_period :
  getCurrentBillingPeriod 0 Scenarios.now_feb10 1 Scenarios.db_fresh
  = inr (mkBillingPeriod (JsDate.utc 2024 1 15 0 0) (JsDate.utc 2024 2 15 0 0)
                         (JsDate.utc 2024 1 15 0 0) (JsDate.utc 2024 2 15 0 0) 5 15).
Proof. vm_compute. reflexivity. Qed.

(** C7, as stated, fails on month ends: the source advances with
    [setMonth(getMonth() + 1)], which carries a day the target month does
    not have into the following month.  For a customer created on
    2024-01-31 and [now] = 2024-02-15 the clamped rule gives the window
    ending 2024-02-29; the service returns the one ending 2024-03-02, as
    the month-end test of the billing service expects ([endDate] in
    March). *)
Lemma getCurrentBillingPeriod_month_end_carries_over :
  let now := JsDate.utc 2024 2 15 10 0 in
  let created := JsDate.utc 2024 1 31 0 0 in
  lastInvoiceOf Scenarios.db_31st 1 = None
  ∧ BillingSpec.spec_window 0 now 120 created
    = Some (created, JsDate.utc 2024 2 29 0 0)
  ∧ getCurrentBillingPeriod 0 now 1 Scenarios.db_31st
    = inr (mkBillingPeriod created (JsDate.utc 2024 3 2 0 0)
                           created (JsDate.utc 2024 3 2 0 0) 16 31)
  ∧ JsDate.utc 2024 3 2 0 0 ≠ JsDate.utc 2024 2 29 0 0.
Proof. vm_compute. repeat split; discriminate. Qed.

Lemma nextMonth_gt (tz t : Z) : t < nextMonth tz t.
Proof. unfold nextMonth. exact (JsDateFacts.setMonth_next_gt tz t). Qed.

Lemma iter_nextMonth_mono tz (x : Z) (j k : nat) :
  (j ≤ k)%nat → Nat.iter j (nextMonth tz) x ≤ Nat.iter k (nextMonth tz) x.
Proof.
  induction 1 as [|k _ IH]; [lia|].
  rewrite iter_S. pose proof (nextMonth_gt tz (Nat.iter k (nextMonth tz) x)). lia.
Qed.

(** At most one of the windows [[s_k, s_(k+1))] holds [now]. *)
Lemma billing_window_unique tz now (x : Z) (j k : nat) :
  Nat.iter j (nextMonth tz) x ≤ now < Nat.iter (S j) (nextMonth tz) x →
  Nat.iter k (nextMonth tz) x ≤ now < Nat.iter (S k) (nextMonth tz) x →
  j = k.
Proof.
  intros Hj Hk.
  destruct (Nat.lt_trichotomy j k) as [Hlt | [Heq | Hlt]]; [|exact Heq|].
  - pose proof (iter_nextMonth_mono tz x (S j) k ltac:(lia)). lia.
  - pose proof (iter_nextMonth_mono tz x (S k) j ltac:(lia)). lia.
Qed.

(** C7 (amended): for a customer without invoices the service returns the
    window [[s_k, s_(k+1))] that holds [now], where [s_0] is [createdAt]
    and [s_(j+1)] is [s_j] after [setMonth(getMonth() + 1)] (a day of
    month the target month lacks carries into the month after it; there
    is no clamping), provided that window is reached in fewer than 120
    steps.  [cycleDay] is the local day of month of [createdAt] and
    [daysRemaining] is the ceiling of [(periodEnd - now) / 24h]. *)
Theorem getCurrentBillingPeriod_no_invoice tz now cid db c (k : nat) :
  findCustomer db cid = Some c →
  lastInvoiceOf db cid = None →
  (k < 120)%nat →
  Nat.iter k (nextMonth tz) (cust_createdAt c) ≤ now →
  now < Nat.iter (S k) (nextMonth tz) (cust_createdAt c) →
  ∃ bp,
    getCurrentBillingPeriod tz now cid db = inr bp
    ∧ bp_periodStart bp = Nat.iter k (nextMonth tz) (cust_createdAt c)
    ∧ bp_periodEnd bp = nextMonth tz (bp_periodStart bp)
    ∧ startDate bp = bp_periodStart bp ∧ endDate bp = bp_periodEnd bp
    ∧ bp_periodStart bp ≤ now ∧ now < bp_periodEnd bp
    ∧ cycleDay bp = JsDate.getDate tz (cust_createdAt c)
    ∧ (daysRemaining bp - 1) * JsDate.msPerDay < bp_periodEnd bp - now
    ∧ bp_periodEnd bp - now ≤ daysRemaining bp * JsDate.msPerDay.
Proof.
  intros Hc Hlast Hk Hstart Hlt.
  assert (∀ j, (j ≤ k)%nat → Nat.iter j (nextMonth tz) (cust_createdAt c) ≤ now)
    as Hle.
  { intros j Hj.
    pose proof (iter_nextMonth_mono tz (cust_createdAt c) j k Hj). lia. }
  assert (JsDate.getFullYear tz (cust_createdAt c) ≤ JsDate.getFullYear tz now + 100)
    as Hyear.
  { pose proof (Hle 0%nat ltac:(lia)) as H0. rewrite iter_0 in H0.
    pose proof (JsDateFacts.getFullYear_mono tz _ _ H0). lia. }
  unfold getCurrentBillingPeriod. rewrite Hc, Hlast.
  rewrite (proj2 (Z.ltb_ge _ _) Hyear).
  rewrite (advance_reaches tz now k MAX_ITERATIONS _ Hk Hle Hlt).
  eexists. split; [reflexivity|].
  cbn [bp_periodStart bp_periodEnd startDate endDate cycleDay daysRemaining].
  destruct (ceilDays_is_ceiling now
              (nextMonth tz (Nat.iter k (nextMonth tz) (cust_createdAt c))))
    as [Hd1 Hd2].
  rewrite iter_S in Hlt.
  split; [reflexivity|]. split; [reflexivity|]. split; [reflexivity|].
  split; [reflexivity|]. split; [exact Hstart|]. split; [exact Hlt|].
  split; [reflexivity|]. split; [exact Hd1 | exact Hd2].
Qed.

Lemma getCurrentBillingPeriod_no_invoice_witness :
  ∃ bp,
    getCurrentBillingPeriod 0 Scenarios.now_feb10 1 Scenarios.db_fresh = inr bp
    ∧ bp_periodStart bp = JsDate.utc 2024 1 15 0 0
    ∧ bp_periodEnd bp = JsDate.utc 2024 2 15 0 0
    ∧ cycleDay bp = 15.
Proof.
  destruct (getCurrentBillingPeriod_no_invoice 0 Scenarios.now_feb10 1
              Scenarios.db_fresh
              (mkCustomer 1 "Test Customer" "test@example.com" 1 true
                          (JsDate.utc 2024 1 15 0 0)) 0)
    as (bp & H1 & H2 & H3 & _ & _ & _ & _ & H4 & _).
  - reflexivity.
  - reflexivity.
  - lia.
  - vm_compute. discriminate.
  - vm_compute. reflexivity.
  - exists bp. split; [exact H1|]. split; [exact H2|]. split; [|exact H4].
    rewrite H3, H2. vm_compute. reflexivity.
Defined.

End BillingPeriodFacts.

(* ===================================================================== *)
(** * Properties of the invoice engine *)
(* ===================================================================== *)

Module InvoiceFacts.
Import Billing.

(** ** Lists *)

Lemma find_snoc_None {A} (p : A → bool) (l : list A) (x : A) :
  List.find p l = None →
  List.find p (l ++ [x]) = if p x then Some x else None.
Proof.
  induction l as [|a l IH]; cbn; [done|].
  destruct (p a); [discriminate | exact IH].
Qed.

Lemma find_snoc_Some {A} (p : A → bool) (l : list A) (x y : A) :
  List.find p l = Some y → List.find p (l ++ [x]) = Some y.
Proof.
  induction l as [|a l IH]; cbn; [discriminate|].
  destruct (p a); [done | exact IH].
Qed.

Lemma find_elem_of {A} (p : A → bool) (l : list A) (x : A) :
  x ∈ l → p x = true → is_Some (List.find p l).
Proof.
  induction 1 as [x l | x y l _ IH]; cbn; intros Hp.
  - rewrite Hp. eauto.
  - destruct (p y); eauto.
Qed.

Lemma find_fmap_preserve {A} (p : A → bool) (f : A → A) (l : list A) :
  (∀ x, p (f x) = p x) → List.find p (f <$> l) = f <$> List.find p l.
Proof.
  intros Hp. induction l as [|a l IH]; cbn; [done|].
  rewrite Hp. destruct (p a); [done | exact IH].
Qed.

Lemma filter_none {A} (p : A → bool) (l : list A) :
  (∀ x, x ∈ l → p x = false) → List.filter p l = [].
Proof.
  induction l as [|a l IH]; cbn; intros Hp; [done|].
  rewrite (Hp a) by apply list_elem_of_here.
  apply IH. intros x Hx. apply Hp. by apply list_elem_of_further.
Qed.

Lemma List_filter_stdpp {A} (pb : A → bool) (P : A → Prop)
    `{!∀ x, Decision (P x)} (l : list A) :
  (∀ x, pb x = true ↔ P x) → List.filter pb l = filter P l.
Proof.
  intros Hp. induction l as [|a l IH]; [done|].
  cbn [List.filter]. rewrite filter_cons. destruct (pb a) eqn:E.
  - rewrite decide_True by by apply Hp. by rewrite IH.
  - rewrite decide_False; [done|]. intros HP. apply Hp in HP. congruence.
Qed.

(** The count of [calculateUsageForPeriod] is the number of usage rows of
    the customer with [startDate <= timestamp < endDate]. *)
Lemma usageHistory_count_spec (cid startDate endDate : Z) (db : DB) :
  usageHistory_count cid startDate endDate db
  = Z.of_nat (length (filter
      (λ u, uh_customerId u = cid ∧ startDate ≤ timestamp u ∧ timestamp u < endDate)
      (usageHistory db))).
Proof.
  unfold usageHistory_count. f_equal. f_equal.
  apply List_filter_stdpp. intros u.
  rewrite !andb_true_iff, bool_decide_eq_true, Z.leb_le, Z.ltb_lt. tauto.
Qed.

(** ** What each write does to the store *)

Lemma invoice_create_inr now number cid pStart pEnd n amt st due db db1 row :
  invoice_create now number cid pStart pEnd n amt st due db = (db1, inr row) →
  findInvoice db (invoice_id_seq db) = None
  ∧ row = mkInvoice (invoice_id_seq db) number cid pStart pEnd n amt st due
                    None None now
  ∧ db1 = with_invoices db (invoices db ++ [row]) (invoice_id_seq db + 1).
Proof.
  unfold invoice_create. intros H.
  case_bool_decide as H1; [discriminate|].
  case_bool_decide as H2; [discriminate|].
  case_bool_decide as H3; [discriminate|].
  injection H as <- <-. split; [|done].
  destruct (findInvoice db (invoice_id_seq db)); [|done].
  exfalso. apply H1. eauto.
Qed.

Lemma invoice_create_invoices now number cid pStart pEnd n amt st due db :
  let out := invoice_create now number cid pStart pEnd n amt st due db in
  invoices out.1 = invoices db
  ∨ ∃ row, status row = st ∧ paidAt row = None
           ∧ invoices out.1 = invoices db ++ [row].
Proof.
  cbn zeta. unfold invoice_create.
  repeat case_bool_decide; cbn; [by left..|].
  right. eexists. split; [|split]; [| |reflexivity]; reflexivity.
Qed.

Lemma createMany_inr now iid items db db2 :
  invoiceLineItem_createMany now iid items db = (db2, inr tt) →
  db2 = with_lineItems db
          (lineItems db ++ number_lineItems now iid (lineItem_id_seq db) items)
          (lineItem_id_seq db + Z.of_nat (length items)).
Proof.
  unfold invoiceLineItem_createMany. intros H.
  repeat case_bool_decide; simplify_eq. done.
Qed.

Lemma createMany_invoices now iid items db :
  invoices (invoiceLineItem_createMany now iid items db).1 = invoices db.
Proof. unfold invoiceLineItem_createMany. by repeat case_bool_decide. Qed.

Lemma createInvoiceLineItems_invoices tz now iid cid pStart pEnd db :
  invoices (createInvoiceLineItems tz now iid cid pStart pEnd db).1 = invoices db.
Proof.
  unfold createInvoiceLineItems, bind, attempt, throw, calculateUsageForPeriod,
    bind, query, ret.
  destruct (customer_with_tier cid db) as [e|[[c t]|]]; cbn; try done.
  apply createMany_invoices.
Qed.

Lemma getInvoiceById_state iid db : (getInvoiceById iid db).1 = db.
Proof. reflexivity. Qed.

Lemma generateInvoice_invoices tz now dto db :
  let out := generateInvoice tz now dto db in
  invoices out.1 = invoices db
  ∨ ∃ row, status row = PENDING ∧ paidAt row = None
           ∧ invoices out.1 = invoices db ++ [row].
Proof.
  cbn zeta.
  unfold generateInvoice, bind, checkForDuplicateInvoice, query, attempt, throw.
  case_bool_decide; [by left|].
  destruct (customer_with_tier _ db) as [e|[[c t]|]]; [by left| |by left].
  unfold calculateUsageForPeriod, bind, query, ret.
  unfold generateInvoiceNumber, bind, query, ret.
  match goal with
  | |- context [invoice_create ?a ?b ?c ?d ?e ?f ?g ?h ?i db] =>
      pose proof (invoice_create_invoices a b c d e f g h i db) as Hinv;
      destruct (invoice_create a b c d e f g h i db) as [db1 [e1|row]]
  end; cbn [fst] in *; [exact Hinv|].
  match goal with
  | |- context [createInvoiceLineItems ?a ?b ?c ?d ?e ?f db1] =>
      pose proof (createInvoiceLineItems_invoices a b c d e f db1) as Hli;
      destruct (createInvoiceLineItems a b c d e f db1) as [db2 [e2|[]]]
  end; unfold getInvoiceById, attempt; cbn [fst] in *; rewrite Hli; exact Hinv.
Qed.


(** ** A successful [generateInvoice], step by step *)

Lemma generateInvoice_success tz now dto db db' r :
  generateInvoice tz now dto db = (db', inr r) →
  ∃ c t number,
    findCustomer db (dto_customerId dto) = Some c
    ∧ findTier db (tierId c) = Some t
    ∧ findInvoice db (invoice_id_seq db) = None
    ∧ let n := usageHistory_count (dto_customerId dto) (dto_periodStart dto)
                                  (dto_periodEnd dto) db in
      let iid := invoice_id_seq db in
      let row := mkInvoice iid number (dto_customerId dto) (dto_periodStart dto)
                   (dto_periodEnd dto) n (price t) PENDING
                   (JsDate.setDate tz now (JsDate.getDate tz now + 7))
                   None None now in
      let rows :=
        [ mkInvoiceLineItem (lineItem_id_seq db) iid
            (tier_name t +:+ " Plan - " +:+ monthYear tz (dto_periodStart dto))
            1 (price t) (price t) now;
          mkInvoiceLineItem (lineItem_id_seq db + 1) iid
            ("API Calls: " +:+ toLocaleString n +:+ " requests") n 0 0 now ] in
      db' = mkDB (tiers db) (customers db) (usageHistory db)
                 (invoices db ++ [row]) (lineItems db ++ rows)
                 (invoice_id_seq db + 1) (lineItem_id_seq db + 2)
      ∧ getInvoiceById iid db' = (db', inr r).
Proof.
  unfold generateInvoice, bind, checkForDuplicateInvoice, query, attempt, throw.
  intros H.
  case_bool_decide as Hdup; [discriminate|].
  unfold customer_with_tier in H.
  destruct (findCustomer db (dto_customerId dto)) as [c|] eqn:Hc; [|discriminate].
  destruct (findTier db (tierId c)) as [t|] eqn:Ht; [|discriminate].
  unfold calculateUsageForPeriod, bind, query, ret in H.
  unfold generateInvoiceNumber, bind, query, ret in H.
  cbn [usage] in H.
  match type of H with
  | context [invoice_create ?a ?b ?c ?d ?e ?f ?g ?h ?i db] =>
      destruct (invoice_create a b c d e f g h i db) as [db1 [e1|row]] eqn:Hcreate;
      [discriminate|]; set (number := b) in *
  end.
  apply invoice_create_inr in Hcreate as (Hfresh & -> & ->).
  cbn [id] in H.
  unfold createInvoiceLineItems, bind, attempt, throw, customer_with_tier in H.
  change (findCustomer (with_invoices db _ _) ?x) with (findCustomer db x) in H.
  rewrite Hc in H.
  change (findTier (with_invoices db _ _) ?x) with (findTier db x) in H.
  rewrite Ht in H.
  unfold calculateUsageForPeriod, bind, query, ret in H. cbn [usage] in H.
  change (usageHistory_count ?a ?b ?c (with_invoices db _ _))
    with (usageHistory_count a b c db) in H.
  match type of H with
  | context [invoiceLineItem_createMany ?a ?b ?c ?d] =>
      destruct (invoiceLineItem_createMany a b c d) as [db2 [e2|[]]] eqn:Hmany;
      [discriminate|]
  end.
  apply createMany_inr in Hmany as ->.
  exists c, t, number. split; [done|]. split; [done|]. split; [done|].
  cbn zeta.
  assert (db' = (getInvoiceById (invoice_id_seq db) db').1) as Hst by reflexivity.
  pose proof (f_equal fst H) as Hfst. cbn [fst] in Hfst.
  rewrite getInvoiceById_state in Hfst. subst db'.
  split; [reflexivity | exact H].
Qed.

(** C2: after a successful [generateInvoice], [getInvoiceById] returns the
    same record again; its status is [PENDING], its amount the price of
    the customer's tier, its [totalUsage] the number of the customer's
    usage rows with [periodStart <= timestamp < periodEnd], and it has
    exactly two line items: the tier plan at quantity 1 with unit price
    and amount equal to the tier price, and the [API Calls] line with the
    usage count as quantity at unit price 0 and amount 0.  The store is
    assumed to respect the foreign key from line items to invoices. *)
Theorem generateInvoice_getInvoiceById tz now dto db db' r :
  lineItems_fk db →
  generateInvoice tz now dto db = (db', inr r) →
  getInvoiceById (r_id r) db' = (db', inr r)
  ∧ r_status r = PENDING
  ∧ ∃ c t,
      findCustomer db (dto_customerId dto) = Some c
      ∧ findTier db (tierId c) = Some t
      ∧ r_amount r = price t
      ∧ r_totalUsage r
        = Z.of_nat (length (filter
            (λ u, uh_customerId u = dto_customerId dto
                  ∧ dto_periodStart dto ≤ timestamp u
                  ∧ timestamp u < dto_periodEnd dto)
            (usageHistory db)))
      ∧ ∃ id1 id2 ts,
          r_lineItems r
          = [ mkInvoiceLineItemResponseDto id1
                (tier_name t +:+ " Plan - " +:+ monthYear tz (dto_periodStart dto))
                1 (price t) (price t) ts;
              mkInvoiceLineItemResponseDto id2
                ("API Calls: " +:+ toLocaleString (r_totalUsage r) +:+ " requests")
                (r_totalUsage r) 0 0 ts ].
Proof.
  intros Hfk Hgen.
  apply generateInvoice_success in Hgen
    as (c & t & number & Hc & Ht & Hfresh & Hdb & Hget).
  cbn zeta in Hdb, Hget. subst db'.
  pose proof Hget as Hget'.
  unfold getInvoiceById, attempt in Hget'.
  unfold findInvoice in Hget'. cbn [invoices] in Hget'.
  rewrite (find_snoc_None _ _ _ Hfresh) in Hget'. cbn [id] in Hget'.
  rewrite bool_decide_eq_true_2 in Hget' by done.
  cbn [customerId] in Hget'.
  change (findCustomer (mkDB _ (customers db) _ _ _ _ _) ?x)
    with (findCustomer db x) in Hget'.
  rewrite Hc in Hget'. cbn [lineItems] in Hget'.
  rewrite List.filter_app in Hget'.
  rewrite (filter_none _ (lineItems db)) in Hget'.
  2:{ intros l Hl. apply bool_decide_eq_false_2. intros Heq.
      destruct (Hfk l Hl) as [i Hi]. rewrite Heq in Hi. congruence. }
  cbn [List.filter app invoiceId] in Hget'.
  rewrite !bool_decide_eq_true_2 in Hget' by done.
  cbn [fmap list_fmap lineItem_response] in Hget'.
  apply (f_equal snd) in Hget'. cbn [snd] in Hget'.
  apply (inj inr) in Hget'. subst r.
  cbn [r_id r_status r_amount r_totalUsage r_lineItems].
  split; [exact Hget|]. split; [done|].
  exists c, t. split; [done|]. split; [done|]. split; [done|].
  split; [apply usageHistory_count_spec|].
  by eexists _, _, _.
Qed.

Lemma lineItems_fk_db_fresh : lineItems_fk Scenarios.db_fresh.
Proof. intros l Hl. by apply not_elem_of_nil in Hl. Qed.


Lemma generateInvoice_getInvoiceById_witness :
  ∃ r,
    generateInvoice 0 Scenarios.now_feb10 Scenarios.dto_jan15 Scenarios.db_fresh
    = (Scenarios.db_invoiced, inr r)
    ∧ getInvoiceById (r_id r) Scenarios.db_invoiced = (Scenarios.db_invoiced, inr r)
    ∧ r_status r = PENDING.
Proof.
  assert (∃ r, generateInvoice 0 Scenarios.now_feb10 Scenarios.dto_jan15
                 Scenarios.db_fresh = (Scenarios.db_invoiced, inr r)) as [r Hr].
  { eexists. vm_compute. reflexivity. }
  exists r. split; [exact Hr|].
  destruct (generateInvoice_getInvoiceById _ _ _ _ _ _ lineItems_fk_db_fresh Hr)
    as (H1 & H2 & _).
  split; [exact H1 | exact H2].
Defined.

(** ** Duplicate periods *)

Lemma generateInvoice_rejects_existing tz now dto db i :
  i ∈ invoices db →
  customerId i = dto_customerId dto →
  periodStart i = dto_periodStart dto →
  periodEnd i = dto_periodEnd dto →
  generateInvoice tz now dto db
  = (db, inl (BadRequestException "Invoice already exists for customer for period")).
Proof.
  intros Hi H1 H2 H3.
  unfold generateInvoice, bind, checkForDuplicateInvoice, query, throw.
  rewrite bool_decide_eq_true_2; [done|].
  apply (find_elem_of _ _ i Hi).
  by rewrite !andb_true_iff, !bool_decide_eq_true.
Qed.

(** C6: when the store already holds an invoice with the same customer,
    [periodStart] and [periodEnd] - in particular when the store is the one
    a successful [generateInvoice] with the same arguments has just left -
    [generateInvoice] throws the bad-request (duplicate) error and the
    store, invoices and line items included, is what it was. *)
Theorem generateInvoice_duplicate tz now dto db :
  (∃ i, i ∈ invoices db
        ∧ customerId i = dto_customerId dto
        ∧ periodStart i = dto_periodStart dto
        ∧ periodEnd i = dto_periodEnd dto)
  ∨ (∃ tz0 now0 db0 r, generateInvoice tz0 now0 dto db0 = (db, inr r)) →
  generateInvoice tz now dto db
  = (db, inl (BadRequestException "Invoice already exists for customer for period")).
Proof.
  intros [(i & Hi & H1 & H2 & H3) | (tz0 & now0 & db0 & r & Hgen)].
  - by apply (generateInvoice_rejects_existing tz now dto db i).
  - apply generateInvoice_success in Hgen
      as (c & t & number & _ & _ & _ & Hdb & _).
    cbn zeta in Hdb. subst db.
    eapply generateInvoice_rejects_existing.
    + cbn [invoices]. apply elem_of_app. right. apply list_elem_of_here.
    + reflexivity.
    + reflexivity.
    + reflexivity.
Qed.

Lemma generateInvoice_duplicate_witness :
  generateInvoice 0 (JsDate.utc 2024 2 11 0 0) Scenarios.dto_jan15 Scenarios.db_invoiced
  = (Scenarios.db_invoiced,
     inl (BadRequestException "Invoice already exists for customer for period")).
Proof.
  apply generateInvoice_duplicate. right.
  exists 0, Scenarios.now_feb10, Scenarios.db_fresh.
  eexists. vm_compute. reflexivity.
Defined.


(** ** Status updates *)

Lemma findInvoice_id db iid i : findInvoice db iid = Some i → id i = iid.
Proof.
  unfold findInvoice. intros H. apply List.find_some in H as [_ H].
  by apply bool_decide_eq_true in H.
Qed.

Lemma id_patched iid dto i : id (patched iid dto i) = id i.
Proof. unfold patched. by case_bool_decide. Qed.

Lemma findInvoice_patched iid dto db seq i :
  findInvoice db iid = Some i →
  findInvoice (with_invoices db (patched iid dto <$> invoices db) seq) iid
  = Some (patch_invoice dto i).
Proof.
  intros Hi. pose proof (findInvoice_id _ _ _ Hi) as Hid.
  unfold findInvoice in *. cbn [invoices with_invoices].
  rewrite find_fmap_preserve by (intros x; by rewrite id_patched).
  rewrite Hi. cbn. unfold patched. by rewrite bool_decide_eq_true_2.
Qed.

(** [updateInvoiceStatus] without a [stripeInvoiceId] in the update: it
    returns as soon as the invoice and its customer are there. *)
Lemma updateInvoiceStatus_no_stripe iid st pa db i c :
  findInvoice db iid = Some i →
  findCustomer db (customerId i) = Some c →
  let dto := mkUpdateInvoiceStatusDto st pa Undefined in
  let db1 := with_invoices db (patched iid dto <$> invoices db) (invoice_id_seq db) in
  ∃ r, updateInvoiceStatus iid dto db = (db1, inr r)
       ∧ r_status r = st
       ∧ r_paidAt r = apply_patch pa (paidAt i)
       ∧ findInvoice db1 iid = Some (patch_invoice dto i)
       ∧ findCustomer db1 (customerId (patch_invoice dto i)) = Some c.
Proof.
  intros Hi Hc. cbn zeta.
  unfold updateInvoiceStatus, bind, query, throw. rewrite Hi.
  unfold invoice_update. cbn [upd_stripeInvoiceId].
  unfold getInvoiceById, attempt.
  rewrite (findInvoice_patched _ _ _ _ _ Hi).
  cbn [customerId patch_invoice].
  change (findCustomer (with_invoices db _ _) ?x) with (findCustomer db x).
  rewrite Hc. eexists. split; [reflexivity|].
  split; [reflexivity|]. split; [reflexivity|].
  split; reflexivity.
Qed.

Lemma updateInvoiceStatus_inr iid dto db db1 r :
  updateInvoiceStatus iid dto db = (db1, inr r) →
  ∃ i c, findInvoice db iid = Some i ∧ findCustomer db (customerId i) = Some c.
Proof.
  unfold updateInvoiceStatus, bind, query, throw.
  destruct (findInvoice db iid) as [i|] eqn:Hi; [|discriminate].
  unfold invoice_update.
  destruct (match upd_stripeInvoiceId dto with Value s => _ | _ => false end);
    [discriminate|].
  unfold getInvoiceById, attempt. rewrite (findInvoice_patched _ _ _ _ _ Hi).
  cbn [customerId patch_invoice].
  change (findCustomer (with_invoices db _ _) ?x) with (findCustomer db x).
  destruct (findCustomer db (customerId i)) as [c|] eqn:Hc; [|discriminate].
  eauto.
Qed.

(** C8, as stated, fails: [markInvoiceAsPaid] writes [paidAt] on every
    call.  Two calls a day apart on the invoice of [db_invoiced] leave the
    second instant in [paidAt]. *)
Lemma markInvoiceAsPaid_second_call_moves_paidAt :
  let t1 := JsDate.utc 2024 2 20 9 0 in
  let t2 := JsDate.utc 2024 2 21 9 0 in
  ∃ db1 r1 db2 r2,
    markInvoiceAsPaid t1 1 None Scenarios.db_invoiced = (db1, inr r1)
    ∧ markInvoiceAsPaid t2 1 None db1 = (db2, inr r2)
    ∧ r_status r2 = PAID
    ∧ r_paidAt r1 = Some t1
    ∧ r_paidAt r2 = Some t2
    ∧ r_paidAt r2 ≠ r_paidAt r1.
Proof.
  cbn zeta. eexists _, _, _, _.
  split; [vm_compute; reflexivity|].
  split; [vm_compute; reflexivity|].
  vm_compute. repeat split; discriminate.
Qed.

(** C8 (amended): a second [markInvoiceAsPaid] after a successful first
    one returns as well and leaves the status [PAID], and it sets [paidAt]
    again, to its own [paidAt] argument or, without one, to the instant of
    the second call; [paidAt] is the value of the first call only when
    these agree. *)
Theorem markInvoiceAsPaid_twice now1 arg1 now2 arg2 iid db db1 r1 :
  markInvoiceAsPaid now1 iid arg1 db = (db1, inr r1) →
  ∃ db2 r2,
    markInvoiceAsPaid now2 iid arg2 db1 = (db2, inr r2)
    ∧ r_status r1 = PAID ∧ r_status r2 = PAID
    ∧ r_paidAt r1 = Some (default now1 arg1)
    ∧ r_paidAt r2 = Some (default now2 arg2)
    ∧ (r_paidAt r2 = r_paidAt r1 ↔ default now2 arg2 = default now1 arg1).
Proof.
  unfold markInvoiceAsPaid. intros H1.
  destruct (updateInvoiceStatus_inr _ _ _ _ _ H1) as (i & c & Hi & Hc).
  destruct (updateInvoiceStatus_no_stripe iid PAID (Value (default now1 arg1))
              db i c Hi Hc) as (r1' & Hr1 & Hs1 & Hp1 & Hi1 & Hc1).
  rewrite Hr1 in H1. injection H1 as <- <-.
  destruct (updateInvoiceStatus_no_stripe iid PAID (Value (default now2 arg2))
              _ _ c Hi1 Hc1) as (r2 & Hr2 & Hs2 & Hp2 & _).
  eexists _, r2. split; [exact Hr2|].
  cbn [apply_patch] in Hp1, Hp2. rewrite Hp1, Hp2.
  split; [done|]. split; [done|]. split; [done|]. split; [done|].
  split; congruence.
Qed.

Lemma markInvoiceAsPaid_twice_witness :
  ∃ db2 r2,
    markInvoiceAsPaid (JsDate.utc 2024 2 21 9 0) 1 None
      (markInvoiceAsPaid (JsDate.utc 2024 2 20 9 0) 1 None Scenarios.db_invoiced).1
    = (db2, inr r2)
    ∧ r_status r2 = PAID
    ∧ r_paidAt r2 = Some (JsDate.utc 2024 2 21 9 0).
Proof.
  assert (∃ r1, markInvoiceAsPaid (JsDate.utc 2024 2 20 9 0) 1 None Scenarios.db_invoiced
                = ((markInvoiceAsPaid (JsDate.utc 2024 2 20 9 0) 1 None
                      Scenarios.db_invoiced).1, inr r1)) as [r1 H1].
  { eexists. vm_compute. reflexivity. }
  destruct (markInvoiceAsPaid_twice _ None (JsDate.utc 2024 2 21 9 0) None _ _ _ _ H1)
    as (db2 & r2 & H2 & _ & Hs & _ & Hp & _).
  exists db2, r2. split; [exact H2|]. split; [exact Hs | exact Hp].
Defined.


(** ** The invariant [status = PAID] implies [paidAt] set *)

Lemma paid_has_paidAt_snoc db db1 :
  paid_has_paidAt db →
  invoices db1 = invoices db
  ∨ (∃ row, status row = PENDING ∧ paidAt row = None
            ∧ invoices db1 = invoices db ++ [row]) →
  paid_has_paidAt db1.
Proof.
  intros Hinv [Heq | (r & Hst & _ & Heq)] i Hi Hpaid; rewrite Heq in Hi.
  - by apply Hinv.
  - apply elem_of_app in Hi as [Hi | Hi]; [by apply Hinv|].
    apply list_elem_of_singleton in Hi. subst i. congruence.
Qed.

Lemma paid_has_paidAt_fmap (f : Invoice → Invoice) db db1 :
  paid_has_paidAt db →
  (∀ i, f i = i ∨ status (f i) ≠ PAID ∨ paidAt (f i) ≠ None) →
  invoices db1 = invoices db ∨ invoices db1 = f <$> invoices db →
  paid_has_paidAt db1.
Proof.
  intros Hinv Hf [Heq | Heq] i Hi Hpaid; rewrite Heq in Hi.
  - by apply Hinv.
  - apply list_elem_of_fmap in Hi as (j & -> & Hj).
    destruct (Hf j) as [Hid | [Hst | Hpa]]; [|done..].
    rewrite Hid in *. by apply Hinv.
Qed.

Lemma updateInvoiceStatus_invoices iid dto db :
  invoices (updateInvoiceStatus iid dto db).1 = invoices db
  ∨ invoices (updateInvoiceStatus iid dto db).1 = patched iid dto <$> invoices db.
Proof.
  unfold updateInvoiceStatus, bind, query, throw.
  destruct (findInvoice db iid); [|by left].
  unfold invoice_update.
  destruct (match upd_stripeInvoiceId dto with Value s => _ | _ => false end);
    [by left|].
  right. reflexivity.
Qed.

Lemma patched_keeps_invariant iid dto :
  (upd_status dto = PAID → ∃ t, upd_paidAt dto = Value t) →
  ∀ i, patched iid dto i = i
       ∨ status (patched iid dto i) ≠ PAID
       ∨ paidAt (patched iid dto i) ≠ None.
Proof.
  intros Hdto i. unfold patched. case_bool_decide; [|by left].
  right. cbn [status paidAt patch_invoice].
  destruct (decide (upd_status dto = PAID)) as [Hp|Hp]; [|by left].
  right. destruct (Hdto Hp) as [t ->]. done.
Qed.

Lemma swept_keeps_invariant now i :
  swept now i = i ∨ status (swept now i) ≠ PAID ∨ paidAt (swept now i) ≠ None.
Proof. unfold swept. destruct (is_overdue now i); [right; by left | by left]. Qed.

Lemma run_op_keeps_invariant op db :
  supplies_paidAt op → paid_has_paidAt db → paid_has_paidAt (run_op op db).
Proof.
  intros Hop Hinv. destruct op as [tz now dto | iid dto | now iid arg | now];
    cbn [run_op supplies_paidAt] in *.
  - apply (paid_has_paidAt_snoc db); [done|]. apply generateInvoice_invoices.
  - apply (paid_has_paidAt_fmap (patched iid dto) db); [done| |].
    + by apply patched_keeps_invariant.
    + apply updateInvoiceStatus_invoices.
  - unfold markInvoiceAsPaid.
    eapply (paid_has_paidAt_fmap _ db); [done| |apply updateInvoiceStatus_invoices].
    apply patched_keeps_invariant. cbn. eauto.
  - apply (paid_has_paidAt_fmap (swept now) db); [done| |by right].
    apply swept_keeps_invariant.
Qed.

(** C9, as stated, fails: [updateInvoiceStatus] writes the status it is
    given and writes [paidAt] only when the update carries one.  Setting
    the pending invoice of [db_invoiced] to [PAID] without a [paidAt]
    leaves a paid invoice whose [paidAt] is [NULL]. *)
Lemma updateInvoiceStatus_paid_without_paidAt :
  let op := OpUpdateInvoiceStatus 1 (mkUpdateInvoiceStatusDto PAID Undefined Undefined) in
  paid_has_paidAt Scenarios.db_invoiced
  ∧ ¬ paid_has_paidAt (run_ops [op] Scenarios.db_invoiced).
Proof.
  cbn zeta. split.
  - intros i Hi Hpaid. vm_compute in Hi.
    apply list_elem_of_singleton in Hi. subst i. discriminate.
  - intros Hinv.
    assert (∃ i, i ∈ invoices (run_ops
              [OpUpdateInvoiceStatus 1 (mkUpdateInvoiceStatusDto PAID Undefined Undefined)]
              Scenarios.db_invoiced)
            ∧ status i = PAID ∧ paidAt i = None) as (i & Hi & Hst & Hpa).
    { eexists. split; [vm_compute; apply list_elem_of_here|]. by split. }
    by apply (Hinv i Hi Hst).
Qed.

(** C9 (amended): [status = PAID] implies [paidAt] is not [NULL] on every
    invoice after every sequence of [generateInvoice],
    [updateInvoiceStatus], [markInvoiceAsPaid] and [markOverdueInvoices]
    started from a store where it holds, provided each
    [updateInvoiceStatus] of the sequence that sets [PAID] carries a
    [paidAt] value.  It holds whether the operations return or throw. *)
Theorem paid_has_paidAt_invariant (ops : list Op) (db : DB) :
  paid_has_paidAt db →
  Forall supplies_paidAt ops →
  paid_has_paidAt (run_ops ops db).
Proof.
  intros Hinv Hops. revert db Hinv.
  induction Hops as [|op ops Hop _ IH]; intros db Hinv; [exact Hinv|].
  cbn [run_ops foldl]. apply IH. by apply run_op_keeps_invariant.
Qed.

Lemma paid_has_paidAt_invariant_witness :
  paid_has_paidAt
    (run_ops [ OpGenerateInvoice 0 Scenarios.now_feb10 Scenarios.dto_jan15;
               OpMarkOverdueInvoices (JsDate.utc 2024 2 20 0 0);
               OpUpdateInvoiceStatus 1
                 (mkUpdateInvoiceStatusDto PAID (Value (JsDate.utc 2024 2 21 0 0))
                                           (Value "in_1"));
               OpMarkInvoiceAsPaid (JsDate.utc 2024 2 22 0 0) 1 None ]
             Scenarios.db_fresh).
Proof.
  apply paid_has_paidAt_invariant.
  - intros i Hi. by apply not_elem_of_nil in Hi.
  - repeat constructor. cbn. eauto.
Defined.

End InvoiceFacts.

(* ===================================================================== *)
(** * Properties of the limiter under serial admission *)
(* ===================================================================== *)

Module RateLimitRunFacts.
Import RateLimit RateLimitRun.

Lemma checkAndIncrement_counting tz now cid quota (r : gmap string UsageMap) c m :
  r !! rateKey cid = Some (mkUsageMap (Some c) (Some m)) →
  now ≤ m →
  checkAndIncrement tz now cid quota r
  = if bool_decide (c < quota) then
      (<[rateKey cid := mkUsageMap (Some (c + 1)) (Some m)]> r,
       mkDecision true (Some (quota - c)) (StoredResetAt (Some m)))
    else (r, mkDecision false (Some 0) (StoredResetAt (Some m))).
Proof.
  intros Hk Hnow. unfold checkAndIncrement. rewrite Hk. cbn.
  destruct (Z.ltb_spec m now); [lia|].
  destruct (Z.leb_spec quota c).
  - by rewrite bool_decide_eq_false_2 by lia.
  - rewrite bool_decide_eq_true_2 by lia. unfold hset_count. by rewrite Hk.
Qed.

Lemma serve_counting tz cid quota m (times : list Z) :
  ∀ (k : nat) (r : gmap string UsageMap),
    r !! rateKey cid
      = Some (mkUsageMap (Some (Z.min (Z.of_nat k) quota)) (Some m)) →
    0 ≤ quota →
    Forall (λ t, t ≤ m) times →
    let out := serve tz cid quota times r in
    out.1 = nth_decision quota m <$> seq k (length times)
    ∧ out.2 !! rateKey cid
      = Some (mkUsageMap (Some (Z.min (Z.of_nat (k + length times)) quota)) (Some m))
    ∧ ∀ key, key ≠ rateKey cid → out.2 !! key = r !! key.
Proof.
  induction times as [|t times IH]; intros k r Hk Hq Hts; cbn zeta.
  - cbn. rewrite Nat.add_0_r. done.
  - apply Forall_cons in Hts as [Ht Hts].
    cbn [serve].
    rewrite (checkAndIncrement_counting _ _ _ _ _ _ _ Hk Ht).
    case_bool_decide as Hc.
    + assert (Z.of_nat k < quota) as Hk' by lia.
      replace (Z.min (Z.of_nat k) quota + 1) with (Z.min (Z.of_nat (S k)) quota) by lia.
      specialize (IH (S k)
        (<[rateKey cid := mkUsageMap (Some (Z.min (Z.of_nat (S k)) quota)) (Some m)]> r)
        (lookup_insert_eq _ _ _) Hq Hts).
      cbn zeta in IH.
      destruct (serve tz cid quota times _) as [ds r2]. cbn [fst snd] in *.
      destruct IH as (IH1 & IH2 & IH3).
      split; [|split].
      * cbn [length seq fmap list_fmap]. rewrite <- IH1. f_equal.
        unfold nth_decision. rewrite bool_decide_eq_true_2 by done.
        do 3 f_equal. lia.
      * rewrite IH2. do 3 f_equal. cbn [length]. lia.
      * intros key Hkey. rewrite IH3 by done. by rewrite lookup_insert_ne.
    + assert (quota ≤ Z.of_nat k) as Hk' by lia.
      assert (r !! rateKey cid
              = Some (mkUsageMap (Some (Z.min (Z.of_nat (S k)) quota)) (Some m))) as Hk2.
      { rewrite Hk. do 3 f_equal. lia. }
      specialize (IH (S k) r Hk2 Hq Hts). cbn zeta in IH.
      destruct (serve tz cid quota times r) as [ds r2]. cbn [fst snd] in *.
      destruct IH as (IH1 & IH2 & IH3).
      split; [|split].
      * cbn [length seq fmap list_fmap]. rewrite <- IH1. f_equal.
        unfold nth_decision. by rewrite bool_decide_eq_false_2 by lia.
      * rewrite IH2. do 3 f_equal. cbn [length]. lia.
      * done.
Qed.

(** X1: requests served one after the other in one window.  From a
    customer without a counter, with a quota of at least 1, the first
    request opens the window and the requests that arrive no later than
    its midnight are admitted exactly while fewer than [quota] have been
    admitted before them; the stored count ends at the smaller of the
    number of requests and the quota, and never passes the quota. *)
Theorem serve_allows_exactly_quota tz cid quota t0 (times : list Z)
    (r : gmap string UsageMap) :
  r !! rateKey cid = None →
  1 ≤ quota →
  Forall (λ t, t ≤ JsDate.setHours24 tz t0) times →
  let out := serve tz cid quota (t0 :: times) r in
  allowed <$> out.1
    = (λ i, bool_decide (Z.of_nat i < quota)) <$> seq 0 (S (length times))
  ∧ out.2 !! rateKey cid
    = Some (mkUsageMap (Some (Z.min (Z.of_nat (S (length times))) quota))
                       (Some (JsDate.setHours24 tz t0))).
Proof.
  intros Hnone Hq Hts. cbn zeta. cbn [serve].
  assert (checkAndIncrement tz t0 cid quota r
          = resetWindow tz t0 (rateKey cid) quota r) as ->.
  { unfold checkAndIncrement. by rewrite Hnone. }
  rewrite RateLimitFacts.resetWindow_spec.
  set (m := JsDate.setHours24 tz t0) in *.
  pose proof (serve_counting tz cid quota m times 1
                (<[rateKey cid := mkUsageMap (Some 1) (Some m)]> r)) as H.
  rewrite lookup_insert_eq in H.
  specialize (H ltac:(do 3 f_equal; lia) ltac:(lia) Hts). cbn zeta in H.
  destruct (serve tz cid quota times _) as [ds r2]. cbn [fst snd] in *.
  destruct H as (H1 & H2 & _). split.
  - cbn [fmap list_fmap allowed seq]. rewrite bool_decide_eq_true_2 by lia.
    f_equal. rewrite H1, <- list_fmap_compose.
    apply list_fmap_ext. intros i x _. cbn. unfold nth_decision.
    by case_bool_decide.
  - rewrite H2. do 3 f_equal.
Qed.

Lemma serve_allows_exactly_quota_witness :
  allowed <$> (serve 0 "7" 2 [JsDate.utc 2024 1 1 9 0; JsDate.utc 2024 1 1 10 0;
                               JsDate.utc 2024 1 1 11 0] ∅).1
  = [true; true; false].
Proof.
  destruct (serve_allows_exactly_quota 0 "7" 2 (JsDate.utc 2024 1 1 9 0)
              [JsDate.utc 2024 1 1 10 0; JsDate.utc 2024 1 1 11 0] ∅) as [H _].
  - apply lookup_empty.
  - lia.
  - repeat constructor; vm_compute; discriminate.
  - exact H.
Defined.

(** X2: what [remaining] reports.  In a window opened by a reset, the
    request that opens it and the one after it both report
    [quota - 1]: past the first, an admitted request reports the quota
    minus the count it found, which is one more than what is left once it
    is counted. *)
Theorem remaining_repeats_after_reset tz cid quota t0 t1 (r : gmap string UsageMap) :
  r !! rateKey cid = None →
  2 ≤ quota →
  t1 ≤ JsDate.setHours24 tz t0 →
  let out := serve tz cid quota [t0; t1] r in
  remaining <$> out.1 = [Some (quota - 1); Some (quota - 1)]
  ∧ count <$> (out.2 !! rateKey cid) = Some (Some 2).
Proof.
  intros Hnone Hq Ht. cbn zeta. cbn [serve].
  assert (checkAndIncrement tz t0 cid quota r
          = resetWindow tz t0 (rateKey cid) quota r) as ->.
  { unfold checkAndIncrement. by rewrite Hnone. }
  rewrite RateLimitFacts.resetWindow_spec.
  rewrite (checkAndIncrement_counting tz t1 cid quota _ 1 (JsDate.setHours24 tz t0))
    by (by rewrite ?lookup_insert_eq).
  rewrite bool_decide_eq_true_2 by lia. cbn.
  by rewrite lookup_insert_eq.
Qed.

Lemma remaining_repeats_after_reset_witness :
  remaining <$> (serve 0 "7" 100 [JsDate.utc 2024 1 1 9 0; JsDate.utc 2024 1 1 10 0] ∅).1
  = [Some 99; Some 99].
Proof.
  destruct (remaining_repeats_after_reset 0 "7" 100 (JsDate.utc 2024 1 1 9 0)
              (JsDate.utc 2024 1 1 10 0) ∅) as [H _].
  - apply lookup_empty.
  - lia.
  - vm_compute. discriminate.
  - exact H.
Defined.

End RateLimitRunFacts.

(* ===================================================================== *)
(** * More properties of the proxy forwarder *)
(* ===================================================================== *)

Module ProxyMoreFacts.
Import Proxy.

Lemma substring_all (s : string) : String.substring 0 (String.length s) s = s.
Proof. induction s as [|c s IH]; cbn; [done | by rewrite IH]. Qed.

(** X3: what [urlPath] strips.  A request target that starts with [/api]
    loses exactly that one prefix, whatever follows it (a path, a query
    string, another [/api], or a letter as in [/apix]); when nothing
    follows, the path is [/]. *)
Theorem urlPath_strips_one_prefix (rest : string) :
  urlPath ("/api" +:+ rest) = if decide (rest = EmptyString) then "/" else rest.
Proof.
  unfold urlPath.
  change ("/api" +:+ rest)
    with (String "/" (String "a" (String "p" (String "i" rest)))).
  cbn [String.prefix String.length String.substring Nat.sub]. simpl.
  replace (String.prefix EmptyString rest) with true by (by destruct rest).
  rewrite Nat.sub_0_r. by rewrite substring_all.
Qed.

Lemma upstreamCall_headers cfg req c :
  upstreamCall cfg req = Some c → call_headers c = cleanHeaders (headers req).
Proof.
  unfold upstreamCall. intros H. repeat case_decide; by simplify_eq.
Qed.

Lemma forwardRequests_calls cfg http req c :
  c ∈ (forwardRequests cfg http req).1 → upstreamCall cfg req = Some c.
Proof.
  unfold forwardRequests.
  destruct (upstreamCall cfg req) as [c'|]; cbn.
  - destruct (http c'); cbn; intros H; apply list_elem_of_singleton in H; by subst.
  - intros H. by apply not_elem_of_nil in H.
Qed.

(** X4: the headers that go upstream.  Every upstream call carries the
    request's headers in their order except those whose name, in lower
    case, is one of [host], [x-api-key], [x-forwarded-for], [x-real-ip],
    [connection], [content-length], [content-type]: none of these goes
    upstream in any spelling, and no other header is dropped. *)
Theorem forwarded_headers_are_sanitized cfg http req c k v :
  c ∈ (forwardRequests cfg http req).1 →
  ((k, v) ∈ call_headers c
   ↔ (k, v) ∈ headers req ∧ toLowerCase k ∉ headersToRemove)
  ∧ call_headers c `sublist_of` headers req.
Proof.
  intros Hc. apply forwardRequests_calls, upstreamCall_headers in Hc. rewrite Hc.
  unfold cleanHeaders. split.
  - rewrite list_elem_of_filter. cbn. tauto.
  - apply sublist_filter.
Qed.

Lemma forwarded_headers_are_sanitized_witness :
  ("x-api-key", "k1") ∉ call_headers
     (mkHttpCall "GET" "https://httpbin.org/get" None [("accept", "*/*")]).
Proof.
  intros Hin.
  destruct (forwarded_headers_are_sanitized (Some "https://httpbin.org")
              (λ _, Response "ok") Scenarios.req_jsonplaceholder
              (mkHttpCall "GET" "https://httpbin.org/get" None [("accept", "*/*")])
              "x-api-key" "k1") as [H _].
  - vm_compute. apply list_elem_of_here.
  - apply H in Hin as [_ Hno]. apply Hno. vm_compute.
    apply list_elem_of_further, list_elem_of_here.
Defined.

(** X5: methods the forwarder does not know.  For every method other than
    [GET], [POST], [PUT] and [DELETE] (so for [PATCH], [HEAD] and
    [OPTIONS], and for a known method in lower case) no upstream call is
    made and the request ends in the gateway error 502. *)
Theorem forwardRequests_unknown_method cfg http req :
  method req ∉ ["GET"; "POST"; "PUT"; "DELETE"] →
  forwardRequests cfg http req = ([], ThrewHttp "Gateway error" 502).
Proof.
  intros Hm. unfold forwardRequests, upstreamCall.
  repeat case_decide; try done; exfalso; apply Hm;
    match goal with H : method req = _ |- _ => rewrite H end;
    repeat constructor.
Qed.

Lemma forwardRequests_unknown_method_witness :
  forwardRequests (Some "https://httpbin.org") (λ _, Response "ok")
    (mkRequest "/api/anything" "PATCH" [] (Some "{}")
       (mkDeveloper 1 "d" "https://httpbin.org") (mkCustomer 1 "c@example.com" "Pro"))
  = ([], ThrewHttp "Gateway error" 502).
Proof.
  apply forwardRequests_unknown_method. cbn.
  intros H. repeat (apply elem_of_cons in H as [H|H]; [discriminate|]).
  by apply not_elem_of_nil in H.
Defined.

End ProxyMoreFacts.

(* ===================================================================== *)
(** * Properties of the usage buffer: what is kept, read back, and lost *)
(* ===================================================================== *)

Module UsageBufferFacts.
Import UsageTracking UsageBuffer.

Lemma command_accepted {A}
    (op : gmap string (list string) → gmap string (list string) * A) (w : World) :
  head (faults w) ≠ Some true →
  command op w
  = (mkWorld (op (lists w)).1 (console w) (tail (faults w)), inr (op (lists w)).2).
Proof.
  unfold command. destruct (faults w) as [|[] fs]; cbn; [|done|];
    intros _; by destruct (op (lists w)).
Qed.

Lemma command_rejected {A}
    (op : gmap string (list string) → gmap string (list string) * A) (w : World) :
  head (faults w) = Some true →
  command op w = (mkWorld (lists w) (console w) (tail (faults w)), inl RedisError).
Proof. unfold command. by destruct (faults w) as [|[] fs]. Qed.

Lemma no_fault_step (n : nat) (fs : list bool) :
  true ∉ take (S n) fs → head fs ≠ Some true ∧ true ∉ take n (tail fs).
Proof.
  destruct fs as [|b fs]; cbn.
  - intros _. split; [done|]. rewrite take_nil. apply not_elem_of_nil.
  - intros H. apply not_elem_of_cons in H as [Hb H]. split; [|done]. congruence.
Qed.

Lemma key_not_global (cid : string) :
  cid ≠ "all" → "usage:logs:" +:+ cid ≠ "usage:logs:all".
Proof.
  intros H Heq. apply H.
  change ("usage:logs:" +:+ cid = "usage:logs:" +:+ "all") in Heq.
  by apply (inj (String.append "usage:logs:")) in Heq.
Qed.

Section Facts.
Variable JSON_stringify : UsageLog → string.
Variable JSON_parse : string → option UsageLog.

(** The state after the four commands of [addUsageLog] were accepted. *)
Lemma addUsageLog_accepted (usage : UsageLog) (w : World) :
  true ∉ take 4 (faults w) →
  let ck := "usage:logs:" +:+ customerId usage in
  let j := JSON_stringify usage in
  let l1 := <[ck := take 1000 (j :: default [] (lists w !! ck))]> (lists w) in
  addUsageLog JSON_stringify usage w
  = (mkWorld (<["usage:logs:all" := take 5000 (j :: default [] (l1 !! "usage:logs:all"))]> l1)
             (console w ++ [ConsoleLog "Usage tracked:" usage])
             (drop 4 (faults w)),
     inr tt).
Proof.
  intros H4. cbn zeta.
  apply no_fault_step in H4 as [H1 H3]. apply no_fault_step in H3 as [H2 H3].
  apply no_fault_step in H3 as [H3 H4]. apply no_fault_step in H4 as [H4 _].
  unfold addUsageLog, try_catch, bind, lpush, ltrim, console_log.
  rewrite (command_accepted _ w H1). cbn [fst snd].
  rewrite command_accepted by exact H2. cbn [fst snd lists console faults].
  rewrite lookup_insert_eq. cbn [fst snd].
  rewrite command_accepted by exact H3. cbn [fst snd lists console faults].
  rewrite command_accepted by exact H4. cbn [fst snd lists console faults].
  rewrite lookup_insert_eq. cbn [fst snd].
  rewrite !insert_insert_eq.
  change (Z.to_nat (MAX_LOGS_PER_CUSTOMER - 1 - 0 + 1)) with 1000%nat.
  change (Z.to_nat (MAX_LOGS_TOTAL - 1 - 0 + 1)) with 5000%nat.
  change (Z.to_nat 0) with 0%nat. rewrite !drop_0.
  do 2 f_equal. destruct (faults w) as [|? [|? [|? [|? ?]]]]; reflexivity.
Qed.

(** X6: what a tracked request leaves in the buffers.  When the four
    Redis commands are accepted, the serialized record is the head of the
    customer's list and of the global list, each list is its old content
    behind it cut to 1,000 and 5,000 entries, and no other key changes. *)
Theorem addUsageLog_keeps_newest (usage : UsageLog) (w : World) :
  true ∉ take 4 (faults w) →
  customerId usage ≠ "all" →
  let out := addUsageLog JSON_stringify usage w in
  let ck := "usage:logs:" +:+ customerId usage in
  lists out.1 !! ck
    = Some (take 1000 (JSON_stringify usage :: default [] (lists w !! ck)))
  ∧ lists out.1 !! "usage:logs:all"
    = Some (take 5000 (JSON_stringify usage
                        :: default [] (lists w !! "usage:logs:all")))
  ∧ ∀ k, k ≠ ck → k ≠ "usage:logs:all" → lists out.1 !! k = lists w !! k.
Proof.
  intros H4 Hall. cbn zeta. rewrite (addUsageLog_accepted _ _ H4).
  cbn [fst lists].
  pose proof (key_not_global _ Hall) as Hne.
  split; [|split].
  - rewrite lookup_insert_ne by done. by rewrite lookup_insert_eq.
  - rewrite lookup_insert_eq. by rewrite lookup_insert_ne.
  - intros k Hk1 Hk2. by rewrite !lookup_insert_ne.
Qed.

Lemma parse_all_length {A} (parse : string → option A) (logs : list string) l :
  parse_all parse logs = inr l → length l = length logs.
Proof.
  revert l. induction logs as [|s logs IH]; cbn; intros l H; [by simplify_eq|].
  destruct (parse s); [|discriminate].
  destruct (parse_all parse logs) as [e|l']; [discriminate|].
  simplify_eq. cbn. by rewrite (IH l').
Qed.

Lemma parse_all_Forall {A} (parse : string → option A) (logs : list string) :
  Forall (λ s, is_Some (parse s)) logs →
  ∃ l, parse_all parse logs = inr l.
Proof.
  induction 1 as [|s logs [a Ha] _ [l IH]]; cbn; [by eexists|].
  rewrite Ha, IH. by eexists.
Qed.

(** X7: reading a customer's history never throws and returns at most 100
    records; when Redis rejects the read, or an entry among the newest 100
    does not parse, the result is the empty list. *)
Theorem getCustomerApiHistory_bounded (cid : string) (w : World) :
  let key := "usage:logs:" +:+ cid in
  ∃ l, (getCustomerApiHistory JSON_parse cid w).2 = inr l
       ∧ (length l ≤ 100)%nat
       ∧ (head (faults w) = Some true
          ∨ Exists (λ s, JSON_parse s = None) (take 100 (default [] (lists w !! key)))
          → l = []).
Proof.
  cbn zeta. unfold getCustomerApiHistory, try_catch, bind, lrange.
  destruct (decide (head (faults w) = Some true)) as [Hrej|Hacc].
  - rewrite (command_rejected _ w Hrej). cbn. eexists. split; [done|].
    split; [cbn; lia|done].
  - rewrite (command_accepted _ w Hacc). cbn [fst snd].
    change (Z.to_nat (99 - 0 + 1)) with 100%nat. change (Z.to_nat 0) with 0%nat.
    rewrite drop_0.
    set (logs := take 100 (default [] (lists w !! ("usage:logs:" +:+ cid)))).
    destruct (parse_all JSON_parse logs) as [e|l] eqn:Hp; cbn.
    + eexists. split; [done|]. split; [cbn; lia|done].
    + exists l. split; [done|]. apply parse_all_length in Hp as Hlen. split.
      * rewrite Hlen. subst logs. rewrite length_take. lia.
      * intros [?|Hex]; [done|]. exfalso.
        clear Hlen. revert l Hp. induction Hex as [s logs' Hs|s logs' _ IH];
          cbn; intros l Hp.
        -- by rewrite Hs in Hp.
        -- destruct (JSON_parse s); [|discriminate].
           destruct (parse_all JSON_parse logs') as [|l']; [discriminate|].
           by apply (IH l').
Qed.

(** X8: a tracked request can be read back.  After an [addUsageLog] whose
    commands were accepted, a history read that is accepted too returns
    the record as the first element, provided it parses back and the
    entries already buffered for the customer parse. *)
Theorem history_starts_with_last_request (usage usage' : UsageLog) (w : World) :
  true ∉ take 5 (faults w) →
  customerId usage ≠ "all" →
  JSON_parse (JSON_stringify usage) = Some usage' →
  Forall (λ s, is_Some (JSON_parse s))
         (default [] (lists w !! ("usage:logs:" +:+ customerId usage))) →
  ∃ rest,
    (getCustomerApiHistory JSON_parse (customerId usage)
       (addUsageLog JSON_stringify usage w).1).2
    = inr (usage' :: rest).
Proof.
  intros H5 Hall Hrt Hold.
  assert (true ∉ take 4 (faults w)) as H4.
  { intros Hin. apply H5. apply elem_of_take in Hin as (i & Hi & Hlt).
    apply elem_of_take. exists i. split; [done | lia]. }
  assert (head (drop 4 (faults w)) ≠ Some true) as Hfifth.
  { intros Hh. apply H5. apply elem_of_take. exists 4%nat. split; [|lia].
    destruct (faults w) as [|? [|? [|? [|? [|? ?]]]]]; cbn in *; congruence. }
  rewrite (addUsageLog_accepted _ _ H4). cbn [fst].
  unfold getCustomerApiHistory, try_catch, bind, lrange.
  rewrite command_accepted by exact Hfifth. cbn [fst snd lists].
  rewrite lookup_insert_ne by (by apply not_eq_sym, key_not_global).
  rewrite lookup_insert_eq.
  change (Z.to_nat (99 - 0 + 1)) with 100%nat. change (Z.to_nat 0) with 0%nat.
  rewrite drop_0.
  set (old := default [] (lists w !! ("usage:logs:" +:+ customerId usage))) in *.
  unfold default at 1. cbn [from_option id].
  rewrite (firstn_cons 999), (firstn_cons 99).
  cbn [parse_all]. rewrite Hrt.
  destruct (parse_all_Forall JSON_parse (take 99 (take 999 old))) as [l Hl].
  { apply Forall_take. by apply Forall_take. }
  rewrite Hl. by eexists.
Qed.

(** X9: a request tracked only half way.  When the push and the trim of the
    customer's list are accepted and the push to the global list is
    rejected, [addUsageLog] still returns normally; the record is then in
    the customer's list and not in the global list, the only one the
    drain job reads. *)
Theorem addUsageLog_global_push_rejected (usage : UsageLog) (w : World) fs :
  faults w = false :: false :: true :: fs →
  let ck := "usage:logs:" +:+ customerId usage in
  addUsageLog JSON_stringify usage w
  = (mkWorld (<[ck := take 1000 (JSON_stringify usage :: default [] (lists w !! ck))]>
                (lists w))
             (console w ++ [ConsoleError "Failed to track usage:" RedisError])
             fs,
     inr tt).
Proof.
  intros Hf. cbn zeta. destruct w as [l c f]. cbn in Hf. subst f.
  unfold addUsageLog, try_catch, bind, lpush, ltrim, command, console_error.
  cbn. rewrite lookup_insert_eq. cbn. by rewrite insert_insert_eq.
Qed.

End Facts.

Lemma addUsageLog_keeps_newest_witness :
  lists (addUsageLog (λ _, "{}") Scenarios2.usage_123 (mkWorld ∅ [] [])).1
    !! "usage:logs:all"
  = Some ["{}"].
Proof.
  destruct (addUsageLog_keeps_newest (λ _, "{}") Scenarios2.usage_123
              (mkWorld ∅ [] [])) as (_ & H & _).
  - cbn. apply not_elem_of_nil.
  - vm_compute. discriminate.
  - exact H.
Defined.

Lemma history_starts_with_last_request_witness :
  ∃ rest,
    (getCustomerApiHistory (λ _, Some Scenarios2.usage_123) "123"
       (addUsageLog (λ _, "{}") Scenarios2.usage_123 (mkWorld ∅ [] [])).1).2
    = inr (Scenarios2.usage_123 :: rest).
Proof.
  apply (history_starts_with_last_request (λ _, "{}") (λ _, Some Scenarios2.usage_123)
           Scenarios2.usage_123 Scenarios2.usage_123 (mkWorld ∅ [] [])).
  - cbn. apply not_elem_of_nil.
  - vm_compute. discriminate.
  - reflexivity.
  - cbn. constructor.
Defined.

Lemma addUsageLog_global_push_rejected_witness :
  (addUsageLog (λ _, "{}") Scenarios2.usage_123
     (mkWorld ∅ [] [false; false; true])).2 = inr tt.
Proof.
  by rewrite (addUsageLog_global_push_rejected (λ _, "{}") Scenarios2.usage_123
                (mkWorld ∅ [] [false; false; true]) []).
Defined.

End UsageBufferFacts.

(* ===================================================================== *)
(** * Properties of the drain job *)
(* ===================================================================== *)

Module DrainFacts.
Import UsageTracking UsageBuffer Drain.

Lemma take_nonempty {A} (n : nat) (l : list A) : l ≠ [] → take (S n) l ≠ [].
Proof. by destruct l. Qed.



Section Facts.
Variable takes_instant : Z → bool.
Variable parse_usage : string → option UsageData.



(** A batch the insert refuses stays where it is: nothing is written and
    the buffer keeps every entry, the refused one included. *)
Lemma flushToDb_refused_keeps_entries (w : World) (logs : list string)
    (data : list UsageData) :
  head (faults (buffer w)) ≠ Some true →
  lists (buffer w) !! "usage:logs:all" = Some logs →
  logs ≠ [] →
  parse_all parse_usage (take 100 logs) = inr data →
  forallb (valid_data takes_instant (customerIds w)) data = false →
  let out := (flushToDb takes_instant parse_usage w).1 in
  rows out = rows w ∧ lists (buffer out) = lists (buffer w).
Proof.
  intros H1 Hlist Hne Hparse Hvalid. cbn zeta.
  destruct w as [b rs sq cs down fl]. cbn in Hlist, H1, Hvalid |- *.
  unfold flushToDb, try_catch, bind, on_buffer, lrange. cbn [buffer].
  rewrite (UsageBufferFacts.command_accepted _ b H1). cbn [fst snd].
  rewrite Hlist. change (default [] (Some logs)) with logs.
  change (Z.to_nat (99 - 0 + 1)) with 100%nat. change (Z.to_nat 0) with 0%nat.
  rewrite drop_0.
  destruct (decide (take 100 logs = [])) as [Hnil|_];
    [by apply (take_nonempty 99) in Hne|].
  unfold with_buffer. cbn [fst snd]. rewrite Hparse.
  unfold usageHistory_createMany. cbn [dbDown customerIds rows usage_id_seq buffer flushed].
  rewrite Hvalid.
  destruct down; [by cbn|].
  destruct (forallb (storable takes_instant) data); by cbn.
Qed.

(** X10: the drain job never throws, and it writes all of the batch it
    read or nothing: the table afterwards is the table before, or the
    table before followed by one row for every one of the newest 100
    entries of the global list, numbered from the sequence. *)
Theorem flushToDb_all_or_nothing (w : World) :
  let out := flushToDb takes_instant parse_usage w in
  let logs := take 100 (default [] (lists (buffer w) !! "usage:logs:all")) in
  out.2 = inr tt
  ∧ (rows out.1 = rows w
     ∨ ∃ data, parse_all parse_usage logs = inr data
               ∧ rows out.1 = rows w ++ number_rows (usage_id_seq w) data).
Proof.
  cbn zeta. destruct w as [b rs sq cs down fl].
  unfold flushToDb, try_catch, bind, on_buffer, lrange. cbn [buffer rows usage_id_seq].
  change (Z.to_nat (99 - 0 + 1)) with 100%nat. change (Z.to_nat 0) with 0%nat.
  destruct (decide (head (faults b) = Some true)) as [Hr|Ha].
  { rewrite (UsageBufferFacts.command_rejected _ b Hr). cbn. split; [done | by left]. }
  rewrite (UsageBufferFacts.command_accepted _ b Ha). cbn [fst snd]. rewrite drop_0.
  set (logs := take 100 (default [] (lists b !! "usage:logs:all"))).
  destruct (decide (logs = [])); [cbn; split; [done | by left]|].
  unfold with_buffer. cbn [fst snd buffer rows usage_id_seq customerIds dbDown flushed].
  destruct (parse_all parse_usage logs) as [e|data]; [cbn; split; [done | by left]|].
  unfold usageHistory_createMany. cbn [dbDown customerIds rows usage_id_seq buffer flushed].
  destruct down; [cbn; split; [done | by left]|].
  destruct (forallb (valid_data takes_instant cs) data);
    [|destruct (forallb (storable takes_instant) data); cbn; (split; [done | by left])].
  cbn [fst snd buffer]. unfold ltrim_from.
  match goal with
  | |- context [command ?op ?b'] =>
      destruct (decide (head (faults b') = Some true)) as [Hr2|Ha2];
      [rewrite (UsageBufferFacts.command_rejected op b' Hr2)
      |rewrite (UsageBufferFacts.command_accepted op b' Ha2)]
  end; cbn [fst snd rows console_error log_flushed buffer];
    (split; [done|]; right; by exists data).
Qed.



End Facts.



End DrainFacts.

(* ===================================================================== *)
(** * Properties of the key resolver and its five-minute cache *)
(* ===================================================================== *)

Module KeyResolverFacts.
Import KeyResolver.

Lemma redis_command_accepted {A}
    (op : gmap string (string * Z) → gmap string (string * Z) * A) (c : Cache) :
  head (cfaults c) ≠ Some true →
  redis_command op c = (mkCache (op (entries c)).1 (tail (cfaults c)), inr (op (entries c)).2).
Proof.
  unfold redis_command. destruct (cfaults c) as [|[] fs]; cbn; [|done|];
    intros _; by destruct (op (entries c)).
Qed.

Lemma redis_command_rejected {A}
    (op : gmap string (string * Z) → gmap string (string * Z) * A) (c : Cache) :
  head (cfaults c) = Some true →
  redis_command op c = (mkCache (entries c) (tail (cfaults c)), inl RedisError).
Proof. unfold redis_command. by destruct (cfaults c) as [|[] fs]. Qed.

Section Facts.
Variable JSON_stringify : ApiKeyData → string.
Variable JSON_parse : string → option ApiKeyData.

(** The [try] block only reads. *)
Lemma cache_lookup_entries now key (c : Cache) :
  entries (cache_lookup JSON_parse now key c).1 = entries c
  ∧ cfaults (cache_lookup JSON_parse now key c).1 = tail (cfaults c)
  ∧ ∃ hit, (cache_lookup JSON_parse now key c).2 = inr hit.
Proof.
  unfold cache_lookup, try_catch, bind, redis_get.
  destruct (decide (head (cfaults c) = Some true)) as [Hr|Ha].
  - rewrite (redis_command_rejected _ c Hr). cbn. by eauto.
  - rewrite (redis_command_accepted _ c Ha). cbn [fst snd].
    destruct (entries c !! key) as [[v expiry]|]; [|cbn; by eauto].
    destruct (now <? expiry); [|cbn; by eauto].
    destruct (decide (v = EmptyString)); [cbn; by eauto|].
    destruct (JSON_parse v); cbn; by eauto.
Qed.

(** A live entry that parses is returned without a look at the catalog. *)
Lemma findByApiKey_hit cat now apiKey (c : Cache) v expiry d :
  head (cfaults c) ≠ Some true →
  entries c !! ("customer:apiKey:" +:+ apiKey) = Some (v, expiry) →
  now < expiry →
  v ≠ EmptyString →
  JSON_parse v = Some d →
  findByApiKey JSON_stringify JSON_parse cat now apiKey c
  = (mkCache (entries c) (tail (cfaults c)), inr (Some d)).
Proof.
  intros Ha He Hlt Hv Hp.
  unfold findByApiKey, cache_lookup, try_catch, bind, redis_get. cbn zeta.
  rewrite (redis_command_accepted _ c Ha). cbn [fst snd]. rewrite He.
  apply Z.ltb_lt in Hlt. rewrite Hlt.
  destruct (decide (v = EmptyString)); [done|]. by rewrite Hp.
Qed.

(** X13: a key that is refused is not remembered.  Whenever
    [findByApiKey] answers [null], the cache holds what it held before,
    so the next request with the same key goes to the catalog again. *)
Theorem findByApiKey_null_is_not_cached cat now apiKey (c : Cache) :
  (findByApiKey JSON_stringify JSON_parse cat now apiKey c).2 = inr None →
  entries (findByApiKey JSON_stringify JSON_parse cat now apiKey c).1 = entries c.
Proof.
  unfold findByApiKey, bind. cbn zeta.
  destruct (cache_lookup_entries now ("customer:apiKey:" +:+ apiKey) c)
    as (He & _ & hit & Hhit).
  destruct (cache_lookup JSON_parse now ("customer:apiKey:" +:+ apiKey) c) as [c1 r1].
  cbn in He, Hhit. subst r1. destruct hit as [d|]; [done|].
  destruct (apiKey_findFirst cat apiKey) as [e|[[[[k cr] t] dv]|]]; [done| |done].
  destruct (negb (ak_isActive k)); [done|].
  destruct (match ak_expiresAt k with Some e => e <? now | None => false end); [done|].
  destruct (negb (cr_isActive cr)); [done|].
  unfold redis_setex, redis_command. destruct (cfaults c1) as [|[] fs]; by cbn.
Qed.

(** X14: a resolved key is served from the cache for five minutes, whatever
    happens to the catalog.  After a lookup at [t0] that missed the cache
    and resolved the key, every lookup at [t1] with
    [t0 <= t1 < t0 + 300 s] returns the same data for every catalog (one
    in which the key was revoked or the tier changed included), provided
    Redis accepts the commands and the cached text parses back. *)
Theorem findByApiKey_cached_for_300s cat cat' t0 t1 apiKey (c : Cache) d :
  true ∉ take 3 (cfaults c) →
  entries c !! ("customer:apiKey:" +:+ apiKey) = None →
  (findByApiKey JSON_stringify JSON_parse cat t0 apiKey c).2 = inr (Some d) →
  JSON_stringify d ≠ EmptyString →
  JSON_parse (JSON_stringify d) = Some d →
  t0 ≤ t1 < t0 + 300 * 1000 →
  (findByApiKey JSON_stringify JSON_parse cat' t1 apiKey
     (findByApiKey JSON_stringify JSON_parse cat t0 apiKey c).1).2
  = inr (Some d).
Proof.
  intros H3 Hmiss Hfirst Hne Hrt Ht.
  apply UsageBufferFacts.no_fault_step in H3 as [H1 H3].
  apply UsageBufferFacts.no_fault_step in H3 as [H2 H3].
  apply UsageBufferFacts.no_fault_step in H3 as [H3' _].
  assert (findByApiKey JSON_stringify JSON_parse cat t0 apiKey c
          = (mkCache (<["customer:apiKey:" +:+ apiKey := (JSON_stringify d, t0 + 300 * 1000)]>
                        (entries c))
                     (tail (tail (cfaults c))), inr (Some d))) as Hrun.
  { revert Hfirst.
    unfold findByApiKey, cache_lookup, try_catch, bind, redis_get. cbn zeta.
    rewrite (redis_command_accepted _ c H1). cbn [fst snd]. rewrite Hmiss.
    cbn [ret fst snd].
    destruct (apiKey_findFirst cat apiKey) as [e|[[[[k cr] t] dv]|]]; [done| |done].
    destruct (negb (ak_isActive k)); [done|].
    destruct (match ak_expiresAt k with Some e => e <? t0 | None => false end); [done|].
    destruct (negb (cr_isActive cr)); [done|].
    unfold redis_setex.
    rewrite redis_command_accepted by exact H2. cbn [fst snd ret entries cfaults].
    intros Hd. apply (inj inr), (inj Some) in Hd. by rewrite Hd. }
  rewrite Hrun. cbn [fst].
  erewrite findByApiKey_hit; [done|exact H3'| |exact (proj2 Ht)|exact Hne|exact Hrt].
  cbn [entries]. by rewrite lookup_insert_eq.
Qed.

(** X15: the fallback on a Redis error covers the read only.  With Redis
    rejecting its commands, a key that the catalog accepts is not
    answered: the write-back of the result is outside the [try] block and
    its rejection is thrown to the caller. *)
Theorem findByApiKey_redis_down_throws cat now apiKey (c : Cache) fs k cr t dv :
  cfaults c = true :: true :: fs →
  apiKey_findFirst cat apiKey = inr (Some (k, cr, t, dv)) →
  ak_isActive k = true →
  (∀ e, ak_expiresAt k = Some e → now ≤ e) →
  cr_isActive cr = true →
  findByApiKey JSON_stringify JSON_parse cat now apiKey c
  = (mkCache (entries c) fs, inl RedisError).
Proof.
  intros Hf Hfind Hk Hexp Hc. destruct c as [e f]. cbn in Hf. subst f.
  unfold findByApiKey, cache_lookup, try_catch, bind, redis_get, redis_command.
  cbn [cfaults entries fst snd ret]. rewrite Hfind, Hk, Hc. cbn [negb].
  replace (match ak_expiresAt k with Some e0 => e0 <? now | None => false end)
    with false.
  - reflexivity.
  - destruct (ak_expiresAt k) as [e0|]; [|done]. symmetry. apply Z.ltb_ge. by apply Hexp.
Qed.

End Facts.

Lemma findByApiKey_null_is_not_cached_witness :
  entries (findByApiKey (λ _, "{}") (λ _, None) Scenarios2.catalog_one
             (JsDate.utc 2024 1 1 12 0) "no-such-key" (mkCache ∅ [])).1 = ∅.
Proof.
  apply (findByApiKey_null_is_not_cached (λ _, "{}") (λ _, None) Scenarios2.catalog_one
           (JsDate.utc 2024 1 1 12 0) "no-such-key" (mkCache ∅ [])).
  vm_compute. reflexivity.
Defined.

Lemma findByApiKey_cached_for_300s_witness :
  (findByApiKey (λ _, "{}") (λ _, Some Scenarios2.data_of_key) Scenarios2.catalog_revoked
     (JsDate.utc 2024 1 1 12 4) "test-api-key"
     (findByApiKey (λ _, "{}") (λ _, Some Scenarios2.data_of_key) Scenarios2.catalog_one
        (JsDate.utc 2024 1 1 12 0) "test-api-key" (mkCache ∅ [])).1).2
  = inr (Some Scenarios2.data_of_key).
Proof.
  apply (findByApiKey_cached_for_300s (λ _, "{}") (λ _, Some Scenarios2.data_of_key)
           Scenarios2.catalog_one Scenarios2.catalog_revoked).
  - cbn. apply not_elem_of_nil.
  - vm_compute. reflexivity.
  - vm_compute. reflexivity.
  - discriminate.
  - reflexivity.
  - vm_compute. split; [discriminate | reflexivity].
Defined.

Lemma findByApiKey_redis_down_throws_witness :
  (findByApiKey (λ _, "{}") (λ _, None) Scenarios2.catalog_one
     (JsDate.utc 2024 1 1 12 0) "test-api-key" (mkCache ∅ [true; true])).2
  = inl RedisError.
Proof.
  erewrite (findByApiKey_redis_down_throws (λ _, "{}") (λ _, None) Scenarios2.catalog_one
              (JsDate.utc 2024 1 1 12 0) "test-api-key" (mkCache ∅ [true; true]) []).
  - reflexivity.
  - reflexivity.
  - vm_compute. reflexivity.
  - reflexivity.
  - intros e He. vm_compute in He. discriminate.
  - reflexivity.
Defined.

End KeyResolverFacts.

(* ===================================================================== *)
(** * Properties of the limiter over a Redis that can reject commands *)
(* ===================================================================== *)

Module RateLimitIOFacts.
Import RateLimitIO.

(** When the limiter returns, every command it issued was accepted, and
    the decision and the hashes are those of [RateLimit.checkAndIncrement]. *)
Lemma checkAndIncrement_inr tz now cid limit (s : RateStore) d :
  (checkAndIncrement tz now cid limit s).2 = inr d →
  hashes (checkAndIncrement tz now cid limit s).1
    = (RateLimit.checkAndIncrement tz now cid limit (hashes s)).1
  ∧ d = (RateLimit.checkAndIncrement tz now cid limit (hashes s)).2.
Proof.
  destruct s as [r fs].
  unfold checkAndIncrement, RateLimit.checkAndIncrement, resetWindow,
    RateLimit.resetWindow, hgetAll, hset_count, hset_resetAt, rate_command, bind, ret.
  cbn [hashes rfaults]. cbn zeta.
  destruct fs as [|[] fs]; cbn [fst snd hashes rfaults]; try discriminate.
  - destruct (r !! RateLimit.rateKey cid) as [u|]; cbn [fst snd hashes rfaults].
    + destruct (RateLimit.date_lt (RateLimit.resetAt u) now);
        cbn [fst snd hashes rfaults].
      * intros H. apply (inj inr) in H. by subst d.
      * destruct (RateLimit.num_ge (RateLimit.count u) limit);
          cbn [fst snd hashes rfaults]; intros H; apply (inj inr) in H; by subst d.
    + intros H. apply (inj inr) in H. by subst d.
  - destruct (r !! RateLimit.rateKey cid) as [u|]; cbn [fst snd hashes rfaults].
    + destruct (RateLimit.date_lt (RateLimit.resetAt u) now);
        cbn [fst snd hashes rfaults].
      * destruct fs as [|[] [|[] fs]]; cbn [fst snd hashes rfaults];
          try discriminate; intros H; apply (inj inr) in H; by subst d.
      * destruct (RateLimit.num_ge (RateLimit.count u) limit);
          cbn [fst snd hashes rfaults].
        -- intros H. apply (inj inr) in H. by subst d.
        -- destruct fs as [|[] fs]; cbn [fst snd hashes rfaults];
             try discriminate; intros H; apply (inj inr) in H; by subst d.
    + destruct fs as [|[] [|[] fs]]; cbn [fst snd hashes rfaults];
        try discriminate; intros H; apply (inj inr) in H; by subst d.
Qed.

End RateLimitIOFacts.

(* ===================================================================== *)
(** * Properties of a request on its way through the gateway *)
(* ===================================================================== *)

Module GatewayFacts.
Import KeyResolver Gateway.

Lemma checkAndIncrement_denied tz now cid limit (r : gmap string RateLimit.UsageMap) :
  RateLimit.allowed (RateLimit.checkAndIncrement tz now cid limit r).2 = false →
  (RateLimit.checkAndIncrement tz now cid limit r).1 = r
  ∧ RateLimit.remaining (RateLimit.checkAndIncrement tz now cid limit r).2 = Some 0.
Proof.
  unfold RateLimit.checkAndIncrement, RateLimit.resetWindow. cbn zeta.
  destruct (r !! RateLimit.rateKey cid) as [u|]; [|done].
  destruct (RateLimit.date_lt (RateLimit.resetAt u) now); [done|].
  by destruct (RateLimit.num_ge (RateLimit.count u) limit).
Qed.

Lemma forwardRequests_returned cfg http (req : Proxy.Request) data :
  (Proxy.forwardRequests cfg http req).2 = Proxy.Returned data →
  ∃ c, (Proxy.forwardRequests cfg http req).1 = [c]
       ∧ Proxy.call_url c = Proxy.targetUrl cfg req.
Proof.
  unfold Proxy.forwardRequests.
  destruct (Proxy.upstreamCall cfg req) as [c|] eqn:Hc; [|done].
  intros _. exists c. split; [by destruct (http c)|].
  unfold Proxy.upstreamCall in Hc. cbn zeta in Hc.
  repeat case_decide; by simplify_eq.
Qed.

Section Facts.
Variable ctx_stringify : ApiKeyData → string.
Variable ctx_parse : string → option ApiKeyData.
Variable usage_stringify : UsageTracking.UsageLog → string.
Variable cat : Catalog.
Variable configTargetUrl : option string.
Variable httpService : Proxy.HttpCall → Proxy.HttpOutcome.
Variable tz : Z.

(** The middleware never touches the usage buffer.  When it passes a
    request on or answers 429, the limiter returned, and the counters are
    those of [RateLimit.checkAndIncrement]; when it answers 401 the
    limiter was not called. *)
Lemma use_stores now req w :
  usage (use ctx_stringify ctx_parse cat tz now req w).1 = usage w
  ∧ (∀ msg, (use ctx_stringify ctx_parse cat tz now req w).2 = Unauthorized msg →
            rates (use ctx_stringify ctx_parse cat tz now req w).1 = rates w)
  ∧ (∀ h, (use ctx_stringify ctx_parse cat tz now req w).2 = TooManyRequests h →
          rates (use ctx_stringify ctx_parse cat tz now req w).1 = rates w
          ∧ hdr_remaining h = Some 0)
  ∧ (∀ kd h, (use ctx_stringify ctx_parse cat tz now req w).2 = Next kd h →
             rates (use ctx_stringify ctx_parse cat tz now req w).1
             = (RateLimit.checkAndIncrement tz now (pretty (kd_customerId kd))
                  (Billing.rateLimit (kd_tier kd)) (rates w)).1).
Proof.
  unfold Gateway.use.
  destruct (UsageBuffer.header "x-api-key" (in_headers req)) as [apiKey|];
    [|by split_and!].
  destruct (decide (apiKey = EmptyString)); [by split_and!|].
  destruct (findByApiKey ctx_stringify ctx_parse cat now apiKey (cache w))
    as [c [e|[data|]]]; [by split_and!| |by split_and!].
  pose proof (RateLimitIOFacts.checkAndIncrement_inr tz now
                (pretty (kd_customerId data)) (Billing.rateLimit (kd_tier data))
                (RateLimitIO.mkRateStore (rates w) (rate_faults w))) as Hio.
  pose proof (checkAndIncrement_denied tz now (pretty (kd_customerId data))
                (Billing.rateLimit (kd_tier data)) (rates w)) as Hden.
  destruct (RateLimitIO.checkAndIncrement tz now (pretty (kd_customerId data))
              (Billing.rateLimit (kd_tier data))
              (RateLimitIO.mkRateStore (rates w) (rate_faults w))) as [s [e|d]].
  { by split_and!. }
  cbn [fst snd RateLimitIO.hashes] in Hio. destruct (Hio d eq_refl) as [Hh Hd].
  cbn [fst snd usage rates].
  destruct (RateLimit.allowed d) eqn:Hal.
  - split_and!; [done|done|done|]. intros kd h Heq. inversion Heq; subst kd.
    exact Hh.
  - rewrite Hd in Hal. destruct (Hden Hal) as [Hsame Hrem].
    split_and!; [done|done| |done].
    intros h Heq. inversion Heq. cbn [hdr_remaining].
    split; [by rewrite Hh | by rewrite Hd].
Qed.

(** The limiter's second write rejected: the middleware fails, no call is
    made upstream, and the count of the first write stays, without a
    [resetAt]. *)
Lemma serve_limiter_half_reset :
  let run :=
    serve (λ _, "{}") (λ _, None) (λ _, "{}") Scenarios2.catalog_one None
      (λ _, Proxy.Response "[]") 0 (JsDate.utc 2024 1 1 12 0) 200 0 5
      Scenarios2.incoming_with_key Scenarios2.gateway_half_reset in
  run.2 = Crashed RedisError
  ∧ run.1.2 = []
  ∧ rates run.1.1 !! RateLimit.rateKey "123"
    = Some (RateLimit.mkUsageMap (Some 1) None).
Proof. vm_compute. done. Qed.

(** X16: a request that is turned away costs nothing.  When the gateway
    answers 401 or 429, or fails in the middleware, no upstream call was
    made and nothing was added to the usage buffer.  On a 401 or a 429 no
    rate counter moved either, and a 429 carries
    [X-RateLimit-Remaining: 0].  (A failure in the middleware can come
    after the limiter has written a count.) *)
Theorem serve_turned_away now statusCode startTime endTime req w w' calls out :
  serve ctx_stringify ctx_parse usage_stringify cat configTargetUrl httpService tz
    now statusCode startTime endTime req w = (w', calls, out) →
  (∀ h result, out ≠ Answered h result) →
  calls = []
  ∧ usage w' = usage w
  ∧ (∀ status msg h, out = Rejected status msg h → rates w' = rates w)
  ∧ (∀ msg h, out = Rejected 429 msg h → ∃ hh, h = Some hh ∧ hdr_remaining hh = Some 0).
Proof.
  intros Hs Hna. unfold Gateway.serve in Hs.
  destruct (use_stores now req w) as (Hu & H401 & H429 & _).
  destruct (use ctx_stringify ctx_parse cat tz now req w) as [w1 p].
  cbn [fst snd] in *.
  destruct p as [msg|h|data h|e].
  - inversion Hs; subst. split_and!; [done|done| |by intros].
    intros _ _ _ _. by apply (H401 msg).
  - inversion Hs; subst. destruct (H429 h eq_refl) as [Hr Hrem].
    split_and!; [done|done|by intros|].
    intros msg h' Heq. inversion Heq; subst. by exists h.
  - exfalso.
    destruct (Proxy.forwardRequests configTargetUrl httpService _) as [calls' result].
    destruct (UsageBuffer.intercept _ _ _ _ _) as [u result'].
    inversion Hs; subst. by eapply Hna.
  - inversion Hs; subst. split_and!; [done|done|by intros|by intros].
Qed.

(** X17: only answered requests are recorded.  A request whose upstream
    call fails (or whose method the forwarder does not support) passed the
    rate limiter, yet the usage buffer is left as it was: the interceptor
    records a request only when the handler returns. *)
Theorem serve_upstream_error_is_not_tracked
    now statusCode startTime endTime req w w' calls h data status :
  serve ctx_stringify ctx_parse usage_stringify cat configTargetUrl httpService tz
    now statusCode startTime endTime req w
    = (w', calls, Answered h (Proxy.ThrewHttp data status)) →
  usage w' = usage w
  ∧ ∃ kd, (use ctx_stringify ctx_parse cat tz now req w).2 = Next kd h
          ∧ rates w'
            = (RateLimit.checkAndIncrement tz now (pretty (kd_customerId kd))
                 (Billing.rateLimit (kd_tier kd)) (rates w)).1.
Proof.
  intros Hs. unfold Gateway.serve in Hs.
  destruct (use_stores now req w) as (Hu & _ & _ & Hrates).
  destruct (use ctx_stringify ctx_parse cat tz now req w) as [w1 p].
  cbn [fst snd] in *.
  destruct p as [msg|h0|kd h0|e]; try discriminate.
  destruct (Proxy.forwardRequests configTargetUrl httpService _) as [calls' result].
  unfold UsageBuffer.intercept in Hs.
  destruct result as [d1|d1 s1]; inversion Hs; subst; cbn [usage rates].
  split; [done|]. exists kd. split; [done|]. exact (Hrates _ _ eq_refl).
Qed.

(** X18: what is recorded for an answered request.  The upstream call goes
    to the configured target with the [/api] prefix of the path removed,
    while the record pushed to the buffer keeps the request target as it
    arrived, under the customer the key resolved to. *)
Theorem serve_answered_is_tracked
    now statusCode startTime endTime req w w' calls h data :
  serve ctx_stringify ctx_parse usage_stringify cat configTargetUrl httpService tz
    now statusCode startTime endTime req w
    = (w', calls, Answered h (Proxy.Returned data)) →
  ∃ kd call u,
    (use ctx_stringify ctx_parse cat tz now req w).2 = Next kd h
    ∧ calls = [call]
    ∧ Proxy.call_url call = Proxy.template configTargetUrl +:+ Proxy.urlPath (in_url req)
    ∧ usage w' = (UsageTracking.addUsageLog usage_stringify u (usage w)).1
    ∧ UsageTracking.endpoint u = in_url req
    ∧ UsageTracking.customerId u = pretty (kd_customerId kd)
    ∧ UsageTracking.responseTime u = endTime - startTime.
Proof.
  intros Hs. unfold Gateway.serve in Hs.
  destruct (use_stores now req w) as (Hu & _).
  destruct (use ctx_stringify ctx_parse cat tz now req w) as [w1 p].
  cbn [fst snd] in *.
  destruct p as [msg|h0|kd h0|e]; try discriminate.
  set (request := Proxy.mkRequest _ _ _ _ _ _) in Hs.
  pose proof (forwardRequests_returned configTargetUrl httpService request) as Hret.
  destruct (Proxy.forwardRequests configTargetUrl httpService request)
    as [calls' result].
  unfold UsageBuffer.intercept in Hs.
  destruct result as [d1|d1 s1]; inversion Hs; subst; cbn [usage].
  destruct (Hret _ eq_refl) as (call & Hcalls & Hurl). cbn [fst] in Hcalls.
  exists kd, call. eexists. rewrite Hu.
  split; [done|]. split; [done|]. split; [|split; [reflexivity|by cbn]].
  rewrite Hurl. by rewrite ProxyFacts.targetUrl_spec.
Qed.

End Facts.

Lemma serve_turned_away_witness :
  rates (Gateway.serve (λ _, "{}") (λ _, None) (λ _, "{}") Scenarios2.catalog_one None
           (λ _, Proxy.Response "[]") 0 (JsDate.utc 2024 1 1 12 0) 200 0 5
           Scenarios2.incoming_with_key Scenarios2.gateway_exhausted).1.1
  = rates Scenarios2.gateway_exhausted.
Proof.
  set (run := Gateway.serve _ _ _ _ _ _ _ _ _ _ _ _ _).
  destruct (serve_turned_away (λ _, "{}") (λ _, None) (λ _, "{}") Scenarios2.catalog_one
              None (λ _, Proxy.Response "[]") 0 (JsDate.utc 2024 1 1 12 0) 200 0 5
              Scenarios2.incoming_with_key Scenarios2.gateway_exhausted
              run.1.1 run.1.2 run.2) as (_ & _ & H & _).
  - rewrite <- (surjective_pairing run.1). apply surjective_pairing.
  - intros h result. vm_compute. discriminate.
  - apply (H 429 "Rate limit exceeded"
             (Some (mkRateHeaders 100 (Some 0)
                      (RateLimit.StoredResetAt (Some (JsDate.utc 2024 1 2 0 0)))))).
    vm_compute. reflexivity.
Defined.

Lemma serve_upstream_error_is_not_tracked_witness :
  usage (Gateway.serve (λ _, "{}") (λ _, None) (λ _, "{}") Scenarios2.catalog_one None
           (λ _, Proxy.ErrorResponse "Not Found" 404) 0 (JsDate.utc 2024 1 1 12 0)
           200 0 5 Scenarios2.incoming_with_key Scenarios2.gateway_fresh).1.1
  = usage Scenarios2.gateway_fresh.
Proof.
  set (run := Gateway.serve _ _ _ _ _ _ _ _ _ _ _ _ _).
  destruct (serve_upstream_error_is_not_tracked (λ _, "{}") (λ _, None) (λ _, "{}")
              Scenarios2.catalog_one None (λ _, Proxy.ErrorResponse "Not Found" 404) 0
              (JsDate.utc 2024 1 1 12 0) 200 0 5
              Scenarios2.incoming_with_key Scenarios2.gateway_fresh
              run.1.1 run.1.2
              (mkRateHeaders 100 (Some 99)
                 (RateLimit.DateString (JsDate.utc 2024 1 2 0 0)))
              "Not Found" 404) as (H & _).
  - vm_compute. reflexivity.
  - exact H.
Defined.

Lemma serve_answered_is_tracked_witness :
  ∃ call,
    (Gateway.serve (λ _, "{}") (λ _, None) (λ _, "{}") Scenarios2.catalog_one None
       (λ _, Proxy.Response "[]") 0 (JsDate.utc 2024 1 1 12 0) 200 0 5
       Scenarios2.incoming_with_key Scenarios2.gateway_fresh).1.2 = [call]
    ∧ Proxy.call_url call
      = Proxy.template None +:+ Proxy.urlPath "/api/users?page=2".
Proof.
  set (run := Gateway.serve _ _ _ _ _ _ _ _ _ _ _ _ _).
  destruct (serve_answered_is_tracked (λ _, "{}") (λ _, None) (λ _, "{}")
              Scenarios2.catalog_one None (λ _, Proxy.Response "[]") 0
              (JsDate.utc 2024 1 1 12 0) 200 0 5
              Scenarios2.incoming_with_key Scenarios2.gateway_fresh
              run.1.1 run.1.2
              (mkRateHeaders 100 (Some 99)
                 (RateLimit.DateString (JsDate.utc 2024 1 2 0 0)))
              "[]") as (kd & call & u & _ & Hc & Hu & _).
  - vm_compute. reflexivity.
  - exists call. split; [exact Hc | exact Hu].
Defined.

End GatewayFacts.

(* ===================================================================== *)
(** * Properties of the billing period and of the jobs that use it *)
(* ===================================================================== *)

Module PeriodFacts.
Import Billing InvoiceJobs.

(** What the loop of [getCurrentBillingPeriod] returns when it returns: a
    window of one [setMonth] step, not before the start it was given, that
    holds [now]. *)
Lemma advance_bounds tz now guard (fuel : nat) : ∀ (start s e : Z),
  advance tz now guard fuel start = inr (s, e) →
  start ≤ s ∧ s ≤ now ∧ now < e ∧ e = nextMonth tz s.
Proof.
  induction fuel as [|fuel IH]; intros start s e; [discriminate|].
  rewrite BillingPeriodFacts.advance_step.
  destruct ((start <=? now) && (now <? nextMonth tz start)) eqn:Hc.
  - intros H. apply (inj inr) in H. apply pair_equal_spec in H as [<- <-].
    apply andb_true_iff in Hc as [H1 H2].
    apply Z.leb_le in H1. apply Z.ltb_lt in H2. repeat split; [lia|done|done].
  - destruct (guard start); [discriminate|]. intros H. apply IH in H.
    pose proof (BillingPeriodFacts.nextMonth_gt tz start). lia.
Qed.

Lemma getCurrentBillingPeriod_inr tz now cid db bp :
  getCurrentBillingPeriod tz now cid db = inr bp →
  ∃ c, findCustomer db cid = Some c
       ∧ match lastInvoiceOf db cid with
         | None => cust_createdAt c
         | Some last =>
             if now <? periodEnd last then cust_createdAt c
             else JsDate.setDate tz (periodEnd last)
                    (JsDate.getDate tz (periodEnd last) + 1)
         end ≤ bp_periodStart bp
       ∧ bp_periodStart bp ≤ now ∧ now < bp_periodEnd bp
       ∧ bp_periodEnd bp = nextMonth tz (bp_periodStart bp)
       ∧ startDate bp = bp_periodStart bp ∧ endDate bp = bp_periodEnd bp
       ∧ daysRemaining bp = ceilDays now (bp_periodEnd bp).
Proof.
  unfold getCurrentBillingPeriod.
  destruct (findCustomer db cid) as [c|]; [|discriminate]. cbn zeta.
  intros H. exists c. split; [done|].
  destruct (lastInvoiceOf db cid) as [last|].
  - destruct (JsDate.getFullYear tz now + 100 <? JsDate.getFullYear tz (periodEnd last));
      [discriminate|].
    destruct (now <? periodEnd last).
    + destruct (advance tz now guardNone MAX_ITERATIONS (cust_createdAt c))
        as [e|[s e]] eqn:Ha; [discriminate|].
      apply advance_bounds in Ha. apply (inj inr) in H. subst bp.
      cbn [bp_periodStart bp_periodEnd startDate endDate daysRemaining].
      destruct Ha as (? & ? & ? & ?). by repeat split.
    + destruct (advance tz now (guardTooFar tz now) MAX_ITERATIONS _)
        as [e|[s e]] eqn:Ha; [discriminate|].
      apply advance_bounds in Ha. apply (inj inr) in H. subst bp.
      cbn [bp_periodStart bp_periodEnd startDate endDate daysRemaining].
      destruct Ha as (? & ? & ? & ?). by repeat split.
  - destruct (JsDate.getFullYear tz now + 100 <? JsDate.getFullYear tz (cust_createdAt c));
      [discriminate|].
    destruct (advance tz now (guardFuture now) MAX_ITERATIONS (cust_createdAt c))
      as [e|[s e]] eqn:Ha; [discriminate|].
    apply advance_bounds in Ha. apply (inj inr) in H. subst bp.
    cbn [bp_periodStart bp_periodEnd startDate endDate daysRemaining].
      destruct Ha as (? & ? & ? & ?). by repeat split.
Qed.

Lemma ceilDays_pos (now periodEnd : Z) : now < periodEnd → 1 ≤ ceilDays now periodEnd.
Proof.
  intros H. pose proof (BillingPeriodFacts.ceilDays_is_ceiling now periodEnd) as Hc.
  cbn zeta in Hc. unfold JsDate.msPerDay in Hc. nia.
Qed.

(** X19: the period returned holds the present.  Whenever
    [getCurrentBillingPeriod] returns, in any of its three branches,
    [periodStart <= now < periodEnd], the end is one [setMonth] step after
    the start, [startDate] and [endDate] repeat the two, and
    [daysRemaining] is at least 1. *)
Theorem getCurrentBillingPeriod_holds_now tz now cid db bp :
  getCurrentBillingPeriod tz now cid db = inr bp →
  bp_periodStart bp ≤ now < bp_periodEnd bp
  ∧ bp_periodEnd bp = nextMonth tz (bp_periodStart bp)
  ∧ startDate bp = bp_periodStart bp
  ∧ endDate bp = bp_periodEnd bp
  ∧ 1 ≤ daysRemaining bp.
Proof.
  intros H. apply getCurrentBillingPeriod_inr in H
    as (c & _ & _ & H1 & H2 & H3 & H4 & H5 & H6).
  repeat split; try done. rewrite H6. by apply ceilDays_pos.
Qed.

(** X20: after an invoiced period has ended, the next one starts a day
    late.  When the customer's latest invoice ended at or before [now],
    a period that is returned starts no earlier than 24 hours after that
    end: the day between the two belongs to no period. *)
Theorem getCurrentBillingPeriod_skips_a_day tz now cid db last bp :
  lastInvoiceOf db cid = Some last →
  periodEnd last ≤ now →
  getCurrentBillingPeriod tz now cid db = inr bp →
  periodEnd last + JsDate.msPerDay ≤ bp_periodStart bp.
Proof.
  intros Hlast Hend H. apply getCurrentBillingPeriod_inr in H as (c & _ & Ha & _).
  rewrite Hlast in Ha.
  rewrite (proj2 (Z.ltb_ge _ _) Hend) in Ha.
  rewrite JsDateFacts.setDate_plus in Ha. lia.
Qed.

(** X21: during the 24 hours after the end of the latest invoiced period
    no billing period can be computed: [getCurrentBillingPeriod] throws. *)
Theorem getCurrentBillingPeriod_gap_day_throws tz now cid db last :
  lastInvoiceOf db cid = Some last →
  periodEnd last ≤ now < periodEnd last + JsDate.msPerDay →
  ∃ e, getCurrentBillingPeriod tz now cid db = inl e.
Proof.
  intros Hlast [Hend Hgap].
  destruct (getCurrentBillingPeriod tz now cid db) as [e|bp] eqn:H; [by eexists|].
  exfalso. apply getCurrentBillingPeriod_inr in H as (c & _ & Ha & Hs & _).
  rewrite Hlast in Ha.
  rewrite (proj2 (Z.ltb_ge _ _) Hend) in Ha.
  rewrite JsDateFacts.setDate_plus in Ha. lia.
Qed.

(** X22: the daily job never skips a customer for the days that remain.
    Its test [daysRemaining < 1] is false for every period
    [getCurrentBillingPeriod] returns, so a customer is skipped only when
    an invoice for the current period is already there, and is invoiced
    otherwise, on the first day of the period as on the last. *)
Theorem daily_one_skips_only_invoiced tz now c db n db' n' :
  daily_one tz now c (db, n) = (db', n') →
  skipCount n' ≠ skipCount n →
  db' = db
  ∧ ∃ bp i,
      getCurrentBillingPeriod tz now (cust_id c) db = inr bp
      ∧ i ∈ invoices db
      ∧ customerId i = cust_id c
      ∧ periodStart i = bp_periodStart bp
      ∧ periodEnd i = bp_periodEnd bp.
Proof.
  unfold daily_one.
  destruct (getCurrentBillingPeriod tz now (cust_id c) db) as [e|bp] eqn:Hbp.
  { intros H. apply pair_equal_spec in H as [<- <-]. by cbn. }
  apply getCurrentBillingPeriod_inr in Hbp as (_ & _ & _ & _ & Hlt & _ & Hs & He & Hd).
  assert ((daysRemaining bp <? 1) = false) as ->.
  { apply Z.ltb_ge. rewrite Hd. by apply ceilDays_pos. }
  unfold checkForDuplicateInvoice, query. cbn [snd].
  case_bool_decide as Hdup.
  - intros H. apply pair_equal_spec in H as [<- <-]. intros _. split; [done|].
    destruct Hdup as [i Hi]. apply find_some in Hi as [Hin Hp].
    apply list_elem_of_In in Hin.
    apply andb_true_iff in Hp as [Hp H3]. apply andb_true_iff in Hp as [H1 H2].
    apply bool_decide_eq_true in H1. apply bool_decide_eq_true in H2.
    apply bool_decide_eq_true in H3.
    exists bp, i. rewrite <- Hs, <- He. by repeat split.
  - destruct (generateInvoice tz now _ db) as [db1 [e|r]];
      intros H; apply pair_equal_spec in H as [<- <-]; by cbn.
Qed.

Lemma getCurrentBillingPeriod_holds_now_witness :
  JsDate.utc 2024 1 15 0 0 ≤ Scenarios.now_feb10 < JsDate.utc 2024 2 15 0 0.
Proof.
  apply (getCurrentBillingPeriod_holds_now 0 Scenarios.now_feb10 1 Scenarios.db_fresh
           Scenarios2.period_jan15).
  vm_compute. reflexivity.
Defined.

Lemma getCurrentBillingPeriod_skips_a_day_witness :
  JsDate.utc 2024 2 15 0 0 + JsDate.msPerDay ≤ JsDate.utc 2024 2 16 0 0.
Proof.
  apply (getCurrentBillingPeriod_skips_a_day 0 (JsDate.utc 2024 2 20 0 0) 1
           Scenarios.db_invoiced Scenarios2.invoice_jan15 Scenarios2.period_feb16).
  - vm_compute. reflexivity.
  - vm_compute. discriminate.
  - vm_compute. reflexivity.
Defined.

Lemma getCurrentBillingPeriod_gap_day_throws_witness :
  ∃ e, getCurrentBillingPeriod 0 (JsDate.utc 2024 2 15 12 0) 1 Scenarios.db_invoiced
       = inl e.
Proof.
  apply (getCurrentBillingPeriod_gap_day_throws 0 (JsDate.utc 2024 2 15 12 0) 1
           Scenarios.db_invoiced Scenarios2.invoice_jan15).
  - vm_compute. reflexivity.
  - vm_compute. split; [discriminate | reflexivity].
Defined.

Lemma daily_one_skips_only_invoiced_witness :
  ∃ bp i,
    getCurrentBillingPeriod 0 Scenarios.now_feb10 1 Scenarios.db_invoiced = inr bp
    ∧ i ∈ invoices Scenarios.db_invoiced
    ∧ customerId i = 1
    ∧ periodStart i = bp_periodStart bp
    ∧ periodEnd i = bp_periodEnd bp.
Proof.
  apply (daily_one_skips_only_invoiced 0 Scenarios.now_feb10 Scenarios2.customer_one
           Scenarios.db_invoiced (mkDailyCounts 0 0 0)
           Scenarios.db_invoiced (mkDailyCounts 0 1 0)).
  - vm_compute. reflexivity.
  - cbn. discriminate.
Defined.

End PeriodFacts.

(* ===================================================================== *)
(** * Properties of the overdue sweep, the summary and the usage count *)
(* ===================================================================== *)

Module LedgerFacts.
Import Billing InvoiceJobs.

Lemma swept_fields now i :
  id (swept now i) = id i ∧ customerId (swept now i) = customerId i
  ∧ amount (swept now i) = amount i ∧ dueDate (swept now i) = dueDate i.
Proof. unfold swept. by destruct (is_overdue now i). Qed.

Lemma swept_not_overdue now now' i : now' ≤ now → is_overdue now' (swept now i) = false.
Proof.
  intros Hle. unfold swept. destruct (is_overdue now i) eqn:Ho; [done|].
  unfold is_overdue in *. apply andb_false_iff in Ho as [Ho|Ho].
  - by rewrite Ho.
  - apply Z.ltb_ge in Ho. apply andb_false_iff. right. apply Z.ltb_ge. lia.
Qed.

Lemma swept_twice now now' i : now' ≤ now → swept now' (swept now i) = swept now i.
Proof. intros Hle. unfold swept at 1. by rewrite swept_not_overdue. Qed.

(** X23: the overdue sweep settles.  After [markOverdueInvoices] at [now]
    every invoice still [PENDING] is due at [now] or later, and a second
    sweep at the same or an earlier instant changes nothing and returns
    0. *)
Theorem markOverdueInvoices_settles now now' db :
  now' ≤ now →
  let db1 := (markOverdueInvoices now db).1 in
  (∀ i, i ∈ invoices db1 → status i = PENDING → now ≤ dueDate i)
  ∧ markOverdueInvoices now' db1 = (db1, inr 0).
Proof.
  intros Hle. cbn zeta. unfold markOverdueInvoices. cbn [fst]. split.
  - intros i Hi Hst. cbn [invoices with_invoices] in Hi.
    apply list_elem_of_fmap in Hi as (j & -> & _).
    pose proof (swept_not_overdue now now j (Z.le_refl _)) as Ho.
    unfold is_overdue in Ho. apply andb_false_iff in Ho as [Ho|Ho].
    + by apply bool_decide_eq_false in Ho.
    + by apply Z.ltb_ge in Ho.
  - destruct db as [ts cs us invs ls sq lsq]. unfold with_invoices.
    cbn [invoices invoice_id_seq tiers customers usageHistory lineItems lineItem_id_seq].
    f_equal.
    + f_equal. rewrite <- list_fmap_compose. apply list_fmap_ext.
      intros _ i _. by apply swept_twice.
    + do 2 f_equal. induction invs as [|i invs IH]; [done|].
      cbn [fmap list_fmap List.filter]. by rewrite (swept_not_overdue now now' i Hle).
Qed.

Lemma scope_swept now cid (l : list Invoice) :
  List.filter (summary_scope cid) (swept now <$> l)
  = swept now <$> List.filter (summary_scope cid) l.
Proof.
  induction l as [|i l IH]; [done|]. cbn [fmap list_fmap List.filter].
  assert (summary_scope cid (swept now i) = summary_scope cid i) as ->.
  { unfold summary_scope. by rewrite (proj1 (proj2 (swept_fields now i))). }
  destruct (summary_scope cid i); cbn [fmap list_fmap]; by rewrite IH.
Qed.

Lemma sum_amount_cons (i : Invoice) (l : list Invoice) :
  sum_amount (i :: l) = amount i + sum_amount l.
Proof. reflexivity. Qed.

Lemma sums_swept now (l : list Invoice) :
  sum_amount (swept now <$> l) = sum_amount l
  ∧ sum_amount (List.filter (λ i, bool_decide (status i = PAID)) (swept now <$> l))
    = sum_amount (List.filter (λ i, bool_decide (status i = PAID)) l)
  ∧ sum_amount (List.filter (λ i, bool_decide (status i = PENDING)) (swept now <$> l))
    = sum_amount (List.filter (λ i, bool_decide (status i = PENDING)) l)
      - sum_amount (List.filter (is_overdue now) l)
  ∧ List.filter (is_overdue now) (swept now <$> l) = [].
Proof.
  induction l as [|i l (IH1 & IH2 & IH3 & IH4)]; [done|].
  cbn [fmap list_fmap List.filter]. cbn beta.
  rewrite (swept_not_overdue now now i (Z.le_refl _)).
  destruct (is_overdue now i) eqn:Ho.
  - assert (status i = PENDING) as Hst.
    { unfold is_overdue in Ho. apply andb_true_iff in Ho as [Ho _].
      by apply bool_decide_eq_true in Ho. }
    assert (swept now i = set_overdue i) as -> by (unfold swept; by rewrite Ho).
    cbn [status set_overdue]. rewrite Hst.
    repeat case_bool_decide; try done.
    rewrite !sum_amount_cons. cbn [amount set_overdue].
    split; [lia|]. split; [lia|]. split; [lia|done].
  - assert (swept now i = i) as -> by (unfold swept; by rewrite Ho).
    repeat case_bool_decide; try congruence; rewrite ?sum_amount_cons;
      (split; [lia|]; split; [lia|]; split; [lia|done]).
Qed.

(** X24: what the sweep does to the summary.  The summary's overdue amount
    is the sum over invoices that are still [PENDING] past their due
    date.  Right after [markOverdueInvoices] it is therefore 0, the
    pending amount has dropped by what the overdue amount was, and the
    count, the total and the paid amount are unchanged. *)
Theorem getInvoiceSummary_after_sweep now cid db :
  let before := getInvoiceSummary now cid db in
  let after := getInvoiceSummary now cid (markOverdueInvoices now db).1 in
  overdueAmount after = 0
  ∧ pendingAmount after = pendingAmount before - overdueAmount before
  ∧ totalAmount after = totalAmount before
  ∧ paidAmount after = paidAmount before
  ∧ totalInvoices after = totalInvoices before.
Proof.
  cbn zeta. unfold getInvoiceSummary, markOverdueInvoices.
  cbn [fst invoices with_invoices overdueAmount pendingAmount totalAmount paidAmount
       totalInvoices].
  rewrite scope_swept.
  destruct (sums_swept now (List.filter (summary_scope cid) (invoices db)))
    as (H1 & H2 & H3 & H4).
  change (λ i, bool_decide (status i = PENDING) && (dueDate i <? now))
    with (is_overdue now).
  rewrite H1, H2, H3, H4. by rewrite length_fmap.
Qed.

(** X25: usage counts add up over adjacent periods.  The count for
    [[a, c)] is the count for [[a, b)] plus the count for [[b, c)]: the
    start is inclusive and the end exclusive, so periods that share an
    end point count no request twice and miss none. *)
Theorem calculateUsageForPeriod_additive cid a b c db :
  a ≤ b ≤ c →
  ∃ u1 u2 u,
    (calculateUsageForPeriod cid a b db).2 = inr u1
    ∧ (calculateUsageForPeriod cid b c db).2 = inr u2
    ∧ (calculateUsageForPeriod cid a c db).2 = inr u
    ∧ usage u = usage u1 + usage u2.
Proof.
  intros Habc. unfold calculateUsageForPeriod, bind, query, ret. cbn [fst snd].
  do 3 eexists. repeat split. cbn [usage]. unfold usageHistory_count.
  induction (usageHistory db) as [|h l IH]; [done|]. cbn [List.filter].
  destruct (bool_decide (uh_customerId h = cid)); cbn [andb]; [|exact IH].
  destruct (Z.leb_spec a (timestamp h)), (Z.leb_spec b (timestamp h)),
    (Z.ltb_spec (timestamp h) b), (Z.ltb_spec (timestamp h) c);
    cbn [andb length]; lia.
Qed.

Lemma markOverdueInvoices_settles_witness :
  markOverdueInvoices (JsDate.utc 2024 2 20 0 0)
    (markOverdueInvoices (JsDate.utc 2024 2 20 0 0) Scenarios.db_invoiced).1
  = ((markOverdueInvoices (JsDate.utc 2024 2 20 0 0) Scenarios.db_invoiced).1, inr 0).
Proof.
  apply (markOverdueInvoices_settles (JsDate.utc 2024 2 20 0 0)
           (JsDate.utc 2024 2 20 0 0) Scenarios.db_invoiced).
  vm_compute. discriminate.
Defined.

Lemma calculateUsageForPeriod_additive_witness :
  ∃ u1 u2 u,
    (calculateUsageForPeriod 1 (JsDate.utc 2024 1 15 0 0) (JsDate.utc 2024 2 15 0 0)
       Scenarios.db_fresh).2 = inr u1
    ∧ (calculateUsageForPeriod 1 (JsDate.utc 2024 2 15 0 0) (JsDate.utc 2024 3 15 0 0)
         Scenarios.db_fresh).2 = inr u2
    ∧ (calculateUsageForPeriod 1 (JsDate.utc 2024 1 15 0 0) (JsDate.utc 2024 3 15 0 0)
         Scenarios.db_fresh).2 = inr u
    ∧ usage u = usage u1 + usage u2.
Proof.
  apply (calculateUsageForPeriod_additive 1 (JsDate.utc 2024 1 15 0 0)
           (JsDate.utc 2024 2 15 0 0) (JsDate.utc 2024 3 15 0 0) Scenarios.db_fresh).
  vm_compute. split; discriminate.
Defined.

End LedgerFacts.

(* ===================================================================== *)
(** * Properties of the invoice jobs *)
(* ===================================================================== *)

Module InvoiceJobsFacts.
Import Billing InvoiceJobs.

Section Facts.
Variables tz now : Z.

(** One turn of the loop of [generateMonthlyInvoices] leaves the result
    as it is, or counts one success with its invoice, or one failure with
    its error. *)
Lemma monthly_one_step (c : Customer) (st : DB * BulkInvoiceResultDto) :
  let res := st.2 in
  let res' := (monthly_one tz now c st).2 in
  res' = res
  ∨ (∃ inv, res' = mkBulkInvoiceResultDto (successful res + 1) (failed res) (errors res)
                     (bulk_invoices res ++ [inv]))
  ∨ (∃ e, res' = mkBulkInvoiceResultDto (successful res) (failed res + 1)
                   (errors res ++ [(cust_id c, e)]) (bulk_invoices res)).
Proof.
  destruct st as [db res]. cbn zeta. cbn [snd]. unfold monthly_one.
  destruct (getCurrentBillingPeriod tz now (cust_id c) db) as [e|bp].
  - right. right. by exists e.
  - destruct (7 <? daysRemaining bp); [by left|].
    destruct (generateInvoice tz now _ db) as [db' [e|inv]].
    + right. right. by exists e.
    + right. left. by exists inv.
Qed.

Lemma monthly_fold (cs : list Customer) : ∀ (st : DB * BulkInvoiceResultDto),
  let res := st.2 in
  let res' := (foldl (λ st c, monthly_one tz now c st) st cs).2 in
  successful res' - successful res
    = Z.of_nat (length (bulk_invoices res')) - Z.of_nat (length (bulk_invoices res))
  ∧ failed res' - failed res
    = Z.of_nat (length (errors res')) - Z.of_nat (length (errors res))
  ∧ 0 ≤ successful res' - successful res
  ∧ 0 ≤ failed res' - failed res
  ∧ (successful res' - successful res) + (failed res' - failed res)
    ≤ Z.of_nat (length cs)
  ∧ ∀ x, x ∈ errors res' → x ∈ errors res ∨ ∃ c, c ∈ cs ∧ x.1 = cust_id c.
Proof.
  induction cs as [|c cs IH]; intros st; cbn zeta.
  - cbn [foldl length]. split_and!; try lia. intros x Hx. by left.
  - cbn [foldl]. specialize (IH (monthly_one tz now c st)). cbn zeta in IH.
    destruct IH as (I1 & I2 & I3 & I4 & I5 & I6).
    set (res' := (foldl _ (monthly_one tz now c st) cs).2) in *.
    cbn [length]. rewrite Nat2Z.inj_succ.
    destruct (monthly_one_step c st) as [Heq|[[inv Heq]|[e Heq]]];
      cbn zeta in Heq; rewrite Heq in I1, I2, I3, I4, I5, I6;
      cbn [successful failed errors bulk_invoices] in I1, I2, I3, I4, I5, I6;
      try rewrite length_app in I1; try rewrite length_app in I2;
      cbn [length] in I1, I2.
    + split_and!; try lia. intros x Hx. destruct (I6 x Hx) as [?|(c' & ? & ?)];
        [by left|]. right. exists c'. split; [by apply list_elem_of_further|done].
    + split_and!; try lia. intros x Hx. destruct (I6 x Hx) as [?|(c' & ? & ?)];
        [by left|]. right. exists c'. split; [by apply list_elem_of_further|done].
    + split_and!; try lia. intros x Hx. destruct (I6 x Hx) as [Hin|(c' & ? & ?)].
      * apply elem_of_app in Hin as [?|Hin]; [by left|].
        apply list_elem_of_singleton in Hin. subst x. right. exists c.
        split; [apply list_elem_of_here | done].
      * right. exists c'. split; [by apply list_elem_of_further|done].
Qed.

(** X26: the counters of the monthly run.  [successful] is the number of
    invoices returned and [failed] the number of errors; together they
    never exceed the number of active customers selected (a customer
    with more than seven days left is in neither), and every error names
    an active customer of the selection. *)
Theorem generateMonthlyInvoices_counts (customerIds : option (list Z)) (db : DB) :
  let res := (generateMonthlyInvoices tz now customerIds db).2 in
  successful res = Z.of_nat (length (bulk_invoices res))
  ∧ failed res = Z.of_nat (length (errors res))
  ∧ successful res + failed res ≤ Z.of_nat (length (customers_to_bill customerIds db))
  ∧ ∀ cid e, (cid, e) ∈ errors res →
      ∃ c, c ∈ customers db ∧ cust_id c = cid ∧ isActive c = true.
Proof.
  cbn zeta. unfold generateMonthlyInvoices.
  destruct (monthly_fold (customers_to_bill customerIds db)
              (db, mkBulkInvoiceResultDto 0 0 [] []))
    as (I1 & I2 & I3 & I4 & I5 & I6).
  cbn zeta in *. cbn [snd successful failed errors bulk_invoices length] in *.
  split_and!; try lia.
  intros cid e Hin. destruct (I6 _ Hin) as [Hnil|(c & Hc & Hid)].
  - by apply not_elem_of_nil in Hnil.
  - exists c. unfold customers_to_bill in Hc. apply list_elem_of_In in Hc.
    apply filter_In in Hc as [Hc Hact]. apply list_elem_of_In in Hc.
    apply andb_true_iff in Hact as [Hact _]. by repeat split.
Qed.

(** What one turn of the daily loop does when it counts a success. *)
Lemma daily_one_success (c : Customer) db n db' n' :
  daily_one tz now c (db, n) = (db', n') →
  (successCount n' = successCount n
   ∨ successCount n' = successCount n + 1
     ∧ ∃ bp r,
         getCurrentBillingPeriod tz now (cust_id c) db = inr bp
         ∧ generateInvoice tz now
             (mkCreateInvoiceDto (cust_id c) (startDate bp) (endDate bp)) db
           = (db', inr r)).
Proof.
  unfold daily_one.
  destruct (getCurrentBillingPeriod tz now (cust_id c) db) as [e|bp].
  { intros H. apply pair_equal_spec in H as [_ <-]. by left. }
  destruct (daysRemaining bp <? 1).
  { intros H. apply pair_equal_spec in H as [_ <-]. by left. }
  unfold checkForDuplicateInvoice, query. cbn [snd].
  case_bool_decide as Hdup.
  { intros H. apply pair_equal_spec in H as [_ <-]. by left. }
  destruct (generateInvoice tz now _ db) as [db1 [e|r]] eqn:Hg;
    intros H; apply pair_equal_spec in H as [<- <-]; [by left|].
  right. split; [done|]. by exists bp, r.
Qed.

(** X27: two runs of the daily job at one instant that both invoice a
    customer produce two invoices whose periods both hold that instant:
    the instant is billed twice.  (It happens when the first run takes
    its period from the end of the latest invoice and the second, seeing
    the invoice just written, takes it from the creation date.) *)
Theorem daily_one_twice_overlaps (c : Customer) db n db1 n1 db2 n2 :
  daily_one tz now c (db, n) = (db1, n1) →
  daily_one tz now c (db1, n1) = (db2, n2) →
  successCount n2 = successCount n + 2 →
  ∃ i1 i2,
    invoices db2 = invoices db ++ [i1; i2]
    ∧ id i1 ≠ id i2
    ∧ customerId i1 = cust_id c ∧ customerId i2 = cust_id c
    ∧ periodStart i1 ≤ now < periodEnd i1
    ∧ periodStart i2 ≤ now < periodEnd i2.
Proof.
  intros H1 H2 Hcount.
  apply daily_one_success in H1 as [E1|(E1 & bp1 & r1 & Hbp1 & Hg1)];
    apply daily_one_success in H2 as [E2|(E2 & bp2 & r2 & Hbp2 & Hg2)]; try lia.
  apply PeriodFacts.getCurrentBillingPeriod_inr in Hbp1
    as (_ & _ & _ & Hs1 & He1 & _ & Hsd1 & Hed1 & _).
  apply PeriodFacts.getCurrentBillingPeriod_inr in Hbp2
    as (_ & _ & _ & Hs2 & He2 & _ & Hsd2 & Hed2 & _).
  apply InvoiceFacts.generateInvoice_success in Hg1
    as (c1 & t1 & num1 & _ & _ & _ & Hdb1 & _).
  apply InvoiceFacts.generateInvoice_success in Hg2
    as (c2 & t2 & num2 & _ & _ & _ & Hdb2 & _).
  cbn zeta in Hdb1, Hdb2.
  cbn [dto_customerId dto_periodStart dto_periodEnd] in Hdb1, Hdb2.
  eexists _, _. split; [|split].
  - rewrite Hdb2. cbn [invoices]. rewrite Hdb1. cbn [invoices].
    rewrite <- app_assoc. reflexivity.
  - cbn [id]. rewrite Hdb1. cbn [invoice_id_seq]. lia.
  - cbn [customerId periodStart periodEnd]. rewrite Hsd1, Hed1, Hsd2, Hed2.
    by repeat split.
Qed.

End Facts.

Lemma daily_one_twice_overlaps_witness :
  ∃ i1 i2,
    invoices
      (daily_one 0 (JsDate.utc 2024 2 20 0 0) Scenarios2.customer_one
         (daily_one 0 (JsDate.utc 2024 2 20 0 0) Scenarios2.customer_one
            (Scenarios.db_invoiced, mkDailyCounts 0 0 0))).1
    = invoices Scenarios.db_invoiced ++ [i1; i2]
    ∧ id i1 ≠ id i2
    ∧ customerId i1 = 1 ∧ customerId i2 = 1
    ∧ periodStart i1 ≤ JsDate.utc 2024 2 20 0 0 < periodEnd i1
    ∧ periodStart i2 ≤ JsDate.utc 2024 2 20 0 0 < periodEnd i2.
Proof.
  set (st1 := daily_one 0 (JsDate.utc 2024 2 20 0 0) Scenarios2.customer_one
                (Scenarios.db_invoiced, mkDailyCounts 0 0 0)).
  set (st2 := daily_one 0 (JsDate.utc 2024 2 20 0 0) Scenarios2.customer_one st1).
  apply (daily_one_twice_overlaps 0 (JsDate.utc 2024 2 20 0 0) Scenarios2.customer_one
           Scenarios.db_invoiced (mkDailyCounts 0 0 0) st1.1 st1.2 st2.1 st2.2).
  - apply surjective_pairing.
  - rewrite <- (surjective_pairing st1). apply surjective_pairing.
  - vm_compute. reflexivity.
Defined.

End InvoiceJobsFacts.

(* ===================================================================== *)
(** * Properties of a freshly generated invoice and of a repeated run *)
(* ===================================================================== *)

Module CalendarYearFacts.
Import JsDate.

Ltac Zify.zify_post_hook ::= Z.to_euclidean_division_equations.

(** [setMonth(getMonth() + 1)] ends in the same year or in the next. *)
Lemma getFullYear_setMonth_next (tz t : Z) :
  getFullYear tz (setMonth tz t (getMonth tz t + 1)) ≤ getFullYear tz t + 1.
Proof.
  unfold getFullYear, setMonth, getMonth, MonthFromTime, YearFromTime, DateFromTime,
    UTC, MakeDate, MakeDay, LocalTime.
  set (l := t + tz).
  pose proof (JsDateFacts.civil_from_days_inverse (Day l)) as H.
  destruct (civil_from_days (Day l)) as [[y m] d]. cbn [fst snd].
  destruct H as (E & Hm & Hd).
  replace (m - 1 + 1) with m by lia.
  set (y' := y + m `div` 12). set (m' := m `mod` 12 + 1).
  assert (y' ≤ y + 1 ∧ 1 ≤ m' ≤ 12) as [Hy' Hm'] by (subst y' m'; lia).
  clearbody y' m'.
  set (z2 := Day ((days_from_civil y' m' 1 + d - 1) * msPerDay + TimeWithinDay l - tz + tz)).
  assert (z2 = days_from_civil y' m' d) as Hz2.
  { rewrite (JsDateFacts.days_from_civil_day y' m' d).
    subst z2. generalize (days_from_civil y' m' 1). intros b.
    unfold Day, TimeWithinDay, msPerDay. lia. }
  clearbody z2.
  pose proof (JsDateFacts.civil_from_days_inverse z2) as H2.
  destruct (civil_from_days z2) as [[y2 m2] d2]. cbn [fst].
  destruct H2 as (E2 & Hm2 & Hd2).
  destruct (Z.le_gt_cases y2 (y + 1)) as [|Hgt]; [done|]. exfalso.
  pose proof (JsDateFacts.year_start_le y2 m2 d2 Hm2 ltac:(lia)).
  pose proof (JsDateFacts.year_end_lt y' m' d Hm' ltac:(lia)).
  pose proof (JsDateFacts.year_start_mono (y' + 1) y2 ltac:(lia)).
  lia.
Qed.

End CalendarYearFacts.

Module RepeatFacts.
Import Billing InvoiceJobs.

Lemma generateInvoice_row tz now dto db db' r :
  generateInvoice tz now dto db = (db', inr r) →
  ∃ row,
    invoices db' = invoices db ++ [row]
    ∧ customers db' = customers db
    ∧ findInvoice db' (r_id r) = Some row
    ∧ id row = r_id r
    ∧ customerId row = dto_customerId dto
    ∧ periodStart row = dto_periodStart dto
    ∧ periodEnd row = dto_periodEnd dto
    ∧ status row = PENDING
    ∧ dueDate row = now + 7 * JsDate.msPerDay
    ∧ createdAt row = now.
Proof.
  intros Hg. apply InvoiceFacts.generateInvoice_success in Hg
    as (c & t & num & _ & _ & Hnone & Hdb & Hget).
  cbn zeta in Hdb, Hget.
  set (row := mkInvoice _ _ _ _ _ _ _ _ _ _ _ _) in Hdb.
  assert (findInvoice db' (invoice_id_seq db) = Some row) as Hfind.
  { rewrite Hdb. unfold findInvoice. cbn [invoices].
    rewrite (InvoiceFacts.find_snoc_None _ _ _ Hnone). subst row. cbn [id].
    by rewrite bool_decide_eq_true_2. }
  assert (r_id r = invoice_id_seq db) as Hid.
  { unfold getInvoiceById, attempt in Hget. rewrite Hfind in Hget.
    destruct (findCustomer db' (customerId row));
      apply pair_equal_spec in Hget as [_ Hget]; [|discriminate].
    apply (inj inr) in Hget. by subst r. }
  exists row. rewrite Hid. split; [by rewrite Hdb|]. split; [by rewrite Hdb|].
  split; [done|]. subst row. cbn [id customerId periodStart periodEnd status dueDate createdAt].
  split_and!; try done. apply JsDateFacts.setDate_plus.
Qed.

(** X28: a new invoice has seven days.  An invoice [generateInvoice]
    returned at [now] is due exactly seven days later, and an overdue
    sweep at any instant up to then finds it and leaves it [PENDING]. *)
Theorem fresh_invoice_has_7_days tz now now' dto db db' r :
  generateInvoice tz now dto db = (db', inr r) →
  now' ≤ now + 7 * JsDate.msPerDay →
  ∃ i, findInvoice (markOverdueInvoices now' db').1 (r_id r) = Some i
       ∧ status i = PENDING
       ∧ dueDate i = now + 7 * JsDate.msPerDay
       ∧ createdAt i = now.
Proof.
  intros Hg Hle. apply generateInvoice_row in Hg
    as (row & _ & _ & Hfind & _ & _ & _ & _ & Hst & Hdue & Hcr).
  exists row. split; [|done].
  unfold markOverdueInvoices, findInvoice. cbn [fst invoices with_invoices].
  rewrite InvoiceFacts.find_fmap_preserve.
  - unfold findInvoice in Hfind. rewrite Hfind. cbn [fmap option_fmap option_map].
    f_equal. unfold swept, is_overdue. rewrite Hdue.
    rewrite (proj2 (Z.ltb_ge _ _) Hle). by rewrite andb_false_r.
  - intros x. by rewrite (proj1 (LedgerFacts.swept_fields now' x)).
Qed.

Lemma advance_guardNone tz now guard (fuel : nat) : ∀ (start : Z) x,
  advance tz now guard fuel start = inr x →
  advance tz now guardNone fuel start = inr x.
Proof.
  induction fuel as [|fuel IH]; intros start x; [discriminate|].
  rewrite !BillingPeriodFacts.advance_step.
  destruct ((start <=? now) && (now <? nextMonth tz start)); [done|].
  destruct (guard start); [discriminate|]. unfold guardNone at 1. apply IH.
Qed.

Lemma lastInvoiceOf_first db db1 cid row :
  lastInvoiceOf db cid = None →
  invoices db1 = invoices db ++ [row] →
  customerId row = cid →
  lastInvoiceOf db1 cid = Some row.
Proof.
  unfold lastInvoiceOf. intros Hnone -> Hcid. rewrite foldl_app, Hnone.
  cbn [foldl]. by rewrite bool_decide_eq_true_2.
Qed.

(** Once the first invoice of a customer is written, for the period that
    holds [now], the period computed at [now] is still that period. *)
Lemma period_after_first_invoice tz now cid db db1 bp row :
  lastInvoiceOf db cid = None →
  getCurrentBillingPeriod tz now cid db = inr bp →
  invoices db1 = invoices db ++ [row] →
  customers db1 = customers db →
  customerId row = cid →
  periodEnd row = endDate bp →
  ∃ bp1,
    getCurrentBillingPeriod tz now cid db1 = inr bp1
    ∧ startDate bp1 = startDate bp
    ∧ endDate bp1 = endDate bp
    ∧ daysRemaining bp1 = daysRemaining bp.
Proof.
  intros Hnone Hbp Hinv Hcust Hcid Hpe.
  pose proof (PeriodFacts.getCurrentBillingPeriod_inr _ _ _ _ _ Hbp)
    as (c0 & Hc0 & _ & Hs & He & Hnext & Hsd & Hed & Hdays).
  assert (advance tz now (guardFuture now) MAX_ITERATIONS (cust_createdAt c0)
          = inr (bp_periodStart bp, bp_periodEnd bp)) as Hadv.
  { revert Hbp. unfold getCurrentBillingPeriod. rewrite Hc0, Hnone. cbn zeta.
    destruct (JsDate.getFullYear tz now + 100 <? JsDate.getFullYear tz (cust_createdAt c0));
      [discriminate|].
    destruct (advance tz now (guardFuture now) MAX_ITERATIONS (cust_createdAt c0))
      as [e|[s e]]; [discriminate|].
    intros H. apply (inj inr) in H. by subst bp. }
  apply advance_guardNone in Hadv.
  pose proof (lastInvoiceOf_first db db1 cid row Hnone Hinv Hcid) as Hlast1.
  assert (findCustomer db1 cid = Some c0) as Hc1.
  { unfold findCustomer in *. by rewrite Hcust. }
  assert ((JsDate.getFullYear tz now + 100 <? JsDate.getFullYear tz (periodEnd row)) = false)
    as Hyear.
  { apply Z.ltb_ge. rewrite Hpe, Hed, Hnext. unfold nextMonth.
    pose proof (CalendarYearFacts.getFullYear_setMonth_next tz (bp_periodStart bp)).
    pose proof (JsDateFacts.getFullYear_mono tz _ _ Hs). lia. }
  assert ((now <? periodEnd row) = true) as Hlive.
  { apply Z.ltb_lt. by rewrite Hpe, Hed. }
  unfold getCurrentBillingPeriod. rewrite Hc1, Hlast1. cbn zeta.
  rewrite Hyear, Hlive, Hadv.
  eexists. split; [reflexivity|].
  cbn [startDate endDate daysRemaining]. by rewrite Hsd, Hed, Hdays.
Qed.

(** X29: a second monthly run reports a new customer's invoice as a
    failure.  When the monthly loop has just written the first invoice of
    a customer, the same turn run again at that instant does not skip
    the customer: it asks for the same period, is refused as a
    duplicate, counts a failure and leaves the store as it is. *)
Theorem monthly_one_rerun_fails tz now (c : Customer) db res db1 res1 :
  lastInvoiceOf db (cust_id c) = None →
  monthly_one tz now c (db, res) = (db1, res1) →
  successful res1 = successful res + 1 →
  monthly_one tz now c (db1, res1)
  = (db1,
     mkBulkInvoiceResultDto (successful res1) (failed res1 + 1)
       (errors res1
        ++ [(cust_id c,
             BadRequestException "Invoice already exists for customer for period")])
       (bulk_invoices res1)).
Proof.
  intros Hnone H1 Hcount. unfold monthly_one in H1.
  destruct (getCurrentBillingPeriod tz now (cust_id c) db) as [e|bp] eqn:Hbp.
  { apply pair_equal_spec in H1 as [_ <-]. cbn in Hcount. lia. }
  destruct (7 <? daysRemaining bp) eqn:H7.
  { apply pair_equal_spec in H1 as [_ <-]. lia. }
  destruct (generateInvoice tz now _ db) as [db' [e|inv]] eqn:Hg;
    apply pair_equal_spec in H1 as [<- <-]; [cbn in Hcount; lia|].
  apply generateInvoice_row in Hg
    as (row & Hinv & Hcust & _ & _ & Hcid & Hps & Hpe & _).
  cbn [dto_customerId dto_periodStart dto_periodEnd] in Hcid, Hps, Hpe.
  destruct (period_after_first_invoice tz now (cust_id c) db db' bp row)
    as (bp1 & Hbp1 & Hsd & Hed & Hdays); try done.
  unfold monthly_one. rewrite Hbp1, Hdays, H7, Hsd, Hed.
  rewrite (InvoiceFacts.generateInvoice_rejects_existing tz now _ db' row);
    [reflexivity| |done|done|done].
  rewrite Hinv. apply elem_of_app. right. apply list_elem_of_here.
Qed.

(** X30: a second daily run skips a new customer.  When the daily loop
    has just written the first invoice of a customer, the same turn run
    again at that instant finds the invoice, counts a skip and leaves the
    store as it is. *)
Theorem daily_one_rerun_skips tz now (c : Customer) db n db1 n1 :
  lastInvoiceOf db (cust_id c) = None →
  daily_one tz now c (db, n) = (db1, n1) →
  successCount n1 = successCount n + 1 →
  daily_one tz now c (db1, n1)
  = (db1, mkDailyCounts (successCount n1) (skipCount n1 + 1) (errorCount n1)).
Proof.
  intros Hnone H1 Hcount.
  apply InvoiceJobsFacts.daily_one_success in H1 as [E|(_ & bp & r & Hbp & Hg)]; [lia|].
  apply generateInvoice_row in Hg
    as (row & Hinv & Hcust & _ & _ & Hcid & Hps & Hpe & _).
  cbn [dto_customerId dto_periodStart dto_periodEnd] in Hcid, Hps, Hpe.
  destruct (period_after_first_invoice tz now (cust_id c) db db1 bp row)
    as (bp1 & Hbp1 & Hsd & Hed & Hdays); try done.
  pose proof (PeriodFacts.getCurrentBillingPeriod_inr _ _ _ _ _ Hbp1)
    as (_ & _ & _ & _ & Hlt & _ & _ & _ & Hd1).
  unfold daily_one. rewrite Hbp1.
  assert ((daysRemaining bp1 <? 1) = false) as ->.
  { apply Z.ltb_ge. rewrite Hd1. by apply PeriodFacts.ceilDays_pos. }
  rewrite Hsd, Hed. unfold checkForDuplicateInvoice, query. cbn [snd].
  rewrite bool_decide_eq_true_2; [reflexivity|].
  apply (InvoiceFacts.find_elem_of _ _ row).
  - rewrite Hinv. apply elem_of_app. right. apply list_elem_of_here.
  - rewrite Hcid, Hps, Hpe. by rewrite !bool_decide_eq_true_2.
Qed.

Lemma monthly_one_rerun_fails_witness :
  (monthly_one 0 Scenarios.now_feb10 Scenarios2.customer_one
     (monthly_one 0 Scenarios.now_feb10 Scenarios2.customer_one
        (Scenarios.db_fresh, mkBulkInvoiceResultDto 0 0 [] []))).1
  = Scenarios.db_invoiced.
Proof.
  set (st1 := monthly_one 0 Scenarios.now_feb10 Scenarios2.customer_one
                (Scenarios.db_fresh, mkBulkInvoiceResultDto 0 0 [] [])).
  rewrite (surjective_pairing st1).
  rewrite (monthly_one_rerun_fails 0 Scenarios.now_feb10 Scenarios2.customer_one
             Scenarios.db_fresh (mkBulkInvoiceResultDto 0 0 [] []) st1.1 st1.2).
  - vm_compute. reflexivity.
  - vm_compute. reflexivity.
  - apply surjective_pairing.
  - vm_compute. reflexivity.
Defined.

Lemma daily_one_rerun_skips_witness :
  (daily_one 0 Scenarios.now_feb10 Scenarios2.customer_one
     (daily_one 0 Scenarios.now_feb10 Scenarios2.customer_one
        (Scenarios.db_fresh, mkDailyCounts 0 0 0))).2
  = mkDailyCounts 1 1 0.
Proof.
  set (st1 := daily_one 0 Scenarios.now_feb10 Scenarios2.customer_one
                (Scenarios.db_fresh, mkDailyCounts 0 0 0)).
  rewrite (surjective_pairing st1).
  rewrite (daily_one_rerun_skips 0 Scenarios.now_feb10 Scenarios2.customer_one
             Scenarios.db_fresh (mkDailyCounts 0 0 0) st1.1 st1.2).
  - vm_compute. reflexivity.
  - vm_compute. reflexivity.
  - apply surjective_pairing.
  - vm_compute. reflexivity.
Defined.

Lemma fresh_invoice_has_7_days_witness :
  ∃ r i,
    generateInvoice 0 Scenarios.now_feb10 Scenarios.dto_jan15 Scenarios.db_fresh
    = (Scenarios.db_invoiced, inr r)
    ∧ findInvoice (markOverdueInvoices (JsDate.utc 2024 2 17 10 0)
                     Scenarios.db_invoiced).1 (r_id r) = Some i
    ∧ status i = PENDING.
Proof.
  assert (∃ r, generateInvoice 0 Scenarios.now_feb10 Scenarios.dto_jan15
                 Scenarios.db_fresh = (Scenarios.db_invoiced, inr r)) as [r Hr].
  { eexists. vm_compute. reflexivity. }
  destruct (fresh_invoice_has_7_days 0 Scenarios.now_feb10 (JsDate.utc 2024 2 17 10 0)
              Scenarios.dto_jan15 Scenarios.db_fresh Scenarios.db_invoiced r Hr)
    as (i & Hi & Hst & _).
  - vm_compute. discriminate.
  - exists r, i. split; [exact Hr|]. split; [exact Hi | exact Hst].
Defined.

End RepeatFacts.
